(** * Stock-BERT classifier: encoding pipeline and inference initialisation

    A shallow embedding of [src/uf/apps/stockbert/stockbert_classifier.py]
    (the methods [convert], [_convert_X], [_convert_x], [_convert_y] and
    [_set_placeholders] of [StockBERTClassifier]) and of
    [src/uf/task/init.py] ([Initialization.run]), together with the
    properties the specification states about them (C1 to C10) and further
    properties of the code (X1 to X17). The constructor and [_forward] only
    hand their arguments to the encoder and the decoder, whose code is not
    among the sources; they are not embedded.

    Python values are a small inductive type, raised exceptions are an
    explicit [result], object attributes that the methods assign are fields
    of a state record that every method threads through. [_convert_X] is
    embedded twice: on values, where most of its properties are stated, and
    on a store of list objects ([Module Store]), where copying and in-place
    truncation are visible; [store_refines_values] relates the two. *)

From Stdlib Require Import ZArith PrimFloat.
From stdpp Require Import gmap strings list fin_maps sorting.

#[local] Set Warnings "-register-all,-clear-no-such-hyp".
Local Open Scope Z_scope.

(** ** Python values and exceptions *)

(** The values a caller can put in [X_tokenized]: nested lists whose leaves
    are numbers, strings or [None]. A Python [float] is an IEEE binary64,
    which is what [PrimFloat.float] is. *)
Inductive pyval : Type :=
| PyNone
| PyInt (z : Z)
| PyFloat (f : float)
| PyStr (s : string)
| PyList (l : list pyval).

(** The exceptions of the two files. [ValueError sample cause] is the one
    [_convert_X] builds at lines 88-92: its message is the format string
    [wrong_input_format] filled with the sample and the caught exception.
    [InitializationFailure] is the failure of section 7 of the specification,
    raised when a checkpoint cannot be restored. *)
Inductive exn : Type :=
| IndexError
| TypeError
| AssertionError (msg : string)
| ValueError (sample : pyval) (cause : exn)
| InitializationFailure.

Definition wrong_input_format : string :=
  "Wrong input format (%s): %s. An example: `X_tokenized = [[[0.0023, -0.0001, 0.0015, ...], ...], ...]`"%string.

Definition unit_length_msg : string :=
  "`max_unit_length` must be equal to the input length of each time spot."%string.

Inductive result (A : Type) : Type :=
| Ok (a : A)
| Raise (e : exn).
Arguments Ok {A} a.
Arguments Raise {A} e.

(** Sequencing: an exception raised by the first step ends the computation. *)
#[global] Instance result_ret : MRet result := λ A a, Ok a.
#[global] Instance result_bind : MBind result := λ A B k r,
  match r with
  | Ok a => k a
  | Raise e => Raise e
  end.

Definition is_ok {A} (r : result A) : bool :=
  match r with Ok _ => true | Raise _ => false end.

(** [x[0]] *)
Definition py_getitem0 (x : pyval) : result pyval :=
  match x with
  | PyList (v :: _) => Ok v
  | PyList [] => Raise IndexError
  | PyStr (String c _) => Ok (PyStr (String c EmptyString))
  | PyStr EmptyString => Raise IndexError
  | _ => Raise TypeError
  end.

(** [len(x)] *)
Definition py_len (x : pyval) : result Z :=
  match x with
  | PyList l => Ok (Z.of_nat (length l))
  | PyStr s => Ok (Z.of_nat (String.length s))
  | _ => Raise TypeError
  end.

Fixpoint string_chars (s : string) : list pyval :=
  match s with
  | EmptyString => []
  | String c s' => PyStr (String c EmptyString) :: string_chars s'
  end.

(** [for v in x] *)
Definition py_iter (x : pyval) : result (list pyval) :=
  match x with
  | PyList l => Ok l
  | PyStr s => Ok (string_chars s)
  | _ => Raise TypeError
  end.

Definition is_list (x : pyval) : bool :=
  match x with PyList _ => true | _ => false end.

Definition is_float (x : pyval) : bool :=
  match x with PyFloat _ => true | _ => false end.

(** ** Configuration *)

(** [truncate_method]: the two methods section 4.1 of the specification
    names, ["LIFO"] (the default of the constructor) and ["FIFO"]. *)
Inductive truncate_policy : Type := LIFO | FIFO.

Record config : Type := Config {
  max_seq_length : Z;
  max_unit_length : Z;
  truncate_method : truncate_policy
}.

(** Modelled from the spec: [com.truncate_segments] is defined in [uf/com],
    which is not among the sources. Section 4.1: units in excess of the limit
    are removed according to the method, ["LIFO"] keeps the most recent units
    (drops the earliest), ["FIFO"] keeps the earliest (drops the latest);
    a segment within the limit is left as it is. The call site discards the
    return value, so the removal is done in place on the segment. *)
Definition truncate_units {A} (m : truncate_policy) (limit : Z) (units : list A)
  : list A :=
  if Z.of_nat (length units) <=? limit then units
  else match m with
       | LIFO => drop (length units - Z.to_nat limit)%nat units
       | FIFO => take (Z.to_nat limit) units
       end.

Definition truncate_segments (segments : pyval) (limit : Z) (m : truncate_policy)
  : pyval :=
  match segments with
  | PyList units => PyList (truncate_units m limit units)
  | v => v
  end.

(** ** [_convert_x] and [_convert_X] on values *)

(** Lines 117-119. [copy.deepcopy] returns an equal value; that the copy is
    a new object is the subject of the store model further down. *)
Definition _convert_x (x : pyval) : result pyval :=
  x0 ← py_getitem0 x;
  if is_list x0 then
    x00 ← py_getitem0 x0;
    if is_float x00 then Ok x else Raise (AssertionError EmptyString)
  else Raise (AssertionError EmptyString).

(** Lines 83-92: the first loop. *)
Fixpoint convert_samples (X_target : list pyval) (segment_input_values : list pyval)
  : result (list pyval) :=
  match X_target with
  | [] => Ok segment_input_values
  | sample :: rest =>
      match _convert_x sample with
      | Ok c => convert_samples rest (segment_input_values ++ [c])
      | Raise e => Raise (ValueError sample e)
      end
  end.

(** Lines 101-104: the loop over the units of one sample. *)
Fixpoint collect_units (cfg : config) (segments : list pyval)
    (_input_values : list pyval) (_input_mask : list Z)
  : result (list pyval * list Z) :=
  match segments with
  | [] => Ok (_input_values, _input_mask)
  | segment :: rest =>
      n ← py_len segment;
      if n =? max_unit_length cfg
      then collect_units cfg rest (_input_values ++ [segment]) (_input_mask ++ [1])
      else Raise (AssertionError unit_length_msg)
  end.

(** [[0] * self.max_unit_length] *)
Definition zero_unit (cfg : config) : pyval :=
  PyList (replicate (Z.to_nat (max_unit_length cfg)) (PyInt 0)).

(** Lines 108-110: the padding loop, [n] iterations. *)
Fixpoint pad_loop (cfg : config) (n : nat)
    (_input_values : list pyval) (_input_mask : list Z)
  : list pyval * list Z :=
  match n with
  | O => (_input_values, _input_mask)
  | S n' => pad_loop cfg n' (_input_values ++ [zero_unit cfg]) (_input_mask ++ [0])
  end.

(** Lines 97-110: the body of the second loop, for one sample. *)
Definition encode_segments (cfg : config) (segments : pyval)
  : result (list pyval * list Z) :=
  let segments := truncate_segments segments (max_seq_length cfg - 1) (truncate_method cfg) in
  units ← py_iter segments;
  '(_input_values, _input_mask) ← collect_units cfg units [] [];
  let _input_mask := _input_mask ++ [1] in
  Ok (pad_loop cfg
        (Z.to_nat (max_seq_length cfg - 1 - Z.of_nat (length _input_values)))
        _input_values _input_mask).

(** Lines 94-113: the second loop. *)
Fixpoint encode_all (cfg : config) (segment_input_values : list pyval)
    (input_values : list (list pyval)) (input_mask : list (list Z))
  : result (list (list pyval) * list (list Z)) :=
  match segment_input_values with
  | [] => Ok (input_values, input_mask)
  | segments :: rest =>
      '(v, m) ← encode_segments cfg segments;
      encode_all cfg rest (input_values ++ [v]) (input_mask ++ [m])
  end.

(** Lines 80-115. *)
Definition _convert_X (cfg : config) (X_target : list pyval)
  : result (list (list pyval) * list (list Z)) :=
  segment_input_values ← convert_samples X_target [];
  encode_all cfg segment_input_values [] [].

(** ** What the specification expects of a well-formed sample *)

(** A unit of floats. *)
Definition unit_of (fs : list float) : pyval := PyList (PyFloat <$> fs).

Definition sample_units (sample : pyval) : list pyval :=
  match sample with PyList us => us | _ => [] end.

(** Section 3 of the specification: a unit is a vector of exactly
    [max_unit_length] real numbers, a sample holds at least one unit. *)
Definition is_float_unit (cfg : config) (u : pyval) : bool :=
  match u with
  | PyList fs => forallb is_float fs && (Z.of_nat (length fs) =? max_unit_length cfg)
  | _ => false
  end.

Definition well_formed (cfg : config) (sample : pyval) : bool :=
  match sample with
  | PyList (u :: us) =>
      forallb (is_float_unit cfg) (u :: us) && (0 <? max_unit_length cfg)
  | _ => false
  end.

(** The encoding the specification describes for a sample of [k] units,
    [k <= max_seq_length - 1]: the units, then zero rows; [k + 1] ones, then
    zeros. *)
Definition padding_rows (cfg : config) (sample : pyval) : nat :=
  Z.to_nat (max_seq_length cfg - 1 - Z.of_nat (length (sample_units sample))).

Definition expected_values (cfg : config) (sample : pyval) : list pyval :=
  sample_units sample ++ replicate (padding_rows cfg sample) (zero_unit cfg).

Definition expected_mask (cfg : config) (sample : pyval) : list Z :=
  replicate (S (length (sample_units sample))) 1
  ++ replicate (padding_rows cfg sample) 0.

(** The units [_convert_X] keeps of a sample. *)
Definition kept_units (cfg : config) (sample : pyval) : list pyval :=
  truncate_units (truncate_method cfg) (max_seq_length cfg - 1) (sample_units sample).

(** ** The scenario of the specification *)

Definition scenario_cfg : config := Config 4 2 LIFO.

(** The sample [[[1,1],[2,2],[3,3]]] with float entries. *)
Definition scenario_sample : pyval :=
  PyList [unit_of [1%float; 1%float]; unit_of [2%float; 2%float];
          unit_of [3%float; 3%float]].

(** The same sample read with integer entries, as the scenario writes it. *)
Definition scenario_sample_int : pyval :=
  PyList [PyList [PyInt 1; PyInt 1]; PyList [PyInt 2; PyInt 2];
          PyList [PyInt 3; PyInt 3]].

(** The encoding the scenario announces. *)
Definition scenario_claimed : list (list pyval) * list (list Z) :=
  ([[unit_of [2%float; 2%float]; unit_of [3%float; 3%float];
     PyList [PyInt 0; PyInt 0]]],
   [[1; 1; 1; 0]]).

(** ** Labels and the label vocabulary *)

(** The labels the classifier is fed: Python integers and strings. *)
Inductive label : Type :=
| LInt (z : Z)
| LStr (s : string).

#[global] Instance label_eq_dec : EqDecision label.
Proof. solve_decision. Defined.

#[global] Instance label_countable : Countable label :=
  inj_countable'
    (λ l, match l with LInt z => inl z | LStr s => inr s end)
    (λ x, match x with inl z => LInt z | inr s => LStr s end)
    (λ l, match l with LInt _ => eq_refl | LStr _ => eq_refl end).

(** [a < b] on [str]: lexicographic on the code points. *)
Fixpoint str_lt (a b : string) : bool :=
  match a, b with
  | _, EmptyString => false
  | EmptyString, String _ _ => true
  | String c a', String d b' =>
      if (Ascii.N_of_ascii c <? Ascii.N_of_ascii d)%N then true
      else if (Ascii.N_of_ascii c =? Ascii.N_of_ascii d)%N then str_lt a' b'
      else false
  end.

(** [a < b] on labels: an [int] and a [str] do not compare. *)
Definition py_lt (a b : label) : result bool :=
  match a, b with
  | LInt x, LInt y => Ok (x <? y)
  | LStr s, LStr t => Ok (str_lt s t)
  | _, _ => Raise TypeError
  end.

(** [sorted(l)]: the ascending arrangement of [l], or the [TypeError] of the
    first comparison that fails. *)
Fixpoint py_insert (x : label) (s : list label) : result (list label) :=
  match s with
  | [] => Ok [x]
  | y :: s' =>
      b ← py_lt x y;
      if b : bool then Ok (x :: y :: s')
      else r ← py_insert x s'; Ok (y :: r)
  end.

Fixpoint py_sorted (l : list label) : result (list label) :=
  match l with
  | [] => Ok []
  | x :: l' => s ← py_sorted l'; py_insert x s
  end.

(** A Python [set] has no order of its own: [list(set(y))] enumerates the
    distinct elements of [y] in an order fixed by the interpreter (the slots
    of its hash table, which for strings change with the hash seed of the
    process). The order is a parameter of the embedding. *)
Class PySet : Type := {
  set_iter : list label → list label;
  set_iter_perm : ∀ y, set_iter y ≡ₚ remove_dups y
}.

(** The attributes [_convert_y] reads and assigns. [_id_to_label] and
    [_label_to_id] start as [None]; the method only tests them with [not],
    which does not tell [None] from an empty container, and assigns a
    container whenever the test succeeds: [None] is the empty container
    here. *)
Record vocabulary : Type := Vocabulary {
  label_size : option Z;
  _id_to_label : list label;
  _label_to_id : gmap label Z
}.

Definition set_label_size (n : option Z) (v : vocabulary) : vocabulary :=
  Vocabulary n (_id_to_label v) (_label_to_id v).
Definition set_id_to_label (l : list label) (v : vocabulary) : vocabulary :=
  Vocabulary (label_size v) l (_label_to_id v).
Definition set_label_to_id (d : gmap label Z) (v : vocabulary) : vocabulary :=
  Vocabulary (label_size v) (_id_to_label v) d.

(** [if self.label_size]: neither [None] nor [0]. *)
Definition truthy (n : option Z) : bool :=
  match n with
  | Some z => negb (z =? 0)
  | None => false
  end.

Definition is_nil {A} (l : list A) : bool :=
  match l with [] => true | _ => false end.

Definition unique_y_msg : string :=
  "Number of unique `y`s exceeds `label_size`."%string.
Definition unique_labels_msg : string :=
  "Number of unique labels exceeds `label_size`."%string.

(** Line 142: [{label: index for index, label in enumerate(ls)}], with
    [index] starting at [i] and [d] the dictionary built so far. *)
Fixpoint dict_of_enumerate (i : Z) (ls : list label) (d : gmap label Z)
  : gmap label Z :=
  match ls with
  | [] => d
  | l :: ls' => dict_of_enumerate (i + 1) ls' (<[l := i]> d)
  end.

(** Lines 144-151: the loop over [y]. The state is returned in both
    outcomes: what was assigned before an assertion fails stays assigned. *)
Fixpoint encode_labels (v : vocabulary) (y : list label) (label_ids : list Z)
  : vocabulary * result (list Z) :=
  match y with
  | [] => (v, Ok label_ids)
  | l :: rest =>
      match _label_to_id v !! l with
      | Some i => encode_labels v rest (label_ids ++ [i])
      | None =>
          match label_size v with
          | None => (v, Raise TypeError)
          | Some cap =>
              if Z.of_nat (size (_label_to_id v)) <? cap then
                let i := Z.of_nat (size (_label_to_id v)) in
                let v' := Vocabulary (label_size v) (_id_to_label v ++ [l])
                                     (<[l := i]> (_label_to_id v)) in
                encode_labels v' rest (label_ids ++ [i])
              else (v, Raise (AssertionError unique_labels_msg))
          end
      end
  end.

(** Lines 131-138. *)
Definition init_id_to_label `{PySet} (v : vocabulary) (y : list label) : vocabulary :=
  if is_nil (_id_to_label v) then
    let ls := set_iter y in
    match py_sorted ls with
    | Ok s => set_id_to_label s v
    | Raise _ => set_id_to_label ls v
    end
  else v.

(** Lines 141-142. *)
Definition init_label_to_id (v : vocabulary) : vocabulary :=
  if decide (_label_to_id v = ∅)
  then set_label_to_id (dict_of_enumerate 0 (_id_to_label v) ∅) v
  else v.

(** Lines 124-128. *)
Definition check_label_size (v : vocabulary) (y : list label) : result vocabulary :=
  let n_labels := Z.of_nat (length (remove_dups y)) in
  if truthy (label_size v) then
    match label_size v with
    | Some cap =>
        if n_labels <=? cap then Ok v else Raise (AssertionError unique_y_msg)
    | None => Ok v
    end
  else Ok (set_label_size (Some n_labels) v).

(** Lines 121-151. *)
Definition _convert_y `{PySet} (v : vocabulary) (y : list label)
  : vocabulary * result (list Z) :=
  match check_label_size v y with
  | Raise e => (v, Raise e)
  | Ok v1 => encode_labels (init_label_to_id (init_id_to_label v1 y)) y []
  end.

(** A module whose vocabulary has not been built, with its [label_size]
    argument. *)
Definition new_vocabulary (label_size : option Z) : vocabulary :=
  Vocabulary label_size [] ∅.

(** The state after a sequence of [_convert_y] calls, whatever their
    outcomes. *)
Definition convert_y_calls `{PySet} (v : vocabulary) (ys : list (list label))
  : vocabulary :=
  foldl (λ v y, (_convert_y v y).1) v ys.

(** The distinct labels of [y] in the order of their first occurrence. *)
Definition first_seen (y : list label) : list label :=
  foldl (λ acc l, if decide (l ∈ acc) then acc else acc ++ [l]) [] y.

(** [ids] positions the labels of [y] in [ls]. *)
Definition ids_index (ls : list label) (y : list label) (ids : list Z) : Prop :=
  Forall2 (λ l i, 0 ≤ i ∧ ls !! Z.to_nat i = Some l) y ids.

(** Strict and large order on labels, where [<] is defined. *)
Definition label_lt (a b : label) : Prop := py_lt a b = Ok true.
Definition label_le (a b : label) : Prop := py_lt b a = Ok false.

(** [sorted] succeeds on labels of one type. *)
Definition is_int (l : label) : bool := match l with LInt _ => true | _ => false end.
Definition is_str (l : label) : bool := match l with LStr _ => true | _ => false end.
Definition orderable (y : list label) : bool := forallb is_int y || forallb is_str y.

(** Two interpreters: one enumerates a set in list order, one in the reverse
    order. *)
Definition sets_in_list_order : PySet :=
  {| set_iter := remove_dups; set_iter_perm := λ y, reflexivity (remove_dups y) |}.

Definition sets_in_reverse_order : PySet :=
  {| set_iter := λ y, reverse (remove_dups y);
     set_iter_perm := λ y, reverse_Permutation (remove_dups y) |}.

(** The vocabulary is well formed: the two directions agree, no label occurs
    twice, and a vocabulary that holds labels holds at most [label_size]. *)
Definition consistent (v : vocabulary) : Prop :=
  NoDup (_id_to_label v)
  ∧ size (_label_to_id v) = length (_id_to_label v)
  ∧ ∀ l i, _label_to_id v !! l = Some i
           ↔ ∃ n : nat, i = Z.of_nat n ∧ _id_to_label v !! n = Some l.

Definition within_capacity (v : vocabulary) : Prop :=
  _id_to_label v = []
  ∨ ∃ cap, label_size v = Some cap ∧ Z.of_nat (length (_id_to_label v)) ≤ cap.

Definition vocab_ok (v : vocabulary) : Prop := consistent v ∧ within_capacity v.

(** The list [init_id_to_label] assigns at lines 132-138. *)
Definition built_labels `{PySet} (y : list label) : list label :=
  match py_sorted (set_iter y) with
  | Ok s => s
  | Raise _ => set_iter y
  end.

(** The state the loop runs on: consistent, with a capacity that the
    vocabulary does not exceed. *)
Definition capped (v : vocabulary) : Prop :=
  consistent v
  ∧ ∃ cap, label_size v = Some cap ∧ Z.of_nat (length (_id_to_label v)) ≤ cap.

(** The labels of the scenario. *)
Definition scenario_labels : list label :=
  [LStr "b"; LStr "a"; LStr "c"]%string.

(** ** [convert] *)

Inductive dtype : Type := Float32 | Int32.

(** What [convert] takes from outside this file: the two methods it inherits
    from the base classifier, and [np.array]. Their code is not among the
    sources; [convert] is embedded over any implementation of them. None of
    them assigns [batch_size]. *)
Class ClassifierBase : Type := {
  ndarray : Type;
  _assert_legal :
    option pyval → option (list label) → option pyval → option (list pyval) → result ();
  _convert_sample_weight : option pyval → option Z → result pyval;
  np_array : dtype → pyval → result ndarray
}.

(** The attributes [convert] reads and assigns. *)
Record classifier : Type := Classifier {
  cfg : config;
  vocab : vocabulary;
  batch_size : Z;
  _gpu_ids : list Z
}.

Definition set_batch_size (n : Z) (m : classifier) : classifier :=
  Classifier (cfg m) (vocab m) n (_gpu_ids m).
Definition set_vocab (v : vocabulary) (m : classifier) : classifier :=
  Classifier (cfg m) v (batch_size m) (_gpu_ids m).

Definition x_none_msg : string :=
  "`%s` is a model with continuous input. `X` should be None. Use `X_tokenized` instead."%string.
Definition y_none_msg : string := "`y` can't be None."%string.
Definition parallel_msg : string :=
  "Can't parse data on multi-processing when `label_size` is None."%string.

Definition py_ints (l : list Z) : pyval := PyList (PyInt <$> l).

(** Lines 46-52. *)
Definition check_arguments `{ClassifierBase} (m : classifier)
    (X : option pyval) (y : option (list label)) (sample_weight : option pyval)
    (X_tokenized : option (list pyval)) (is_training is_parallel : bool)
  : result () :=
  _ ← _assert_legal X y sample_weight X_tokenized;
  if bool_decide (X ≠ None) then Raise (AssertionError x_none_msg)
  else if is_training && bool_decide (y = None) then Raise (AssertionError y_none_msg)
  else if is_parallel && negb (truthy (label_size (vocab m)))
       then Raise (AssertionError parallel_msg)
  else Ok ().

(** Lines 59-63, with [X] being [None]: [tokenized] is [X_tokenized] itself,
    so an empty batch hands [X], that is [None], to [_convert_X], whose
    [enumerate] raises. Returns the two arrays and [n_inputs]. *)
Definition encode_inputs `{ClassifierBase} (c : config) (X_tokenized : list pyval)
  : result (ndarray * ndarray * Z) :=
  '(input_values, input_mask) ←
    (if is_nil X_tokenized then Raise TypeError else _convert_X c X_tokenized);
  a ← np_array Float32 (PyList (PyList <$> input_values));
  b ← np_array Int32 (PyList (py_ints <$> input_mask));
  Ok (a, b, Z.of_nat (length input_values)).

(** Lines 65-66. *)
Definition adjust_batch_size (n_inputs : Z) (m : classifier) : classifier :=
  if n_inputs <? batch_size m
  then set_batch_size (Z.max n_inputs (Z.of_nat (length (_gpu_ids m)))) m
  else m.

(** Lines 45-78. The returned dictionary is keyed by the names of the
    placeholders. *)
Definition convert `{PySet} `{ClassifierBase} (m : classifier)
    (X : option pyval) (y : option (list label)) (sample_weight : option pyval)
    (X_tokenized : option (list pyval)) (is_training is_parallel : bool)
  : classifier * result (gmap string ndarray) :=
  match check_arguments m X y sample_weight X_tokenized is_training is_parallel with
  | Raise e => (m, Raise e)
  | Ok _ =>
    (* convert X *)
    let inputs : result (classifier * gmap string ndarray * option Z) :=
      match X_tokenized with
      | None => Ok (m, ∅, None)
      | Some xs =>
          '(a, b, n_inputs) ← encode_inputs (cfg m) xs;
          Ok (adjust_batch_size n_inputs m,
              <["input_mask"%string := b]> (<["input_values"%string := a]> ∅),
              Some n_inputs)
      end in
    match inputs with
    | Raise e => (m, Raise e)
    | Ok (m1, data, n_inputs) =>
      (* convert y *)
      let labels : classifier * result (gmap string ndarray) :=
        match y with
        | None => (m1, Ok data)
        | Some ys =>
            let '(v, r) := _convert_y (vocab m1) ys in
            (set_vocab v m1,
             label_ids ← r;
             c ← np_array Int32 (py_ints label_ids);
             Ok (<["label_ids"%string := c]> data))
        end in
      match labels with
      | (m2, Raise e) => (m2, Raise e)
      | (m2, Ok data) =>
        (* convert sample_weight *)
        if is_training || bool_decide (y ≠ None) then
          (m2,
           w ← _convert_sample_weight sample_weight n_inputs;
           d ← np_array Float32 w;
           Ok (<["sample_weight"%string := d]> data))
        else (m2, Ok data)
      end
    end
  end.

(** Modelled from the spec: [_convert_sample_weight] (section 4.4: absent
    weights become [n] copies of [1.0], present weights must be [n] of them)
    and an [_assert_legal] and an [np.array] that accept their arguments.
    Used to run [convert] on examples. *)
Definition example_base : ClassifierBase :=
  {| ndarray := pyval;
     _assert_legal := λ _ _ _ _, Ok ();
     _convert_sample_weight := λ w n,
       match w, n with
       | None, Some n => Ok (PyList (replicate (Z.to_nat n) (PyFloat 1%float)))
       | Some (PyList ws), Some n =>
           if Z.of_nat (length ws) =? n then Ok (PyList ws)
           else Raise (AssertionError EmptyString)
       | _, _ => Raise TypeError
       end;
     np_array := λ _ v, Ok v |}.

(** ** [Initialization.run] *)

(** A global variable of the graph, by its name. *)
Definition var : Type := string.

(** [_session_mode]: ["infer"] or ["train"]. *)
Inductive session_mode : Type := Infer | Train.

(** The attributes of the module that [run] reads and assigns, and
    [init_log], the lists of variables handed to the initialiser, oldest
    first: it records the work done on the session. *)
Record session : Type := Session {
  _session_built : bool;
  _session_mode : option session_mode;
  global_variables : list var;
  _inited_vars : gset var;
  init_log : list (list var)
}.

(** What the task takes from outside: the variables the graph holds once the
    forward pass has been declared on a graph that held [vs], and whether the
    checkpoint can be restored into given variables. *)
Class Graph : Type := {
  forward_variables : list var → list var;
  restore_ok : list var → bool
}.

(** Modelled from the spec: [Task._init_variables] is defined in
    [uf/task/_base_.py], which is not among the sources. Sections 3, 4.6
    and 7: the variables are initialised and recorded as initialised; unless
    [ignore_checkpoint], the checkpoint is restored into them, and a
    checkpoint that cannot be restored is an [InitializationFailure]. *)
Definition _init_variables `{Graph} (variables : list var) (ignore_checkpoint : bool)
    (s : session) : result session :=
  if ignore_checkpoint || restore_ok variables then
    Ok (Session (_session_built s) (_session_mode s) (global_variables s)
          (_inited_vars s ∪ list_to_set variables)
          (init_log s ++ [variables]))
  else Raise InitializationFailure.

(** Modelled from the spec: [Task._init_session], from the same file.
    Section 4.6, step 2: a full initialisation of all the parameters, after
    which the session is built. *)
Definition _init_session `{Graph} (ignore_checkpoint : bool) (s : session)
  : result session :=
  s' ← _init_variables (global_variables s) ignore_checkpoint s;
  Ok (Session true (_session_mode s') (global_variables s')
        (_inited_vars s') (init_log s')).

(** Lines 20-23. *)
Definition uninitialized (s : session) : list var :=
  filter (λ v, v ∉ _inited_vars s) (global_variables s).

(** Lines 11-12 declare the placeholders and the forward pass; what they
    leave on the module for the rest of [run] is the list of global
    variables. *)
Definition declared `{Graph} (s : session) : session :=
  Session (_session_built s) (_session_mode s)
    (forward_variables (global_variables s)) (_inited_vars s) (init_log s).

(** Line 31. *)
Definition with_mode (mode : session_mode) (s : session) : session :=
  Session (_session_built s) (Some mode) (global_variables s)
    (_inited_vars s) (init_log s).

(** Lines 8-31. A failed initialisation leaves the state as the graph
    construction left it. *)
Definition run `{Graph} (reinit_all ignore_checkpoint : bool) (s : session)
  : session * result () :=
  let s := declared s in
  let r :=
    if reinit_all || negb (_session_built s) then
      _init_session ignore_checkpoint s
    else
      let variables := uninitialized s in
      if is_nil variables then Ok s
      else _init_variables variables ignore_checkpoint s in
  match r with
  | Ok s' => (with_mode Infer s', Ok ())
  | Raise e => (s, Raise e)
  end.


(** The number of nodes of a value. *)
Fixpoint psize (t : pyval) : nat :=
  match t with
  | PyList ts => S (foldr (λ t n, psize t + n)%nat 0%nat ts)
  | _ => 1%nat
  end.

(** ** [_convert_X] on a store *)

(** Python lists are objects: [truncate_segments] removes units from the
    list it is given, and whoever holds a reference to that list sees them
    gone. To tell the caller's lists from the copies [_convert_x] makes, the
    lists live in a store and values refer to them by location. *)
Module Store.

Definition loc : Type := nat.

Inductive value : Type :=
| VNone
| VInt (z : Z)
| VFloat (f : float)
| VStr (s : string)
| VRef (l : loc).

(** The store: the elements of every list object. *)
Abbreviation heap := (gmap loc (list value)).

(** What a call raises: the [ValueError] of lines 88-92 refers to the
    sample, any other exception is as on values. *)
Inductive raised : Type :=
| Raised (e : exn)
| RaisedValueError (sample : value) (cause : exn).

Definition elements (h : heap) (l : loc) : list value := default [] (h !! l).

Definition getitem0 (h : heap) (x : value) : result value :=
  match x with
  | VRef l =>
      match elements h l with
      | v :: _ => Ok v
      | [] => Raise IndexError
      end
  | VStr (String c _) => Ok (VStr (String c EmptyString))
  | VStr EmptyString => Raise IndexError
  | _ => Raise TypeError
  end.

Definition len (h : heap) (x : value) : result Z :=
  match x with
  | VRef l => Ok (Z.of_nat (length (elements h l)))
  | VStr s => Ok (Z.of_nat (String.length s))
  | _ => Raise TypeError
  end.

Fixpoint string_chars (s : string) : list value :=
  match s with
  | EmptyString => []
  | String c s' => VStr (String c EmptyString) :: string_chars s'
  end.

Definition iter (h : heap) (x : value) : result (list value) :=
  match x with
  | VRef l => Ok (elements h l)
  | VStr s => Ok (string_chars s)
  | _ => Raise TypeError
  end.

Definition is_ref (x : value) : bool :=
  match x with VRef _ => true | _ => false end.

Definition is_float (x : value) : bool :=
  match x with VFloat _ => true | _ => false end.

(** [y.append(v)] on the list at [l]. *)
Definition append (l : loc) (v : value) (h : heap) : heap :=
  alter (λ vs, vs ++ [v]) l h.

(** The loop of [copy.deepcopy] on a list: [y.append(deepcopy(a, memo))]
    for every element [a], where [y] is the new list at [l']. *)
Fixpoint copy_items
    (rec : gmap loc loc → heap → value → option (value * gmap loc loc * heap))
    (l' : loc) (xs : list value) (memo : gmap loc loc) (h : heap)
  : option (gmap loc loc * heap) :=
  match xs with
  | [] => Some (memo, h)
  | x :: xs' =>
      '(y, memo, h) ← rec memo h x;
      copy_items rec l' xs' memo (append l' y h)
  end.

(** [copy.deepcopy(v, memo)]: numbers, strings and [None] are returned as
    they are; a list already copied is looked up in [memo]; otherwise a new
    list is created, recorded in [memo], and filled with the copies of the
    elements. [fuel] bounds the nesting of lists not yet in [memo]; [None]
    is the embedding running out of it. *)
Fixpoint deepcopy (fuel : nat) (memo : gmap loc loc) (h : heap) (v : value)
  : option (value * gmap loc loc * heap) :=
  match v with
  | VRef l =>
      match memo !! l with
      | Some l' => Some (VRef l', memo, h)
      | None =>
          match fuel with
          | O => None
          | S n =>
              let l' := fresh (dom h) in
              '(memo, h) ← copy_items (deepcopy n) l' (elements h l)
                              (<[l := l']> memo) (<[l' := []]> h);
              Some (VRef l', memo, h)
          end
      end
  | _ => Some (v, memo, h)
  end.

(** Lines 117-119. The store has at most [size h] lists, which bounds the
    nesting. *)
Definition _convert_x (h : heap) (x : value) : option (heap * result value) :=
  match getitem0 h x with
  | Raise e => Some (h, Raise e)
  | Ok x0 =>
      if is_ref x0 then
        match getitem0 h x0 with
        | Raise e => Some (h, Raise e)
        | Ok x00 =>
            if is_float x00 then
              '(c, _, h') ← deepcopy (S (size h)) ∅ h x;
              Some (h', Ok c)
            else Some (h, Raise (AssertionError EmptyString))
        end
      else Some (h, Raise (AssertionError EmptyString))
  end.

(** Lines 83-92. *)
Fixpoint convert_samples (h : heap) (X_target : list value)
    (segment_input_values : list value)
  : option (heap * (raised + list value)) :=
  match X_target with
  | [] => Some (h, inr segment_input_values)
  | sample :: rest =>
      '(h', r) ← _convert_x h sample;
      match r with
      | Ok c => convert_samples h' rest (segment_input_values ++ [c])
      | Raise e => Some (h', inl (RaisedValueError sample e))
      end
  end.

(** Modelled from the spec, as [truncate_units] above: the removal is done
    on the list object itself. *)
Definition truncate_segments (segments : value) (limit : Z) (m : truncate_policy)
    (h : heap) : heap :=
  match segments with
  | VRef l => alter (truncate_units m limit) l h
  | _ => h
  end.

(** Lines 101-104. *)
Fixpoint collect_units (cfg : config) (h : heap) (segments : list value)
    (_input_values : list value) (_input_mask : list Z)
  : result (list value * list Z) :=
  match segments with
  | [] => Ok (_input_values, _input_mask)
  | segment :: rest =>
      n ← len h segment;
      if n =? max_unit_length cfg
      then collect_units cfg h rest (_input_values ++ [segment]) (_input_mask ++ [1])
      else Raise (AssertionError unit_length_msg)
  end.

(** [[0] * self.max_unit_length]: a new list. *)
Definition zero_unit (cfg : config) (h : heap) : heap * value :=
  let l := fresh (dom h) in
  (<[l := replicate (Z.to_nat (max_unit_length cfg)) (VInt 0)]> h, VRef l).

(** Lines 108-110. *)
Fixpoint pad_loop (cfg : config) (n : nat) (h : heap)
    (_input_values : list value) (_input_mask : list Z)
  : heap * (list value * list Z) :=
  match n with
  | O => (h, (_input_values, _input_mask))
  | S n' =>
      let '(h', z) := zero_unit cfg h in
      pad_loop cfg n' h' (_input_values ++ [z]) (_input_mask ++ [0])
  end.

(** Lines 97-110. *)
Definition encode_segments (cfg : config) (h : heap) (segments : value)
  : heap * result (list value * list Z) :=
  let h := truncate_segments segments (max_seq_length cfg - 1) (truncate_method cfg) h in
  match
    units ← iter h segments;
    collect_units cfg h units [] []
  with
  | Raise e => (h, Raise e)
  | Ok (_input_values, _input_mask) =>
      let _input_mask := _input_mask ++ [1] in
      let '(h', r) :=
        pad_loop cfg
          (Z.to_nat (max_seq_length cfg - 1 - Z.of_nat (length _input_values)))
          h _input_values _input_mask in
      (h', Ok r)
  end.

(** Lines 94-113. *)
Fixpoint encode_all (cfg : config) (h : heap) (segment_input_values : list value)
    (input_values : list (list value)) (input_mask : list (list Z))
  : heap * result (list (list value) * list (list Z)) :=
  match segment_input_values with
  | [] => (h, Ok (input_values, input_mask))
  | segments :: rest =>
      match encode_segments cfg h segments with
      | (h', Ok (v, m)) => encode_all cfg h' rest (input_values ++ [v]) (input_mask ++ [m])
      | (h', Raise e) => (h', Raise e)
      end
  end.

(** Lines 80-115. The lists [segment_input_values], [input_values],
    [input_mask], [_input_values] and [_input_mask] are created by the call
    and referred to by nothing else while it runs; they are kept as Rocq
    lists. *)
Definition _convert_X (cfg : config) (h : heap) (X_target : value)
  : option (heap * (raised + (list (list value) * list (list Z)))) :=
  match iter h X_target with
  | Raise e => Some (h, inl (Raised e))
  | Ok samples =>
      '(h1, r) ← convert_samples h samples [];
      match r with
      | inl e => Some (h1, inl e)
      | inr segment_input_values =>
          match encode_all cfg h1 segment_input_values [] [] with
          | (h2, Ok r) => Some (h2, inr r)
          | (h2, Raise e) => Some (h2, inl (Raised e))
          end
      end
  end.

(** What [_convert_X] would be if [_convert_x] returned its argument
    instead of a copy: the first loop keeps the caller's samples. *)
Definition _convert_X_without_copy (cfg : config) (h : heap) (X_target : value)
  : heap * (raised + (list (list value) * list (list Z))) :=
  match iter h X_target with
  | Raise e => (h, inl (Raised e))
  | Ok samples =>
      match encode_all cfg h samples [] [] with
      | (h2, Ok r) => (h2, inr r)
      | (h2, Raise e) => (h2, inl (Raised e))
      end
  end.

(** The value a store value stands for, read to depth [fuel]; there is none
    when the nesting is deeper, as on a list that contains itself, or when a
    reference leads nowhere. *)
Fixpoint reify (fuel : nat) (h : heap) (v : value) : option pyval :=
  match v with
  | VNone => Some PyNone
  | VInt z => Some (PyInt z)
  | VFloat f => Some (PyFloat f)
  | VStr s => Some (PyStr s)
  | VRef l =>
      match fuel with
      | O => None
      | S n => vs ← h !! l; (PyList <$> mapM (reify n h) vs)
      end
  end.

Definition reifiable (h : heap) (v : value) : Prop :=
  ∃ k t, reify k h v = Some t.

(** [c] in [h'] stands for what [v] stands for in [h]. *)
Definition copy_ok (h h' : heap) (v c : value) : Prop :=
  ∀ k t, reify k h v = Some t → reify k h' c = Some t.

(** The lists at the locations [F] refer to lists at [F] only. *)
Definition inF (F : gset loc) (v : value) : Prop :=
  match v with VRef l => l ∈ F | _ => True end.

Definition closedF (F : gset loc) (h : heap) : Prop :=
  ∀ l vs, l ∈ F → h !! l = Some vs → Forall (inF F) vs.

(** [v] stands for a value strictly smaller than the list at [p] does: [v]
    lies inside that list. *)
Definition above (h : heap) (p : loc) (v : value) : Prop :=
  ∀ k t k' t', reify k h (VRef p) = Some t → reify k' h v = Some t' →
               (psize t' < psize t)%nat.


(** Every reference found in the store, or in [v], is to a list of the
    store. *)
Definition value_in (h : heap) (v : value) : Prop :=
  match v with VRef l => l ∈ dom h | _ => True end.

Definition closed (h : heap) : Prop :=
  ∀ l vs, h !! l = Some vs → Forall (value_in h) vs.

#[global] Instance value_in_dec (h : heap) (v : value) : Decision (value_in h v).
Proof. destruct v; simpl; apply _. Defined.

#[global] Instance closed_dec (h : heap) : Decision (closed h) :=
  map_Forall_dec (λ _ vs, Forall (value_in h) vs) h.

(** [h'] holds every list of [h], unchanged. *)
Definition preserves (h h' : heap) : Prop :=
  ∀ l, l ∈ dom h → h' !! l = h !! l.

(** The state of a [deepcopy] on [h0], at store [h]: the lists of [h0] are
    untouched; [P] are the lists being copied, whose copies are still being
    filled; every other list of [memo] has a finished copy, at [F], that
    stands for the same value. *)
Record copying (h0 h : heap) (memo : gmap loc loc) (P F : gset loc) : Prop := {
  copying_preserves : preserves h0 h;
  copying_dom : F ⊆ dom h;
  copying_closed : closedF F h;
  copying_pending : ∀ p, p ∈ P →
    ∃ p', memo !! p = Some p' ∧ (p' ∉ F) ∧ p' ∈ dom h ∧ (p' ∉ dom h0);
  copying_done : ∀ l l', memo !! l = Some l' → l ∉ P →
    l' ∈ F ∧ copy_ok h0 h (VRef l) (VRef l')
}.

(** What a call of [deepcopy] on [h0] with [n] of fuel does, in a state
    [copying]. *)
Definition deepcopy_spec (h0 : heap) (n : nat) : Prop :=
  ∀ memo (h : heap) v P F c memo' h',
    deepcopy n memo h v = Some (c, memo', h') →
    copying h0 h memo P F → (∀ p, p ∈ P → above h0 p v) → reifiable h0 v →
    ∃ F', F ⊆ F' ∧ (∀ l, l ∈ F' → l ∈ F ∨ l ∉ dom h)
          ∧ copying h0 h' memo' P F' ∧ memo ⊆ memo'
          ∧ inF F' c ∧ copy_ok h0 h' v c.

(** The copies the first loop made: each stands for its sample and is made
    of lists [F] of its own. *)
Fixpoint copies (h : heap) (cs : list value) (ts : list pyval)
    (Fs : list (gset loc)) : Prop :=
  match cs, ts, Fs with
  | [], [], [] => True
  | c :: cs', t :: ts', F :: Fs' =>
      (F ⊆ dom h ∧ closedF F h ∧ inF F c ∧ ∃ k, reify k h c = Some t)
      ∧ Forall (λ G, F ## G) Fs'
      ∧ copies h cs' ts' Fs'
  | _, _, _ => False
  end.

(** A value that is not a list of [h0]. *)
Definition outside (h0 : heap) (v : value) : Prop :=
  match v with VRef l => l ∉ dom h0 | _ => True end.

(** A store for examples: the batch [[[[1.,1.],[2.,2.],[3.,3.]]]] at
    location [0], its sample at [1], the units at [2], [3], [4]. *)
Definition example_heap : heap :=
  <[0%nat := [VRef 1%nat]]>
  (<[1%nat := [VRef 2%nat; VRef 3%nat; VRef 4%nat]]>
  (<[2%nat := [VFloat 1%float; VFloat 1%float]]>
  (<[3%nat := [VFloat 2%float; VFloat 2%float]]>
  (<[4%nat := [VFloat 3%float; VFloat 3%float]]> ∅)))).

End Store.

(** ** The rest of the classifier: placeholders, and closed forms *)

(** Lines 153-159: the placeholders, by name, with their type and shape;
    [None] is the batch dimension. *)
Definition _set_placeholders (c : config) : gmap string (dtype * list (option Z)) :=
  <["input_values"%string :=
      (Float32, [None; Some (max_seq_length c - 1); Some (max_unit_length c)])]>
  (<["input_mask"%string := (Int32, [None; Some (max_seq_length c)])]>
  (<["label_ids"%string := (Int32, [None])]>
  (<["sample_weight"%string := (Float32, [None])]> ∅))).

(** A nested list has the dimensions of a shape: at every depth the lengths
    are the ones the shape fixes. *)
Fixpoint has_dims (shape : list (option Z)) (v : pyval) : bool :=
  match shape with
  | [] => true
  | d :: rest =>
      match py_len v with
      | Ok n => match d with None => true | Some k => n =? k end
      | Raise _ => false
      end
      && match rest with
         | [] => true
         | _ :: _ =>
             match v with
             | PyList l => forallb (has_dims rest) l
             | _ => false
             end
         end
  end.

(** [len(u) == max_unit_length], false when [len] raises. *)
Definition has_unit_length (c : config) (u : pyval) : bool :=
  match py_len u with
  | Ok n => n =? max_unit_length c
  | Raise _ => false
  end.

(** The samples [_convert_X] encodes: those [_convert_x] lets through and
    whose units, once truncated, all have the unit length. *)
Definition accepted (c : config) (sample : pyval) : bool :=
  is_ok (_convert_x sample) && forallb (has_unit_length c) (kept_units c sample).

(** The rows and the mask of an accepted sample. *)
Definition kept_padding (c : config) (sample : pyval) : nat :=
  Z.to_nat (max_seq_length c - 1 - Z.of_nat (length (kept_units c sample))).

Definition kept_values (c : config) (sample : pyval) : list pyval :=
  kept_units c sample ++ replicate (kept_padding c sample) (zero_unit c).

Definition kept_mask (c : config) (sample : pyval) : list Z :=
  replicate (S (length (kept_units c sample))) 1
  ++ replicate (kept_padding c sample) 0.

(** The keys of the dictionary [convert] returns. *)
Definition returned_keys (y : option (list label)) (X_tokenized : option (list pyval))
    (is_training : bool) : gset string :=
  (if X_tokenized is Some _ then {["input_values"%string; "input_mask"%string]} else ∅)
  ∪ (if y is Some _ then {["label_ids"%string]} else ∅)
  ∪ (if is_training || bool_decide (y ≠ None) then {["sample_weight"%string]} else ∅).

(** A store in which the batch holds the same sample object twice: the list
    at [0] is [[s, s]] with [s] the list at [1]. *)
Definition aliased_heap : Store.heap :=
  <[0%nat := [Store.VRef 1%nat; Store.VRef 1%nat]]>
  (<[1%nat := [Store.VRef 2%nat; Store.VRef 3%nat; Store.VRef 2%nat]]>
  (<[2%nat := [Store.VFloat 1%float; Store.VFloat 1%float]]>
  (<[3%nat := [Store.VFloat 2%float; Store.VFloat 2%float]]> ∅))).

(** * Properties *)

(** ** The loops of [_convert_X], in closed form *)

Lemma pad_loop_replicate cfg n vs ms :
  pad_loop cfg n vs ms = (vs ++ replicate n (zero_unit cfg), ms ++ replicate n 0).
Proof.
  revert vs ms. induction n as [|n IH]; intros vs ms; simpl.
  - by rewrite !app_nil_r.
  - rewrite IH. by rewrite <- !app_assoc.
Qed.

Lemma collect_units_ok cfg segs vs ms :
  Forall (λ u, py_len u = Ok (max_unit_length cfg)) segs →
  collect_units cfg segs vs ms = Ok (vs ++ segs, ms ++ replicate (length segs) 1).
Proof.
  intros H. revert vs ms. induction H as [|u segs Hu _ IH]; intros vs ms; simpl.
  - by rewrite !app_nil_r.
  - rewrite Hu. simpl. rewrite Z.eqb_refl, IH. by rewrite <- !app_assoc.
Qed.

Lemma collect_units_inv cfg segs vs ms vs' ms' :
  collect_units cfg segs vs ms = Ok (vs', ms') →
  Forall (λ u, py_len u = Ok (max_unit_length cfg)) segs
  ∧ vs' = vs ++ segs ∧ ms' = ms ++ replicate (length segs) 1.
Proof.
  revert vs ms. induction segs as [|u segs IH]; intros vs ms; simpl.
  - intros [= <- <-]. by rewrite !app_nil_r.
  - destruct (py_len u) as [n|e] eqn:Hn; simpl; [|done].
    destruct (n =? max_unit_length cfg) eqn:Hnm; [|done].
    apply Z.eqb_eq in Hnm as ->. intros (HF & -> & ->)%IH.
    split; [by constructor|]. by rewrite <- !app_assoc.
Qed.

(** A unit of the wrong length stops the loop with the assertion of line 102,
    or with the [TypeError] of [len] on a value that has no length. *)
Lemma collect_units_raise cfg segs vs ms :
  Exists (λ u, py_len u ≠ Ok (max_unit_length cfg)) segs →
  collect_units cfg segs vs ms = Raise (AssertionError unit_length_msg)
  ∨ collect_units cfg segs vs ms = Raise TypeError.
Proof.
  revert vs ms. induction segs as [|u segs IH]; intros vs ms HE.
  - by apply Exists_nil in HE.
  - simpl. destruct (py_len u) as [n|e] eqn:Hn; simpl.
    + destruct (n =? max_unit_length cfg) eqn:Hnm.
      * apply Z.eqb_eq in Hnm as ->.
        apply Exists_cons in HE as [HE|HE]; [done|]. by apply IH.
      * by left.
    + right. destruct u; simpl in Hn; congruence.
Qed.

Lemma _convert_x_id x c : _convert_x x = Ok c → c = x.
Proof.
  unfold _convert_x. destruct (py_getitem0 x) as [x0|]; simpl; [|done].
  destruct (is_list x0); [|done].
  destruct (py_getitem0 x0) as [x00|]; simpl; [|done].
  destruct (is_float x00); [|done]. by intros [= <-].
Qed.

(** A value that passes [_convert_x] is a list with at least one element. *)
Lemma _convert_x_is_list x c : _convert_x x = Ok c → ∃ u us, x = PyList (u :: us).
Proof.
  unfold _convert_x. destruct x as [| | |s|[|u us]]; simpl; try done.
  - destruct s; simpl; done.
  - eauto.
Qed.

Lemma convert_samples_ok X acc :
  Forall (λ x, _convert_x x = Ok x) X → convert_samples X acc = Ok (acc ++ X).
Proof.
  intros H. revert acc. induction H as [|x X Hx _ IH]; intros acc; simpl.
  - by rewrite app_nil_r.
  - rewrite Hx, IH. by rewrite <- app_assoc.
Qed.

Lemma convert_samples_inv X acc r :
  convert_samples X acc = Ok r →
  r = acc ++ X ∧ Forall (λ x, _convert_x x = Ok x) X.
Proof.
  revert acc. induction X as [|x X IH]; intros acc; simpl.
  - intros [= <-]. by rewrite app_nil_r.
  - destruct (_convert_x x) as [c|e] eqn:Hx; [|done].
    pose proof (_convert_x_id _ _ Hx) as ->.
    intros [-> HF]%IH. split; [by rewrite <- app_assoc | by constructor].
Qed.

(** The first loop only ever raises the [ValueError] of lines 88-92, built
    from a sample of the batch and the exception [_convert_x] raised on it. *)
Lemma convert_samples_raise X acc e :
  convert_samples X acc = Raise e →
  ∃ sample cause, sample ∈ X ∧ _convert_x sample = Raise cause
                  ∧ e = ValueError sample cause.
Proof.
  revert acc. induction X as [|x X IH]; intros acc; simpl; [done|].
  destruct (_convert_x x) as [c|cause] eqn:Hx.
  - intros (s & c' & Hs & Hc & ->)%IH. exists s, c'. split; [by right | done].
  - intros [= <-]. exists x, cause. split; [by left | done].
Qed.

Lemma encode_segments_list cfg us :
  Forall (λ u, py_len u = Ok (max_unit_length cfg)) (kept_units cfg (PyList us)) →
  encode_segments cfg (PyList us) =
  Ok (kept_units cfg (PyList us)
        ++ replicate (Z.to_nat (max_seq_length cfg - 1
                                - Z.of_nat (length (kept_units cfg (PyList us)))))
             (zero_unit cfg),
      replicate (length (kept_units cfg (PyList us))) 1 ++ [1]
        ++ replicate (Z.to_nat (max_seq_length cfg - 1
                                - Z.of_nat (length (kept_units cfg (PyList us))))) 0).
Proof.
  intros H. unfold encode_segments, kept_units in *. simpl in *.
  rewrite (collect_units_ok _ _ _ _ H). simpl.
  rewrite pad_loop_replicate. by rewrite <- app_assoc.
Qed.

Lemma encode_segments_inv cfg us vs ms :
  encode_segments cfg (PyList us) = Ok (vs, ms) →
  Forall (λ u, py_len u = Ok (max_unit_length cfg)) (kept_units cfg (PyList us)).
Proof.
  unfold encode_segments, kept_units. simpl.
  destruct (collect_units _ _ _ _) as [[v m]|e] eqn:Hc; simpl; [|done].
  intros _. by apply collect_units_inv in Hc as (? & _).
Qed.

Lemma encode_segments_raise cfg us :
  Exists (λ u, py_len u ≠ Ok (max_unit_length cfg)) (kept_units cfg (PyList us)) →
  encode_segments cfg (PyList us) = Raise (AssertionError unit_length_msg)
  ∨ encode_segments cfg (PyList us) = Raise TypeError.
Proof.
  intros H. unfold encode_segments, kept_units in *. simpl in *.
  destruct (collect_units_raise cfg _ [] [] H) as [-> | ->]; auto.
Qed.

Lemma encode_all_ok cfg segs rs vs ms :
  Forall2 (λ s r, encode_segments cfg s = Ok r) segs rs →
  encode_all cfg segs vs ms = Ok (vs ++ rs.*1, ms ++ rs.*2).
Proof.
  intros H. revert vs ms.
  induction H as [|s [v m] segs rs Hs _ IH]; intros vs ms; simpl.
  - by rewrite !app_nil_r.
  - rewrite Hs. simpl. rewrite IH. by rewrite <- !app_assoc.
Qed.

Lemma encode_all_inv cfg segs vs ms V M :
  encode_all cfg segs vs ms = Ok (V, M) →
  ∃ rs, Forall2 (λ s r, encode_segments cfg s = Ok r) segs rs
        ∧ V = vs ++ rs.*1 ∧ M = ms ++ rs.*2.
Proof.
  revert vs ms. induction segs as [|s segs IH]; intros vs ms; simpl.
  - intros [= <- <-]. exists []. by rewrite !app_nil_r.
  - destruct (encode_segments cfg s) as [[v m]|e] eqn:Hs; simpl; [|done].
    intros (rs & HF & -> & ->)%IH. exists ((v, m) :: rs).
    split; [by constructor|]. by rewrite <- !app_assoc.
Qed.

(** The second loop stops at the first sample whose body raises. *)
Lemma encode_all_raise cfg segs vs ms :
  Exists (λ s, ∃ e, encode_segments cfg s = Raise e) segs →
  ∃ s e, s ∈ segs ∧ encode_segments cfg s = Raise e
         ∧ encode_all cfg segs vs ms = Raise e.
Proof.
  revert vs ms. induction segs as [|s segs IH]; intros vs ms HE.
  - by apply Exists_nil in HE.
  - simpl. destruct (encode_segments cfg s) as [[v m]|e] eqn:Hs; simpl.
    + apply Exists_cons in HE as [[e He]|HE]; [congruence|].
      destruct (IH (vs ++ [v]) (ms ++ [m]) HE) as (s' & e & Hin & He & Hr).
      exists s', e. split; [by right | done].
    + exists s, e. split; [by left | done].
Qed.

Lemma is_float_unit_len cfg u :
  is_float_unit cfg u = true → py_len u = Ok (max_unit_length cfg).
Proof.
  destruct u; simpl; try done.
  intros [_ ->%Z.eqb_eq]%andb_true_iff. done.
Qed.

Lemma well_formed_convert_x cfg sample :
  well_formed cfg sample = true → _convert_x sample = Ok sample.
Proof.
  destruct sample as [| | | |[|u us]]; simpl; try done.
  intros [[Hu _]%andb_true_iff Hpos%Z.ltb_lt]%andb_true_iff.
  destruct u as [| | | |fs]; simpl in *; try done.
  apply andb_true_iff in Hu as [Hfs Hlen%Z.eqb_eq].
  destruct fs as [|f fs]; simpl in *; [lia|].
  apply andb_true_iff in Hfs as [Hf _]. unfold _convert_x. simpl. by rewrite Hf.
Qed.

Lemma well_formed_units_len cfg sample :
  well_formed cfg sample = true →
  Forall (λ u, py_len u = Ok (max_unit_length cfg)) (sample_units sample).
Proof.
  destruct sample as [| | | |[|u us]]; simpl; try done.
  intros [Hall _]%andb_true_iff.
  change (forallb (is_float_unit cfg) (u :: us) = true) in Hall.
  rewrite forallb_forall in Hall. apply Forall_forall.
  intros x Hx. apply is_float_unit_len, Hall. by apply list_elem_of_In.
Qed.

Lemma truncate_units_within {A} m limit (us : list A) :
  Z.of_nat (length us) ≤ limit → truncate_units m limit us = us.
Proof. intros H. unfold truncate_units. by rewrite (proj2 (Z.leb_le _ _) H). Qed.

Lemma truncate_units_length {A} m limit (us : list A) :
  0 ≤ limit →
  length (truncate_units m limit us) = Nat.min (length us) (Z.to_nat limit).
Proof.
  intros H. unfold truncate_units. destruct (Z.leb_spec (Z.of_nat (length us)) limit).
  - lia.
  - destruct m; [rewrite length_drop | rewrite length_take]; lia.
Qed.

Lemma truncate_units_sub {A} m limit (us : list A) u :
  u ∈ truncate_units m limit us → u ∈ us.
Proof.
  unfold truncate_units. destruct (_ <=? _); [done|]. destruct m.
  - intros H. rewrite <- (take_drop (length us - Z.to_nat limit) us).
    apply elem_of_app. by right.
  - intros H. rewrite <- (take_drop (Z.to_nat limit) us).
    apply elem_of_app. by left.
Qed.

Lemma collect_units_raise_kind cfg segs vs ms e :
  collect_units cfg segs vs ms = Raise e →
  e = AssertionError unit_length_msg ∨ e = TypeError.
Proof.
  revert vs ms. induction segs as [|u segs IH]; intros vs ms; simpl; [done|].
  destruct (py_len u) as [n|e'] eqn:Hn; simpl.
  - destruct (n =? max_unit_length cfg); [apply IH|]. intros [= <-]. by left.
  - intros [= <-]. right. destruct u; simpl in Hn; congruence.
Qed.

Lemma encode_segments_raise_kind cfg us e :
  encode_segments cfg (PyList us) = Raise e →
  e = AssertionError unit_length_msg ∨ e = TypeError.
Proof.
  unfold encode_segments. simpl.
  destruct (collect_units _ _ _ _) as [[v m]|e'] eqn:Hc; simpl; [done|].
  intros [= <-]. by eapply collect_units_raise_kind.
Qed.

(** A successful [_convert_X] has encoded every sample on its own. *)
Lemma _convert_X_inv cfg X V M :
  _convert_X cfg X = Ok (V, M) →
  Forall (λ s, _convert_x s = Ok s) X
  ∧ ∃ rs, Forall2 (λ s r, encode_segments cfg s = Ok r) X rs
          ∧ V = rs.*1 ∧ M = rs.*2.
Proof.
  unfold _convert_X.
  destruct (convert_samples X []) as [segs|e] eqn:Hc; simpl; [|done].
  apply convert_samples_inv in Hc as [-> HF]. simpl.
  intros (rs & H2 & -> & ->)%encode_all_inv. split; [done|]. by exists rs.
Qed.

Lemma _convert_X_lookup cfg X V M i sample m :
  _convert_X cfg X = Ok (V, M) → X !! i = Some sample → M !! i = Some m →
  ∃ us v, sample = PyList us ∧ us ≠ [] ∧ encode_segments cfg sample = Ok (v, m).
Proof.
  intros H Hs Hm. apply _convert_X_inv in H as (HF & rs & H2 & -> & ->).
  rewrite list_lookup_fmap in Hm.
  destruct (rs !! i) as [[v m']|] eqn:Hr; simpl in Hm; [|done].
  simplify_eq.
  pose proof (Forall2_lookup_lr _ _ _ _ _ _ H2 Hs Hr) as He.
  rewrite Forall_forall in HF.
  destruct (_convert_x_is_list sample sample) as (u & us & ->).
  { apply HF. by eapply list_elem_of_lookup_2. }
  by exists (u :: us), v.
Qed.

Lemma encode_segments_mask cfg us v m :
  encode_segments cfg (PyList us) = Ok (v, m) →
  m = replicate (S (length (kept_units cfg (PyList us)))) 1
      ++ replicate (Z.to_nat (max_seq_length cfg - 1
                              - Z.of_nat (length (kept_units cfg (PyList us))))) 0.
Proof.
  intros H. pose proof (encode_segments_inv _ _ _ _ H) as HF.
  rewrite (encode_segments_list _ _ HF) in H. simplify_eq.
  by rewrite replicate_S_end, <- app_assoc.
Qed.

(** ** C1: short samples are padded *)

(** C1. For a batch of well-formed samples, each of [k <= max_seq_length - 1]
    units, [_convert_X] returns for every sample the [k] units followed by
    [max_seq_length - 1 - k] zero rows of length [max_unit_length], and a mask
    of [k + 1] ones followed by [max_seq_length - 1 - k] zeros, of total
    length [max_seq_length]. *)
Theorem convert_X_pads_short_samples (cfg : config) (X : list pyval) :
  Forall (λ s, well_formed cfg s = true
               ∧ Z.of_nat (length (sample_units s)) ≤ max_seq_length cfg - 1) X →
  _convert_X cfg X = Ok (expected_values cfg <$> X, expected_mask cfg <$> X)
  ∧ Forall (λ s, Z.of_nat (length (expected_mask cfg s)) = max_seq_length cfg
                 ∧ Z.of_nat (length (expected_values cfg s)) = max_seq_length cfg - 1
                 ∧ py_len (zero_unit cfg) = Ok (max_unit_length cfg)) X.
Proof.
  intros HX. split.
  - unfold _convert_X.
    rewrite (convert_samples_ok X []); simpl.
    2:{ eapply Forall_impl; [exact HX|]. intros s [Hs _].
        by eapply well_formed_convert_x. }
    rewrite (encode_all_ok cfg X
               ((λ s, (expected_values cfg s, expected_mask cfg s)) <$> X)).
    { simpl. f_equal. f_equal; rewrite <- list_fmap_compose; by apply list_fmap_ext. }
    apply Forall2_fmap_r, Forall_Forall2_diag.
    eapply Forall_impl; [exact HX|]. intros s [Hwf Hk]. simpl.
    pose proof (well_formed_units_len _ _ Hwf) as Hlen.
    destruct s as [| | | |us]; try done. simpl in Hk, Hlen.
    assert (kept_units cfg (PyList us) = us) as Hkept
      by (by apply truncate_units_within).
    rewrite encode_segments_list; rewrite Hkept; [|done].
    unfold expected_values, expected_mask, padding_rows. cbn [sample_units].
    by rewrite replicate_S_end, <- app_assoc.
  - eapply Forall_impl; [exact HX|]. intros s [Hwf Hk]. simpl.
    assert (0 < max_unit_length cfg).
    { destruct s as [| | | |[|u us]]; simpl in Hwf; try done.
      by apply andb_true_iff in Hwf as [_ ?%Z.ltb_lt]. }
    unfold expected_mask, expected_values, padding_rows, zero_unit, py_len.
    rewrite !length_app, !length_replicate.
    repeat split; [lia | lia | f_equal; lia].
Qed.

Lemma convert_X_pads_short_samples_witness :
  _convert_X (Config 5 2 FIFO)
    [PyList [unit_of [1.5%float; 2%float]];
     PyList [unit_of [0.25%float; 1%float]; unit_of [3%float; 4%float]]]
  = Ok ([[unit_of [1.5%float; 2%float];
          PyList [PyInt 0; PyInt 0]; PyList [PyInt 0; PyInt 0]; PyList [PyInt 0; PyInt 0]];
         [unit_of [0.25%float; 1%float]; unit_of [3%float; 4%float];
          PyList [PyInt 0; PyInt 0]; PyList [PyInt 0; PyInt 0]]],
        [[1; 1; 0; 0; 0]; [1; 1; 1; 0; 0]]).
Proof.
  refine (proj1 (convert_X_pads_short_samples (Config 5 2 FIFO) _ _)).
  repeat constructor; simpl; lia.
Defined.

(** ** C2: the scenario with three units and [max_seq_length = 4] *)

(** C2, as stated, fails: with [max_seq_length = 4] the three units fit in the
    [max_seq_length - 1 = 3] value slots, nothing is truncated, and the
    result is not the announced one, whether the entries are read as floats
    or as integers (integer entries are rejected by [_convert_x]). *)
Lemma scenario_claimed_not_returned :
  _convert_X scenario_cfg [scenario_sample] ≠ Ok scenario_claimed
  ∧ _convert_X scenario_cfg [scenario_sample_int] ≠ Ok scenario_claimed.
Proof.
  split.
  - vm_compute. intros H. inversion H.
  - vm_compute. discriminate.
Qed.

(** C2 (amended). With [max_seq_length = 4], [max_unit_length = 2] and
    ["LIFO"], the sample [[[1.,1.],[2.,2.],[3.,3.]]] is encoded as the values
    [[[1.,1.],[2.,2.],[3.,3.]]] and the mask [[1,1,1,1]]: the three units are
    kept, no zero row is added. *)
Theorem scenario_returns_all_units :
  _convert_X scenario_cfg [scenario_sample]
  = Ok ([[unit_of [1%float; 1%float]; unit_of [2%float; 2%float];
          unit_of [3%float; 3%float]]],
        [[1; 1; 1; 1]]).
Proof. reflexivity. Qed.

(** ** C3: where the reserved mask position sits *)

(** C3, as stated, fails: a sample of one unit under [max_seq_length = 4] has
    the mask [[1,1,0,0]], whose last position is [0]. *)
Lemma last_mask_position_can_be_zero :
  ¬ (∀ cfg X V M i m,
        _convert_X cfg X = Ok (V, M) → M !! i = Some m →
        m !! Z.to_nat (max_seq_length cfg - 1) = Some 1).
Proof.
  intros H.
  specialize (H scenario_cfg [PyList [unit_of [1%float; 1%float]]]
                _ _ 0%nat [1; 1; 0; 0] eq_refl eq_refl).
  vm_compute in H. discriminate.
Qed.

(** C3 (amended). With [max_seq_length >= 1], the mask of every encoded
    sample is [k' + 1] ones followed by zeros up to length [max_seq_length],
    where [k'] is the number of units kept after truncation: the reserved
    position is index [k'], right after the units, and it is always [1]. The
    last position, index [max_seq_length - 1], is [1] exactly when the sample
    has at least [max_seq_length - 1] units. *)
Theorem reserved_mask_position_follows_units
    (cfg : config) (X : list pyval) (V : list (list pyval)) (M : list (list Z))
    (i : nat) (sample : pyval) (m : list Z) :
  1 ≤ max_seq_length cfg →
  _convert_X cfg X = Ok (V, M) → X !! i = Some sample → M !! i = Some m →
  let k' := length (kept_units cfg sample) in
  m = replicate (S k') 1 ++ replicate (Z.to_nat (max_seq_length cfg - 1) - k') 0
  ∧ m !! k' = Some 1
  ∧ Z.of_nat (length m) = max_seq_length cfg
  ∧ (m !! Z.to_nat (max_seq_length cfg - 1) = Some 1
     ↔ max_seq_length cfg - 1 ≤ Z.of_nat (length (sample_units sample))).
Proof.
  intros Hmsl HX Hs Hm k'.
  destruct (_convert_X_lookup _ _ _ _ _ _ _ HX Hs Hm) as (us & v & -> & _ & He).
  apply encode_segments_mask in He. fold k' in He.
  assert (k' = Nat.min (length us) (Z.to_nat (max_seq_length cfg - 1))) as Hk'.
  { unfold k', kept_units. rewrite truncate_units_length by lia. done. }
  replace (Z.to_nat (max_seq_length cfg - 1 - Z.of_nat k'))
    with (Z.to_nat (max_seq_length cfg - 1) - k')%nat in He by lia.
  assert (m !! k' = Some 1) as Hres.
  { rewrite He. rewrite lookup_app_l by (rewrite length_replicate; lia).
    apply lookup_replicate_2. lia. }
  split_and!; [done | done | |].
  - rewrite He, length_app, !length_replicate. lia.
  - cbn [sample_units]. split.
    + intros Hlast.
      destruct (decide (max_seq_length cfg - 1 ≤ Z.of_nat (length us))); [done|].
      exfalso. rewrite He in Hlast.
      rewrite lookup_app_r in Hlast by (rewrite length_replicate; lia).
      apply lookup_replicate in Hlast as [? _]. done.
    + intros Hge.
      replace (Z.to_nat (max_seq_length cfg - 1)) with k' by lia. done.
Qed.

Lemma reserved_mask_position_follows_units_witness :
  let m := [1; 1; 0; 0] in
  m = replicate 2 1 ++ replicate 2 0
  ∧ m !! 1%nat = Some 1
  ∧ Z.of_nat (length m) = 4
  ∧ (m !! 3%nat = Some 1 ↔ 3 ≤ 1).
Proof.
  apply (reserved_mask_position_follows_units scenario_cfg
           [PyList [unit_of [1%float; 1%float]]]
           [[unit_of [1%float; 1%float]; PyList [PyInt 0; PyInt 0];
             PyList [PyInt 0; PyInt 0]]]
           [[1; 1; 0; 0]] 0%nat (PyList [unit_of [1%float; 1%float]]));
    [simpl; lia | reflexivity | reflexivity | reflexivity].
Defined.

(** ** C7: a unit of the wrong length *)

(** C7, as stated, fails: a second unit of the wrong length is caught by the
    assertion of line 102, outside the [try] of lines 85-92, so the exception
    is the bare [AssertionError], not the [ValueError] that names the sample
    and shows the expected format. *)
Lemma wrong_unit_length_is_not_reported_with_sample :
  ¬ (∀ cfg X sample u,
        sample ∈ X → u ∈ sample_units sample →
        py_len u ≠ Ok (max_unit_length cfg) →
        ∃ cause, _convert_X cfg X = Raise (ValueError sample cause)).
Proof.
  intros H.
  destruct (H scenario_cfg
              [PyList [unit_of [1%float; 1%float]; unit_of [2%float]]]
              (PyList [unit_of [1%float; 1%float]; unit_of [2%float]])
              (unit_of [2%float])) as [cause Hc].
  - by left.
  - simpl. right. by left.
  - simpl. discriminate.
  - vm_compute in Hc. discriminate.
Qed.

(** C7 (amended). If a sample of the batch still holds, after truncation, a
    unit whose length is not [max_unit_length], [_convert_X] raises and
    returns no batch. The exception is the [ValueError] naming a sample only
    when some sample of the batch is rejected by [_convert_x]; when every
    sample passes [_convert_x] it is the [AssertionError] of line 102 (or the
    [TypeError] of [len] on a unit that has no length), which names no
    sample. *)
Theorem wrong_unit_length_fails_whole_batch
    (cfg : config) (X : list pyval) (sample u : pyval) :
  sample ∈ X → u ∈ kept_units cfg sample →
  py_len u ≠ Ok (max_unit_length cfg) →
  ∃ e, _convert_X cfg X = Raise e
       ∧ ((∃ s cause, s ∈ X ∧ _convert_x s = Raise cause ∧ e = ValueError s cause)
          ∨ (Forall (λ s, _convert_x s = Ok s) X
             ∧ (e = AssertionError unit_length_msg ∨ e = TypeError))).
Proof.
  intros Hs Hu Hlen. unfold _convert_X.
  destruct (convert_samples X []) as [segs|e] eqn:Hc; simpl.
  - apply convert_samples_inv in Hc as [-> HF]. simpl.
    destruct (encode_all_raise cfg X [] []) as (s' & e & Hs' & He & Hr).
    { apply Exists_exists. exists sample. split; [done|].
      rewrite Forall_forall in HF.
      destruct (_convert_x_is_list sample sample (HF _ Hs)) as (u0 & us & ->).
      destruct (encode_segments_raise cfg (u0 :: us)) as [-> | ->]; eauto.
      apply Exists_exists. eauto. }
    exists e. split; [done|]. right. split; [done|].
    rewrite Forall_forall in HF.
    destruct (_convert_x_is_list s' s' (HF _ Hs')) as (u0 & us & ->).
    by eapply encode_segments_raise_kind.
  - exists e. split; [done|]. left. by eapply convert_samples_raise.
Qed.

Lemma wrong_unit_length_fails_whole_batch_witness :
  ∃ e, _convert_X scenario_cfg
         [PyList [unit_of [1%float; 1%float]];
          PyList [unit_of [1%float; 1%float]; unit_of [2%float]]] = Raise e
       ∧ ((∃ s cause,
              s ∈ [PyList [unit_of [1%float; 1%float]];
                   PyList [unit_of [1%float; 1%float]; unit_of [2%float]]]
              ∧ _convert_x s = Raise cause ∧ e = ValueError s cause)
          ∨ (Forall (λ s, _convert_x s = Ok s)
               [PyList [unit_of [1%float; 1%float]];
                PyList [unit_of [1%float; 1%float]; unit_of [2%float]]]
             ∧ (e = AssertionError unit_length_msg ∨ e = TypeError))).
Proof.
  apply (wrong_unit_length_fails_whole_batch scenario_cfg _
           (PyList [unit_of [1%float; 1%float]; unit_of [2%float]])
           (unit_of [2%float])).
  - right. left.
  - vm_compute. right. left.
  - vm_compute. discriminate.
Defined.

(** ** The order on labels *)

Lemma str_lt_irrefl a : str_lt a a = false.
Proof.
  induction a as [|c a IH]; simpl; [done|].
  rewrite N.ltb_irrefl, N.eqb_refl. done.
Qed.

Lemma str_lt_trans a b c : str_lt a b = true → str_lt b c = true → str_lt a c = true.
Proof.
  revert b c. induction a as [|x a IH]; intros [|y b] [|z c]; simpl; try done.
  destruct (N.ltb_spec (Ascii.N_of_ascii x) (Ascii.N_of_ascii y)) as [Hxy|Hxy].
  - intros _.
    destruct (N.ltb_spec (Ascii.N_of_ascii y) (Ascii.N_of_ascii z)) as [Hyz|Hyz].
    + intros _. by rewrite (proj2 (N.ltb_lt _ _)) by lia.
    + destruct (N.eqb_spec (Ascii.N_of_ascii y) (Ascii.N_of_ascii z)) as [Heq|]; [|done].
      intros _. by rewrite (proj2 (N.ltb_lt _ _)) by lia.
  - destruct (N.eqb_spec (Ascii.N_of_ascii x) (Ascii.N_of_ascii y)) as [Heq|]; [|done].
    rewrite Heq. intros Hab.
    destruct (N.ltb_spec (Ascii.N_of_ascii y) (Ascii.N_of_ascii z)); [done|].
    destruct (N.eqb_spec (Ascii.N_of_ascii y) (Ascii.N_of_ascii z)); [|done].
    by apply IH.
Qed.

Lemma str_lt_total a b : str_lt a b = false → str_lt b a = false → a = b.
Proof.
  revert b. induction a as [|x a IH]; intros [|y b]; simpl; try done.
  destruct (N.ltb_spec (Ascii.N_of_ascii x) (Ascii.N_of_ascii y)) as [Hxy|Hxy]; [done|].
  destruct (N.ltb_spec (Ascii.N_of_ascii y) (Ascii.N_of_ascii x)) as [Hyx|Hyx]; [by destruct (_ =? _)%N|].
  assert (Ascii.N_of_ascii x = Ascii.N_of_ascii y) as Heq by lia.
  rewrite Heq, N.eqb_refl. intros Hab Hba.
  f_equal; [|by apply IH].
  rewrite <- (Ascii.ascii_N_embedding x), <- (Ascii.ascii_N_embedding y). by rewrite Heq.
Qed.

Lemma str_lt_asym a b : str_lt a b = true → str_lt b a = false.
Proof.
  intros Hab. destruct (str_lt b a) eqn:Hba; [|done].
  pose proof (str_lt_trans _ _ _ Hab Hba) as H. by rewrite str_lt_irrefl in H.
Qed.

Lemma label_lt_le a b : label_lt a b → label_le a b.
Proof.
  unfold label_lt, label_le. destruct a, b; simpl; try done.
  - intros [= H%Z.ltb_lt]. f_equal. apply Z.ltb_ge. lia.
  - intros [= H%str_lt_asym]. by f_equal.
Qed.

Lemma label_le_neq_lt a b : label_le a b → a ≠ b → label_lt a b.
Proof.
  unfold label_lt, label_le. destruct a as [x|s], b as [y|t]; simpl; try done.
  - intros [= H%Z.ltb_ge] Hne. f_equal. apply Z.ltb_lt.
    destruct (decide (x = y)) as [->|]; [done | lia].
  - intros [= H] Hne. f_equal. destruct (str_lt s t) eqn:Hst; [done|].
    exfalso. apply Hne. f_equal. by apply str_lt_total.
Qed.

#[local] Instance label_lt_trans : Transitive label_lt.
Proof.
  intros a b c. unfold label_lt. destruct a, b, c; simpl; try done.
  - intros [= H1%Z.ltb_lt] [= H2%Z.ltb_lt]. f_equal. apply Z.ltb_lt. lia.
  - intros [= H1] [= H2]. f_equal. by eapply str_lt_trans.
Qed.

#[local] Instance label_lt_antisym : AntiSymm (=) label_lt.
Proof.
  intros a b Hab Hba. apply label_lt_le in Hab.
  unfold label_lt, label_le in *. congruence.
Qed.

(** ** [sorted] on labels *)

Lemma py_insert_perm x s r : py_insert x s = Ok r → r ≡ₚ x :: s.
Proof.
  revert r. induction s as [|y s IH]; intros r; simpl.
  - by intros [= <-].
  - destruct (py_lt x y) as [[]|]; simpl; [by intros [= <-] | | done].
    destruct (py_insert x s) as [r'|]; simpl; [|done].
    intros [= <-]. rewrite (IH r' eq_refl). apply Permutation_swap.
Qed.

Lemma py_sorted_perm l s : py_sorted l = Ok s → s ≡ₚ l.
Proof.
  revert s. induction l as [|x l IH]; intros s; simpl.
  - by intros [= <-].
  - destruct (py_sorted l) as [s'|]; simpl; [|done].
    intros ->%py_insert_perm. by rewrite (IH s' eq_refl).
Qed.

Lemma py_insert_sorted x s r :
  Sorted label_le s → py_insert x s = Ok r → Sorted label_le r.
Proof.
  revert r. induction s as [|y s IH]; intros r Hs; simpl.
  - intros [= <-]. by repeat constructor.
  - destruct (py_lt x y) as [[]|] eqn:Hxy; simpl; [| |done].
    + intros [= <-]. constructor; [done|]. constructor. by apply label_lt_le.
    + destruct (py_insert x s) as [r'|] eqn:Hr; simpl; [|done].
      intros [= <-]. apply Sorted_inv in Hs as [Hs Hhd].
      constructor; [by apply IH|].
      destruct s as [|z s]; simpl in Hr.
      * injection Hr as <-. by constructor.
      * destruct (py_lt x z) as [[]|]; simpl in Hr; [| |done].
        -- injection Hr as <-. by constructor.
        -- destruct (py_insert x s); simpl in Hr; [|done].
           injection Hr as <-. constructor. by apply HdRel_inv in Hhd.
Qed.

Lemma py_sorted_sorted l s : py_sorted l = Ok s → Sorted label_le s.
Proof.
  revert s. induction l as [|x l IH]; intros s; simpl.
  - intros [= <-]. constructor.
  - destruct (py_sorted l) as [s'|]; simpl; [|done].
    apply py_insert_sorted. by apply IH.
Qed.

(** On distinct labels the result of [sorted] is strictly ascending. *)
Lemma py_sorted_strict l s :
  NoDup l → py_sorted l = Ok s → StronglySorted label_lt s.
Proof.
  intros Hnd Hs. apply Sorted_StronglySorted; [apply _|].
  pose proof (py_sorted_sorted _ _ Hs) as Hsorted.
  assert (NoDup s) as Hnds by (by rewrite (py_sorted_perm _ _ Hs)).
  clear Hs Hnd. induction Hsorted as [|a s Hsorted IH Hhd]; [constructor|].
  apply NoDup_cons in Hnds as [Ha Hnds]. constructor; [by apply IH|].
  destruct Hhd as [|b s' Hab]; constructor.
  apply label_le_neq_lt; [done|]. intros ->. apply Ha. by left.
Qed.

Lemma py_insert_ok_same_kind x s :
  (is_int x && forallb is_int s) || (is_str x && forallb is_str s) = true →
  ∃ r, py_insert x s = Ok r.
Proof.
  induction s as [|y s IH]; simpl; [eauto|].
  intros H. destruct x, y; simpl in *; try done.
  - destruct (_ <? _); simpl; [eauto|]. destruct (IH H) as [r ->]. simpl. eauto.
  - destruct (str_lt _ _); simpl; [eauto|]. destruct (IH H) as [r ->]. simpl. eauto.
Qed.

Lemma forallb_perm {A} (f : A → bool) l1 l2 :
  l1 ≡ₚ l2 → forallb f l1 = forallb f l2.
Proof.
  induction 1; simpl; try congruence.
  - by rewrite !andb_assoc, (andb_comm (f y)).
Qed.

Lemma orderable_perm l1 l2 : l1 ≡ₚ l2 → orderable l1 = orderable l2.
Proof. intros H. unfold orderable. by rewrite !(forallb_perm _ _ _ H). Qed.

Lemma py_sorted_orderable l : orderable l = true → ∃ s, py_sorted l = Ok s.
Proof.
  unfold orderable. induction l as [|x l IH]; simpl; [eauto|].
  intros H. destruct IH as [s Hs].
  { destruct x; simpl in H.
    - rewrite orb_false_r in H. by rewrite H.
    - by rewrite H, orb_true_r. }
  rewrite Hs. simpl. apply py_insert_ok_same_kind.
  rewrite <- !(forallb_perm _ _ _ (py_sorted_perm _ _ Hs)) in H. done.
Qed.

(** Labels of two types make [sorted] raise. *)
Lemma py_insert_not_orderable x s :
  s ≠ [] → orderable (x :: s) = false → orderable s = true →
  ∃ e, py_insert x s = Raise e.
Proof.
  unfold orderable. destruct s as [|y s]; [done|]. intros _. simpl.
  destruct x, y; simpl; eauto; intros H1 H2; congruence.
Qed.

Lemma py_sorted_not_orderable l : orderable l = false → ∃ e, py_sorted l = Raise e.
Proof.
  induction l as [|x l IH]; [done|]. intros H. simpl.
  destruct (orderable l) eqn:Hl.
  - destruct (py_sorted_orderable l Hl) as [s Hs]. rewrite Hs. simpl.
    apply py_insert_not_orderable.
    + intros ->. apply py_sorted_perm, Permutation_nil_l in Hs as <-.
      unfold orderable in H. simpl in H. destruct x; done.
    + rewrite <- H. apply orderable_perm. constructor. by apply py_sorted_perm.
    + rewrite <- Hl. by apply orderable_perm, py_sorted_perm.
  - destruct (IH eq_refl) as [e ->]. simpl. eauto.
Qed.

(** ** The vocabulary invariant *)

Lemma new_vocabulary_ok n : vocab_ok (new_vocabulary n).
Proof.
  split; [|by left]. split_and!; simpl.
  - constructor.
  - by rewrite map_size_empty.
  - intros l i. rewrite lookup_empty. split; [done|].
    by intros (k & _ & ?).
Qed.

(** Admitting a label that has no id: lines 148-149. *)
Lemma consistent_admit n1 n2 ls d l :
  consistent (Vocabulary n1 ls d) → d !! l = None →
  consistent (Vocabulary n2 (ls ++ [l]) (<[l := Z.of_nat (size d)]> d)).
Proof.
  intros (Hnd & Hsz & Hiff) Hl. simpl in *.
  assert (l ∉ ls) as Hnotin.
  { intros (k & Hk)%list_elem_of_lookup_1.
    assert (d !! l = Some (Z.of_nat k)) as Hd by (apply Hiff; eauto). congruence. }
  split_and!; simpl.
  - apply NoDup_app. split_and!; [done | | apply NoDup_singleton].
    intros x Hx ->%list_elem_of_singleton. done.
  - rewrite map_size_insert_None by done. rewrite length_app. simpl. lia.
  - intros l' i. destruct (decide (l = l')) as [<-|Hne].
    + rewrite lookup_insert_eq. split.
      * intros [= <-]. exists (length ls). rewrite Hsz. split; [done|].
        by rewrite list_lookup_middle.
      * intros (k & -> & Hk). f_equal. rewrite Hsz.
        destruct (decide (k < length ls)%nat) as [Hlt|Hge].
        -- rewrite lookup_app_l in Hk by done.
           exfalso. apply Hnotin. by eapply list_elem_of_lookup_2.
        -- apply lookup_lt_Some in Hk. rewrite length_app in Hk. simpl in Hk.
           f_equal. lia.
    + rewrite lookup_insert_ne by done. rewrite Hiff. split.
      * intros (k & -> & Hk). exists k. split; [done|].
        rewrite lookup_app_l; [done|]. by eapply lookup_lt_Some.
      * intros (k & -> & Hk). exists k. split; [done|].
        destruct (decide (k < length ls)%nat) as [Hlt|Hge].
        -- by rewrite lookup_app_l in Hk.
        -- rewrite lookup_app_r in Hk by lia.
           destruct (k - length ls)%nat; simpl in Hk; [congruence | done].
Qed.

Lemma consistent_label_size n1 n2 ls d :
  consistent (Vocabulary n1 ls d) → consistent (Vocabulary n2 ls d).
Proof. done. Qed.

(** Line 142 on a list without repetition. *)
Lemma dict_of_enumerate_consistent n pre ls d :
  consistent (Vocabulary n pre d) → NoDup (pre ++ ls) →
  consistent (Vocabulary n (pre ++ ls)
                (dict_of_enumerate (Z.of_nat (length pre)) ls d)).
Proof.
  revert pre d. induction ls as [|l ls IH]; intros pre d Hc Hnd; simpl.
  - by rewrite app_nil_r.
  - assert (d !! l = None) as Hl.
    { destruct (d !! l) as [i|] eqn:Hd; [|done]. exfalso.
      destruct Hc as (_ & _ & Hiff). apply Hiff in Hd as (k & _ & Hk). simpl in Hk.
      apply NoDup_app in Hnd as (_ & Hdisj & _).
      apply (Hdisj l); [by eapply list_elem_of_lookup_2 | by left]. }
    pose proof (consistent_admit n n pre d l Hc Hl) as Hc'.
    destruct Hc as (_ & Hsz & _). simpl in Hsz. rewrite Hsz in Hc'.
    specialize (IH (pre ++ [l]) _ Hc').
    rewrite <- app_assoc in IH. simpl in IH. specialize (IH Hnd).
    rewrite length_app in IH. simpl in IH.
    replace (Z.of_nat (length pre + 1)) with (Z.of_nat (length pre) + 1) in IH by lia.
    done.
Qed.

Lemma dict_of_enumerate_fresh n ls :
  NoDup ls → consistent (Vocabulary n ls (dict_of_enumerate 0 ls ∅)).
Proof.
  intros Hnd.
  apply (dict_of_enumerate_consistent n [] ls ∅); [|done].
  apply (new_vocabulary_ok n).
Qed.

Lemma consistent_nil_empty v : consistent v → _id_to_label v = [] → _label_to_id v = ∅.
Proof.
  intros (_ & Hsz & _) Hnil. rewrite Hnil in Hsz. by apply map_size_empty_iff.
Qed.

Lemma consistent_cons_nonempty v :
  consistent v → _id_to_label v ≠ [] → _label_to_id v ≠ ∅.
Proof.
  intros (_ & Hsz & _) Hne Hempty. rewrite Hempty, map_size_empty in Hsz.
  destruct (_id_to_label v); [done | simpl in Hsz; lia].
Qed.

Lemma built_labels_perm `{PySet} y : built_labels y ≡ₚ remove_dups y.
Proof.
  unfold built_labels. destruct (py_sorted (set_iter y)) as [s|] eqn:Hs.
  - rewrite (py_sorted_perm _ _ Hs). apply set_iter_perm.
  - apply set_iter_perm.
Qed.

Lemma built_labels_NoDup `{PySet} y : NoDup (built_labels y).
Proof. rewrite built_labels_perm. apply NoDup_remove_dups. Qed.

(** Lines 131-142 on a consistent vocabulary: an empty one is built from
    the batch, a non-empty one is left as it is. *)
Lemma init_vocabulary `{PySet} v y :
  consistent v →
  init_label_to_id (init_id_to_label v y)
  = if is_nil (_id_to_label v)
    then Vocabulary (label_size v) (built_labels y)
           (dict_of_enumerate 0 (built_labels y) ∅)
    else v.
Proof.
  intros Hc. unfold init_id_to_label, built_labels.
  destruct (_id_to_label v) as [|l ls] eqn:Hls; simpl.
  - pose proof (consistent_nil_empty v Hc Hls) as Hd.
    unfold init_label_to_id.
    destruct (py_sorted (set_iter y)); simpl; rewrite Hd;
      by rewrite decide_True by done.
  - unfold init_label_to_id. rewrite decide_False; [done|].
    apply consistent_cons_nonempty; [done|]. by rewrite Hls.
Qed.

(** ** The loop over the labels *)

(** Without any assumption on the state: the loop keeps every id it finds,
    and the ids it returns are the ones the final dictionary holds. *)
Lemma encode_labels_mono y : ∀ v acc v' r,
  encode_labels v y acc = (v', r) →
  label_size v' = label_size v
  ∧ _label_to_id v ⊆ _label_to_id v'
  ∧ ∀ ids, r = Ok ids →
      ∃ new, ids = acc ++ new
             ∧ Forall2 (λ l i, _label_to_id v' !! l = Some i) y new.
Proof.
  induction y as [|l y IH]; intros v acc v' r; simpl.
  - intros [= <- <-]. split_and!; [done | done |].
    intros ids [= <-]. exists []. by rewrite app_nil_r.
  - destruct (_label_to_id v !! l) as [i|] eqn:Hl.
    + intros (Hsz & Hsub & Hids)%IH. split_and!; [done | done |].
      intros ids (new & -> & HF)%Hids. exists (i :: new).
      rewrite <- app_assoc. split; [done|]. constructor; [|done].
      by eapply lookup_weaken.
    + destruct (label_size v) as [cap|] eqn:Hcap; [|by intros [= <- <-]].
      destruct (_ <? _); [|by intros [= <- <-]].
      intros (Hsz & Hsub & Hids)%IH. simpl in *. split_and!; [done | |].
      * etrans; [|exact Hsub]. by apply insert_subseteq.
      * intros ids (new & -> & HF)%Hids.
        exists (Z.of_nat (size (_label_to_id v)) :: new).
        rewrite <- app_assoc. split; [done|]. constructor; [|done].
        eapply lookup_weaken; [|exact Hsub]. by rewrite lookup_insert_eq.
Qed.

(** Labels that all have an id are looked up; nothing is assigned. *)
Lemma encode_labels_known y : ∀ v acc new,
  Forall2 (λ l i, _label_to_id v !! l = Some i) y new →
  encode_labels v y acc = (v, Ok (acc ++ new)).
Proof.
  induction y as [|l y IH]; intros v acc new HF.
  - apply Forall2_nil_inv_l in HF as ->. by rewrite app_nil_r.
  - apply Forall2_cons_inv_l in HF as (i & new' & Hl & HF & ->). simpl.
    rewrite Hl, (IH _ _ _ HF). by rewrite <- app_assoc.
Qed.

Lemma capped_vocab_ok v : capped v → vocab_ok v.
Proof. intros [Hc Hcap]. split; [done | by right]. Qed.

Lemma encode_labels_capped y : ∀ v acc v' r,
  capped v → encode_labels v y acc = (v', r) →
  capped v' ∧ _id_to_label v `prefix_of` _id_to_label v'.
Proof.
  induction y as [|l y IH]; intros v acc v' r Hv; simpl.
  - by intros [= <- <-].
  - destruct (_label_to_id v !! l) as [i|] eqn:Hl; [by apply IH|].
    destruct Hv as (Hc & cap & Hcap & Hle). rewrite Hcap.
    destruct (Z.ltb_spec (Z.of_nat (size (_label_to_id v))) cap) as [Hlt|Hge].
    + intros [Hv' Hpre]%IH.
      * split; [done|]. etrans; [|exact Hpre]. by apply prefix_app_r.
      * split; [destruct v; by eapply consistent_admit|].
        exists cap. simpl. split; [done|].
        destruct Hc as (_ & Hsz & _). rewrite length_app. simpl. lia.
    + intros [= <- <-]. split; [|done]. split; [done|]. eauto.
Qed.

(** The loop fails when the labels of [y] do not all fit. *)
Lemma encode_labels_overflow y : ∀ v acc cap,
  capped v → label_size v = Some cap →
  cap < Z.of_nat (size (dom (_label_to_id v) ∪ list_to_set y)) →
  ∃ v', encode_labels v y acc = (v', Raise (AssertionError unique_labels_msg)).
Proof.
  induction y as [|l y IH]; intros v acc cap Hv Hcap Hover; simpl.
  - exfalso. destruct Hv as ((_ & Hsz & _) & cap' & Hcap' & Hle).
    rewrite list_to_set_nil, (right_id_L ∅ (∪)), size_dom in Hover.
    simplify_eq. lia.
  - destruct (_label_to_id v !! l) as [i|] eqn:Hl.
    + apply (IH v _ cap); [done | done |].
      replace (dom (_label_to_id v) ∪ list_to_set y)
        with (dom (_label_to_id v) ∪ list_to_set (l :: y)); [done|].
      assert (l ∈ dom (_label_to_id v)) by (apply elem_of_dom; eauto).
      rewrite list_to_set_cons. set_solver.
    + rewrite Hcap.
      destruct (Z.ltb_spec (Z.of_nat (size (_label_to_id v))) cap) as [Hlt|Hge]; [|eauto].
      apply (IH _ _ cap); simpl; [| done |].
      * destruct Hv as (Hc & cap' & Hcap' & Hle). split.
        -- destruct v; by eapply consistent_admit.
        -- exists cap. simpl. split; [done|].
           destruct Hc as (_ & Hsz & _). rewrite length_app. simpl. lia.
      * rewrite dom_insert_L.
        replace ({[l]} ∪ dom (_label_to_id v) ∪ list_to_set y)
          with (dom (_label_to_id v) ∪ list_to_set (l :: y)); [done|].
        rewrite list_to_set_cons. set_solver.
Qed.

(** ** [_convert_y] *)

Lemma size_list_to_set_remove_dups (y : list label) :
  size (list_to_set y : gset label) = length (remove_dups y).
Proof.
  rewrite <- (size_list_to_set (C:=gset label) (remove_dups y))
    by apply NoDup_remove_dups.
  f_equal. apply set_eq. intros x.
  by rewrite !elem_of_list_to_set, elem_of_remove_dups.
Qed.

Lemma built_labels_nil `{PySet} : built_labels [] = [].
Proof.
  apply Permutation_nil_r. apply (built_labels_perm []).
Qed.

(** After lines 124-128 a capacity is set, and it covers both the distinct
    labels of the batch and the vocabulary. *)
Lemma check_label_size_ok v y v1 :
  vocab_ok v → check_label_size v y = Ok v1 →
  _id_to_label v1 = _id_to_label v ∧ _label_to_id v1 = _label_to_id v
  ∧ ∃ cap, label_size v1 = Some cap
           ∧ Z.of_nat (length (remove_dups y)) ≤ cap
           ∧ Z.of_nat (length (_id_to_label v)) ≤ cap
           ∧ (truthy (label_size v) = true → v1 = v).
Proof.
  intros [Hc Hcap]. unfold check_label_size.
  destruct (truthy (label_size v)) eqn:Ht.
  - destruct (label_size v) as [cap|] eqn:Hls; [|done].
    destruct (Z.leb_spec (Z.of_nat (length (remove_dups y))) cap) as [Hle|]; [|done].
    intros [= <-]. split_and!; [done | done |]. exists cap.
    split_and!; [done | done | | done].
    destruct Hcap as [-> | (cap' & Hcap' & Hlen)]; [simpl; lia|].
    rewrite Hls in Hcap'. by simplify_eq.
  - intros [= <-]. simpl. split_and!; [done | done |].
    eexists. split_and!; [done | done | | done].
    destruct Hcap as [-> | (cap' & Hcap' & Hlen)]; [simpl; lia|].
    rewrite Hcap' in Ht. simpl in Ht.
    apply negb_false_iff, Z.eqb_eq in Ht as ->. lia.
Qed.

(** The state on which the loop of lines 145-150 starts. *)
Lemma prepared_capped `{PySet} v y v1 :
  vocab_ok v → check_label_size v y = Ok v1 →
  capped (init_label_to_id (init_id_to_label v1 y)).
Proof.
  intros Hv Hck. pose proof Hv as [Hc _].
  destruct (check_label_size_ok v y v1 Hv Hck)
    as (Hids & Hmap & cap & Hcap & Hn & Hlen & _).
  assert (consistent v1) as Hc1.
  { destruct v, v1. simpl in *. subst. by eapply consistent_label_size. }
  rewrite (init_vocabulary v1 y Hc1).
  destruct (_id_to_label v1) as [|l ls] eqn:Hv1; simpl.
  - split; [apply dict_of_enumerate_fresh, built_labels_NoDup|].
    exists cap. simpl. split; [done|]. by rewrite built_labels_perm.
  - split; [done|]. exists cap. split; [done|]. rewrite Hv1, Hids. done.
Qed.

Lemma convert_y_vocab_ok `{PySet} v y : vocab_ok v → vocab_ok (_convert_y v y).1.
Proof.
  intros Hv. unfold _convert_y.
  destruct (check_label_size v y) as [v1|e] eqn:Hck; [|done].
  destruct (encode_labels _ y []) as [v' r] eqn:He. simpl.
  apply capped_vocab_ok.
  by apply (encode_labels_capped y _ _ _ _ (prepared_capped v y v1 Hv Hck)) in He as [? _].
Qed.

(** A label that has an id keeps it through a call, whatever the outcome. *)
Lemma convert_y_keeps `{PySet} v y l i :
  vocab_ok v → _label_to_id v !! l = Some i →
  _label_to_id (_convert_y v y).1 !! l = Some i.
Proof.
  intros Hv Hl. unfold _convert_y.
  destruct (check_label_size v y) as [v1|e] eqn:Hck; [|done].
  destruct (check_label_size_ok v y v1 Hv Hck) as (Hids & Hmap & _).
  pose proof Hv as [Hc _].
  assert (consistent v1) as Hc1.
  { destruct v, v1. simpl in *. subst. by eapply consistent_label_size. }
  rewrite (init_vocabulary v1 y Hc1).
  assert (_id_to_label v1 ≠ []) as Hne.
  { intros Hnil. apply (consistent_nil_empty _ Hc1) in Hnil.
    rewrite Hmap in Hnil. by rewrite Hnil, lookup_empty in Hl. }
  destruct (_id_to_label v1); [done|]. simpl.
  destruct (encode_labels v1 y []) as [v' r] eqn:He. simpl.
  apply encode_labels_mono in He as (_ & Hsub & _).
  eapply lookup_weaken; [|exact Hsub]. by rewrite Hmap.
Qed.

Lemma convert_y_calls_keeps `{PySet} ys : ∀ v l i,
  vocab_ok v → _label_to_id v !! l = Some i →
  vocab_ok (convert_y_calls v ys)
  ∧ _label_to_id (convert_y_calls v ys) !! l = Some i.
Proof.
  induction ys as [|y ys IH]; intros v l i Hv Hl; [done|].
  apply (IH (_convert_y v y).1); [by apply convert_y_vocab_ok | by apply convert_y_keeps].
Qed.

(** In a consistent vocabulary an id decodes to the label it was given to. *)
Lemma consistent_decode v l i :
  consistent v → _label_to_id v !! l = Some i →
  0 ≤ i ∧ _id_to_label v !! Z.to_nat i = Some l.
Proof.
  intros (_ & _ & Hiff) (n & -> & Hn)%Hiff. split; [lia|]. by rewrite Nat2Z.id.
Qed.

Lemma consistent_inj v l l' i :
  consistent v → _label_to_id v !! l = Some i → _label_to_id v !! l' = Some i →
  l' = l.
Proof.
  intros Hc [_ H1]%(consistent_decode _ _ _ Hc) [_ H2]%(consistent_decode _ _ _ Hc).
  congruence.
Qed.

(** A successful call, taken apart. *)
Lemma convert_y_ok_inv `{PySet} v y v' ids :
  vocab_ok v → _convert_y v y = (v', Ok ids) →
  capped v' ∧ Forall2 (λ l i, _label_to_id v' !! l = Some i) y ids.
Proof.
  intros Hv. unfold _convert_y.
  destruct (check_label_size v y) as [v1|e] eqn:Hck; [|done].
  intros He.
  pose proof (encode_labels_capped y _ _ _ _ (prepared_capped v y v1 Hv Hck) He) as [Hcap _].
  apply encode_labels_mono in He as (_ & _ & Hids).
  destruct (Hids ids eq_refl) as (new & -> & HF). done.
Qed.

(** The first call on a module that has neither a capacity nor a
    vocabulary. *)
Lemma first_call `{PySet} y :
  ∃ ids,
    _convert_y (new_vocabulary None) y
    = (Vocabulary (Some (Z.of_nat (length (remove_dups y)))) (built_labels y)
         (dict_of_enumerate 0 (built_labels y) ∅),
       Ok ids)
    ∧ ids_index (built_labels y) y ids.
Proof.
  set (n := Some (Z.of_nat (length (remove_dups y)))).
  set (d := dict_of_enumerate 0 (built_labels y) ∅).
  pose proof (dict_of_enumerate_fresh n _ (built_labels_NoDup y)) as Hc. fold d in Hc.
  exists ((λ l, default 0 (d !! l)) <$> y).
  assert (Forall2 (λ l i, d !! l = Some i) y ((λ l, default 0 (d !! l)) <$> y)) as HF.
  { apply Forall2_fmap_r, Forall_Forall2_diag, Forall_forall. intros l Hl.
    assert (l ∈ built_labels y) as (k & Hk)%list_elem_of_lookup_1
      by (by rewrite built_labels_perm, elem_of_remove_dups).
    destruct Hc as (_ & _ & Hiff).
    assert (d !! l = Some (Z.of_nat k)) as Hd by (apply (Hiff l); simpl; eauto).
    simpl. by rewrite Hd. }
  split.
  - unfold _convert_y. simpl.
    rewrite (init_vocabulary _ y) by apply (new_vocabulary_ok _). simpl.
    apply (encode_labels_known y (Vocabulary n (built_labels y) d) []). done.
  - eapply Forall2_impl; [exact HF|]. intros l i Hl. simpl in Hl.
    by apply (consistent_decode _ _ _ Hc).
Qed.

Lemma forallb_remove_dups (f : label → bool) y :
  forallb f (remove_dups y) = forallb f y.
Proof.
  apply eq_true_iff_eq. rewrite !forallb_forall.
  split; intros Hall x Hx; apply Hall; revert Hx;
    rewrite <- !list_elem_of_In, elem_of_remove_dups; done.
Qed.

Lemma orderable_set_iter `{PySet} y : orderable (set_iter y) = orderable y.
Proof.
  unfold orderable.
  by rewrite !(forallb_perm _ _ _ (set_iter_perm y)), !forallb_remove_dups.
Qed.

Lemma built_labels_orderable `{PySet} y :
  orderable y = true → StronglySorted label_lt (built_labels y).
Proof.
  intros Ho. unfold built_labels.
  assert (NoDup (set_iter y)) as Hnd
    by (rewrite set_iter_perm; apply NoDup_remove_dups).
  destruct (py_sorted_orderable (set_iter y)) as [s Hs];
    [by rewrite orderable_set_iter|].
  rewrite Hs. by eapply py_sorted_strict.
Qed.

Lemma built_labels_not_orderable `{PySet} y :
  orderable y = false → built_labels y = set_iter y.
Proof.
  intros Ho. unfold built_labels.
  destruct (py_sorted_not_orderable (set_iter y)) as [e ->];
    [by rewrite orderable_set_iter | done].
Qed.

(** ** C4: the vocabulary built by the first call *)

(** C4, as stated, fails in its fallback: when the labels do not compare, the
    ids follow the enumeration order of the Python set, which need not be the
    order in which the labels were first seen. *)
Lemma fallback_order_is_not_first_seen :
  ¬ (∀ (S : PySet) (y : list label),
        orderable y = false →
        _id_to_label (_convert_y (new_vocabulary None) y).1 = first_seen y).
Proof.
  intros H.
  specialize (H sets_in_reverse_order [LInt 1; LStr "a"] eq_refl).
  vm_compute in H. discriminate.
Qed.

(** C4 (amended). On the first call, with no preset capacity and an empty
    vocabulary, the capacity becomes the number of distinct labels of the
    batch and the vocabulary holds exactly these labels; every label of the
    batch is encoded by its position in the vocabulary. When the labels are
    all integers or all strings the vocabulary is in strictly ascending
    order; otherwise it is in the order in which the interpreter enumerates
    the set of labels (not necessarily the order of first occurrence). The
    labels [["b","a","c"]] give the vocabulary [{a:0, b:1, c:2}] and the ids
    [[1,0,2]], under every enumeration order. *)
Theorem first_call_builds_vocabulary `{PySet} :
  (∀ y : list label,
      let v' := (_convert_y (new_vocabulary None) y).1 in
      label_size v' = Some (Z.of_nat (length (remove_dups y)))
      ∧ _id_to_label v' ≡ₚ remove_dups y
      ∧ _label_to_id v' = dict_of_enumerate 0 (_id_to_label v') ∅
      ∧ (orderable y = true → StronglySorted label_lt (_id_to_label v'))
      ∧ (orderable y = false → _id_to_label v' = set_iter y)
      ∧ ∃ ids, (_convert_y (new_vocabulary None) y).2 = Ok ids
               ∧ ids_index (_id_to_label v') y ids)
  ∧ _convert_y (new_vocabulary None) scenario_labels
    = (Vocabulary (Some 3) [LStr "a"; LStr "b"; LStr "c"]
         (<[LStr "a" := 0]> (<[LStr "b" := 1]> (<[LStr "c" := 2]> ∅))),
       Ok [1; 0; 2]).
Proof.
  split.
  - intros y. destruct (first_call y) as (ids & Hcall & Hids).
    rewrite Hcall. simpl. split_and!; [done | apply built_labels_perm | done | | |].
    + apply built_labels_orderable.
    + apply built_labels_not_orderable.
    + by exists ids.
  - destruct (first_call scenario_labels) as (ids & Hcall & Hids).
    assert (built_labels scenario_labels = [LStr "a"; LStr "b"; LStr "c"]) as Hb.
    { apply (StronglySorted_unique label_lt).
      - by apply built_labels_orderable.
      - repeat constructor.
      - rewrite built_labels_perm. vm_compute remove_dups.
        apply Permutation_swap. }
    rewrite Hcall, Hb.
    assert (ids = [1; 0; 2]) as ->; [|by f_equal].
    rewrite Hb in Hids. unfold ids_index, scenario_labels in Hids.
    repeat match goal with
    | H : Forall2 _ (_ :: _) _ |- _ =>
        apply Forall2_cons_inv_l in H as (? & ? & [? ?] & H & ->)
    | H : Forall2 _ [] _ |- _ => apply Forall2_nil_inv_l in H as ->
    end.
    repeat match goal with
    | H : [_; _; _] !! Z.to_nat ?i = Some _ |- _ =>
        destruct (Z.to_nat i) as [|[|[|?]]] eqn:?; simpl in H;
        try discriminate H; clear H
    end.
    repeat f_equal; lia.
Qed.

Lemma first_call_builds_vocabulary_witness :
  StronglySorted label_lt
    (_id_to_label (@_convert_y sets_in_reverse_order (new_vocabulary None)
                     [LInt 7; LInt 3; LInt 7]).1)
  ∧ _id_to_label (@_convert_y sets_in_reverse_order (new_vocabulary None)
                    [LInt 1; LStr "a"]).1
    = [LStr "a"; LInt 1].
Proof.
  split.
  - apply (proj1 (@first_call_builds_vocabulary sets_in_reverse_order)
             [LInt 7; LInt 3; LInt 7]). reflexivity.
  - apply (proj1 (@first_call_builds_vocabulary sets_in_reverse_order)
             [LInt 1; LStr "a"]). reflexivity.
Defined.

(** ** C5: the capacity of the vocabulary *)

(** Every state a module reaches through [_convert_y] is well formed. *)
Lemma convert_y_calls_vocab_ok `{PySet} ys : ∀ n,
  vocab_ok (convert_y_calls (new_vocabulary n) ys).
Proof.
  intros n. generalize (new_vocabulary_ok n). generalize (new_vocabulary n).
  induction ys as [|y ys IH]; intros v Hv; [done|].
  apply (IH (_convert_y v y).1). by apply convert_y_vocab_ok.
Qed.

(** What a successful call leaves: a capacity, the preset one if there was
    one, and a vocabulary within it. *)
Lemma convert_y_ok_capacity `{PySet} v y v' ids :
  vocab_ok v → _convert_y v y = (v', Ok ids) →
  ∃ cap, label_size v' = Some cap
         ∧ Z.of_nat (size (_label_to_id v')) ≤ cap
         ∧ (truthy (label_size v) = true → label_size v = Some cap).
Proof.
  intros Hv Hcall.
  destruct (convert_y_ok_inv v y v' ids Hv Hcall) as [[Hc (cap & Hcap & Hle)] _].
  exists cap. split_and!; [done | by destruct Hc as (_ & -> & _) |].
  intros Ht. unfold _convert_y in Hcall.
  destruct (check_label_size v y) as [v1|e] eqn:Hck; [|done].
  destruct (check_label_size_ok v y v1 Hv Hck) as (_ & _ & _ & _ & _ & _ & Hsame).
  rewrite (Hsame Ht) in *. clear Hsame.
  rewrite (init_vocabulary v y (proj1 Hv)) in Hcall.
  destruct (is_nil (_id_to_label v));
    apply encode_labels_mono in Hcall as (Hsz & _); simpl in Hsz; congruence.
Qed.

(** C5. From a well-formed vocabulary state (every state a module reaches is
    one), a call leaves the state well formed, whatever its outcome. With a
    capacity set, a batch with more distinct labels than the capacity fails
    at line 126 and changes nothing, and a batch whose labels, added to the
    vocabulary, would exceed the capacity fails with an [AssertionError]. A
    call that succeeds has encoded every label of the batch: the ids are as
    many as the labels and each id decodes to its label; the vocabulary size
    is at most [label_size], which is the preset capacity if there was
    one. *)
Theorem vocabulary_never_exceeds_capacity `{PySet}
    (v : vocabulary) (y : list label) :
  vocab_ok v →
  vocab_ok (_convert_y v y).1
  ∧ (∀ cap, label_size v = Some cap → cap ≠ 0 →
       (cap < Z.of_nat (length (remove_dups y)) →
        _convert_y v y = (v, Raise (AssertionError unique_y_msg)))
       ∧ (cap < Z.of_nat (size (dom (_label_to_id v) ∪ list_to_set y)) →
          ∃ msg, (_convert_y v y).2 = Raise (AssertionError msg)))
  ∧ (∀ ids, (_convert_y v y).2 = Ok ids →
       (∃ cap, label_size (_convert_y v y).1 = Some cap
               ∧ Z.of_nat (size (_label_to_id (_convert_y v y).1)) ≤ cap
               ∧ (truthy (label_size v) = true → label_size v = Some cap))
       ∧ length ids = length y
       ∧ ids_index (_id_to_label (_convert_y v y).1) y ids).
Proof.
  intros Hv. split_and!.
  - by apply convert_y_vocab_ok.
  - intros cap Hcap Hne.
    assert (truthy (label_size v) = true) as Ht.
    { rewrite Hcap. simpl. by apply negb_true_iff, Z.eqb_neq. }
    split.
    + intros Hover. unfold _convert_y, check_label_size. rewrite Ht, Hcap.
      by rewrite (proj2 (Z.leb_gt _ _) Hover).
    + intros Hover. unfold _convert_y.
      destruct (check_label_size v y) as [v1|e] eqn:Hck.
      * destruct (check_label_size_ok v y v1 Hv Hck)
          as (Hids & Hmap & cap' & Hcap' & Hn & Hlen & Hsame).
        rewrite (Hsame Ht) in *. clear Hsame Hids Hmap.
        assert (cap' = cap) as -> by congruence.
        pose proof Hv as [Hc _]. rewrite (init_vocabulary v y Hc).
        destruct (_id_to_label v) as [|l ls] eqn:Hls; simpl.
        -- exfalso. rewrite (consistent_nil_empty v Hc Hls) in Hover.
           rewrite dom_empty_L, (left_id_L ∅ (∪)) in Hover.
           rewrite size_list_to_set_remove_dups in Hover. lia.
        -- destruct (encode_labels_overflow y v [] cap) as [v' ->];
             [| done | done | by eauto].
           split; [done|]. exists cap. by rewrite Hls.
      * simpl. unfold check_label_size in Hck. rewrite Ht, Hcap in Hck.
        destruct (_ <=? _); [done|]. injection Hck as <-. eauto.
  - intros ids Hr.
    destruct (_convert_y v y) as [v' r] eqn:Hcall. simpl in *. subst r.
    destruct (convert_y_ok_inv v y v' ids Hv Hcall) as [[Hc _] HF].
    split_and!; [by eapply convert_y_ok_capacity | by apply Forall2_length in HF |].
    eapply Forall2_impl; [exact HF|]. intros l i Hl. simpl in Hl.
    by apply (consistent_decode _ _ _ Hc).
Qed.

Lemma vocabulary_never_exceeds_capacity_witness :
  let v := (@_convert_y sets_in_list_order (new_vocabulary (Some 2))
              [LStr "up"; LStr "down"]).1 in
  vocab_ok (@_convert_y sets_in_list_order v [LStr "flat"]).1
  ∧ (∃ msg, (@_convert_y sets_in_list_order v [LStr "flat"]).2
            = Raise (AssertionError msg))
  ∧ (∀ ids, (@_convert_y sets_in_list_order v [LStr "down"; LStr "down"]).2 = Ok ids →
       length ids = 2%nat).
Proof.
  intros v.
  assert (vocab_ok v) as Hv by apply convert_y_vocab_ok, new_vocabulary_ok.
  destruct (@vocabulary_never_exceeds_capacity sets_in_list_order v [LStr "flat"] Hv)
    as (Hok & Hcap & _).
  destruct (Hcap 2 eq_refl ltac:(lia)) as [_ Hover].
  destruct (@vocabulary_never_exceeds_capacity sets_in_list_order v
              [LStr "down"; LStr "down"] Hv) as (_ & _ & Hids).
  split_and!; [exact Hok | apply Hover; vm_compute; reflexivity |].
  intros ids Hr. destruct (Hids ids Hr) as (_ & Hlen & _). exact Hlen.
Defined.

(** ** C8: label ids are stable *)

(** C8. After a successful call on a well-formed vocabulary state, encoding
    the same labels again returns the same ids and leaves the state as it is;
    and a label that has an id keeps it through any later sequence of
    [_convert_y] calls, successful or not: the id still decodes to that
    label and is given to no other label. *)
Theorem label_ids_are_stable `{PySet}
    (v : vocabulary) (y : list label) (v1 : vocabulary) (ids : list Z)
    (l : label) (i : Z) (ys : list (list label)) :
  vocab_ok v → _convert_y v y = (v1, Ok ids) → _label_to_id v1 !! l = Some i →
  _convert_y v1 y = (v1, Ok ids)
  ∧ _label_to_id (convert_y_calls v1 ys) !! l = Some i
  ∧ _id_to_label (convert_y_calls v1 ys) !! Z.to_nat i = Some l
  ∧ ∀ l', _label_to_id (convert_y_calls v1 ys) !! l' = Some i → l' = l.
Proof.
  intros Hv Hcall Hl.
  destruct (convert_y_ok_inv v y v1 ids Hv Hcall) as [Hcapped HF].
  pose proof (capped_vocab_ok _ Hcapped) as Hv1.
  destruct (convert_y_calls_keeps ys v1 l i Hv1 Hl) as [[Hc2 _] Hl2].
  split_and!; [| done | by apply (consistent_decode _ _ _ Hc2)
               | intros l' Hl'; by apply (consistent_inj _ _ _ _ Hc2 Hl2 Hl')].
  destruct Hcapped as (Hc & cap & Hcap & Hle).
  assert (_id_to_label v1 ≠ []) as Hne.
  { intros Hnil. rewrite (consistent_nil_empty v1 Hc Hnil) in Hl.
    by rewrite lookup_empty in Hl. }
  assert (cap ≠ 0) as Hcap0.
  { intros ->. destruct (_id_to_label v1); [done | simpl in Hle; lia]. }
  unfold _convert_y, check_label_size. rewrite Hcap. simpl.
  rewrite (proj2 (negb_true_iff _) (proj2 (Z.eqb_neq _ _) Hcap0)).
  assert (Z.of_nat (length (remove_dups y)) ≤ cap) as Hn.
  { rewrite <- size_list_to_set_remove_dups.
    assert (list_to_set y ⊆ dom (_label_to_id v1)) as Hsub%subseteq_size.
    { intros x Hx%elem_of_list_to_set. apply elem_of_dom.
      apply list_elem_of_lookup_1 in Hx as (k & Hk).
      destruct (Forall2_lookup_l _ _ _ _ _ HF Hk) as (j & _ & Hj). eauto. }
    rewrite size_dom in Hsub. destruct Hc as (_ & Hsz & _). lia. }
  rewrite (proj2 (Z.leb_le _ _) Hn).
  rewrite (init_vocabulary v1 y Hc).
  destruct (_id_to_label v1); [done|]. simpl.
  by apply (encode_labels_known y v1 []).
Qed.

Lemma label_ids_are_stable_witness :
  let v1 := Vocabulary (Some 3) [LInt 0; LInt 2]
              (<[LInt 0 := 0]> (<[LInt 2 := 1]> ∅)) in
  let v2 := @convert_y_calls sets_in_reverse_order v1
              [[LInt 5; LInt 2]; [LInt 9]; [LInt 0]] in
  @_convert_y sets_in_reverse_order v1 [LInt 2; LInt 0; LInt 2] = (v1, Ok [1; 0; 1])
  ∧ _label_to_id v2 !! LInt 2 = Some 1
  ∧ _id_to_label v2 !! 1%nat = Some (LInt 2)
  ∧ ∀ l', _label_to_id v2 !! l' = Some 1 → l' = LInt 2.
Proof.
  apply (@label_ids_are_stable sets_in_reverse_order (new_vocabulary (Some 3))
           [LInt 2; LInt 0; LInt 2]).
  - apply new_vocabulary_ok.
  - reflexivity.
  - reflexivity.
Defined.

(** ** C9: the batch size after [convert] *)

Lemma _convert_X_length cfg X V M :
  _convert_X cfg X = Ok (V, M) → length V = length X ∧ length M = length X.
Proof.
  intros H. apply _convert_X_inv in H as (_ & rs & H2 & -> & ->).
  rewrite !length_fmap. by apply Forall2_length in H2 as ->.
Qed.

Lemma check_arguments_X_None `{ClassifierBase} m X y sw Xt tr par :
  check_arguments m X y sw Xt tr par = Ok () → X = None.
Proof.
  unfold check_arguments. destruct (_assert_legal X y sw Xt); simpl; [|done].
  destruct X; [done | done].
Qed.

Lemma encode_inputs_n `{ClassifierBase} c xs a b n :
  encode_inputs c xs = Ok (a, b, n) → n = Z.of_nat (length xs) ∧ xs ≠ [].
Proof.
  unfold encode_inputs. destruct xs as [|x xs]; [done|]. simpl.
  destruct (_convert_X c (x :: xs)) as [[V M]|] eqn:HX; simpl; [|done].
  destruct (np_array Float32 _); simpl; [|done].
  destruct (np_array Int32 _); simpl; [|done].
  intros [= <- <- <-]. apply _convert_X_length in HX as [-> _]. done.
Qed.

(** The later steps of [convert] do not touch [batch_size]. *)
Lemma convert_batch_size `{PySet} `{ClassifierBase} m X y sw xs tr par a b n :
  check_arguments m X y sw (Some xs) tr par = Ok () →
  encode_inputs (cfg m) xs = Ok (a, b, n) →
  batch_size (convert m X y sw (Some xs) tr par).1
  = batch_size (adjust_batch_size n m).
Proof.
  intros Hck Henc. unfold convert. rewrite Hck, Henc. simpl.
  destruct y as [ys|]; simpl.
  - destruct (_convert_y _ ys) as [v [ids|e]]; simpl; [|done].
    destruct (np_array Int32 (py_ints ids)); simpl; [|done].
    by destruct (tr || _).
  - by destruct (tr || _).
Qed.

(** C9, as stated, fails: the value [convert] assigns is not always a
    smaller one. With a configured batch size of 2, a batch of one sample and
    four workers, [batch_size] becomes [max(1, 4) = 4]. *)
Lemma batch_size_is_not_always_shrunk :
  ¬ (∀ (S : PySet) (B : ClassifierBase) (m : classifier)
       (y : option (list label)) (sample_weight : option pyval)
       (X_tokenized : list pyval) (is_training is_parallel : bool),
        let r := convert m None y sample_weight (Some X_tokenized)
                   is_training is_parallel in
        is_ok r.2 = true →
        Z.of_nat (length X_tokenized) < batch_size m →
        batch_size r.1 ≤ batch_size m).
Proof.
  intros H.
  assert (4 ≤ 2) as Hle; [|lia].
  exact (H sets_in_list_order example_base
           (Classifier scenario_cfg (new_vocabulary None) 2 [0; 1; 2; 3])
           None None [scenario_sample] false false eq_refl eq_refl).
Qed.

(** C9 (amended). When [convert] gets as far as [n_inputs] (the arguments
    pass the checks of lines 46-52 and the batch is encoded), [n_inputs] is
    the number of samples of the batch; if it is smaller than [batch_size],
    the module's [batch_size] becomes [max(n_inputs, len(_gpu_ids))],
    otherwise it is left as it was. The new value is smaller than the old
    one exactly when there are fewer workers than the old [batch_size], and
    larger exactly when there are more. This holds whether or not the later
    steps of [convert] raise. *)
Theorem convert_adjusts_batch_size `{PySet} `{ClassifierBase}
    (m : classifier) (X : option pyval) (y : option (list label))
    (sample_weight : option pyval) (X_tokenized : list pyval)
    (is_training is_parallel : bool) (a b : ndarray) (n_inputs : Z) :
  check_arguments m X y sample_weight (Some X_tokenized) is_training is_parallel
  = Ok () →
  encode_inputs (cfg m) X_tokenized = Ok (a, b, n_inputs) →
  let m' := (convert m X y sample_weight (Some X_tokenized)
               is_training is_parallel).1 in
  n_inputs = Z.of_nat (length X_tokenized)
  ∧ (n_inputs < batch_size m →
     batch_size m' = Z.max n_inputs (Z.of_nat (length (_gpu_ids m))))
  ∧ (batch_size m ≤ n_inputs → batch_size m' = batch_size m)
  ∧ (n_inputs < batch_size m →
     (batch_size m' < batch_size m
      ↔ Z.of_nat (length (_gpu_ids m)) < batch_size m)
     ∧ (batch_size m < batch_size m'
        ↔ batch_size m < Z.of_nat (length (_gpu_ids m)))).
Proof.
  intros Hck Henc m'. unfold m'.
  rewrite (convert_batch_size _ _ _ _ _ _ _ _ _ _ Hck Henc).
  split; [by apply encode_inputs_n in Henc as [? _]|].
  unfold adjust_batch_size.
  destruct (Z.ltb_spec n_inputs (batch_size m)); split_and!; simpl; intros;
    done || lia.
Qed.

Lemma convert_adjusts_batch_size_witness :
  let m := Classifier scenario_cfg (new_vocabulary None) 32 [0; 1] in
  let m' := (@convert sets_in_list_order example_base m None
               (Some [LStr "up"]) None (Some [scenario_sample]) true false).1 in
  1 = Z.of_nat (length [scenario_sample])
  ∧ (1 < 32 → batch_size m' = Z.max 1 2)
  ∧ (32 ≤ 1 → batch_size m' = 32)
  ∧ (1 < 32 →
     (batch_size m' < 32 ↔ 2 < 32) ∧ (32 < batch_size m' ↔ 32 < 2)).
Proof.
  apply (@convert_adjusts_batch_size sets_in_list_order example_base
           (Classifier scenario_cfg (new_vocabulary None) 32 [0; 1])
           None (Some [LStr "up"]) None [scenario_sample] true false
           (PyList [scenario_sample]) (PyList [py_ints [1; 1; 1; 1]]) 1);
    reflexivity.
Defined.

(** The new size is not always smaller: with more workers than the
    configured batch size, it grows. *)
Example batch_size_can_grow :
  batch_size (@convert sets_in_list_order example_base
                (Classifier scenario_cfg (new_vocabulary None) 2 [0; 1; 2; 3])
                None None None (Some [scenario_sample]) false false).1 = 4.
Proof. reflexivity. Qed.

(** When the labels are rejected after the batch was encoded, the new batch
    size stays assigned. *)
Example batch_size_kept_on_failure :
  @convert sets_in_list_order example_base
    (Classifier scenario_cfg (new_vocabulary (Some 1)) 8 [0])
    None (Some [LInt 0; LInt 1]) None (Some [scenario_sample; scenario_sample])
    true false
  = (Classifier scenario_cfg (new_vocabulary (Some 1)) 2 [0],
     Raise (AssertionError unique_y_msg)).
Proof. reflexivity. Qed.

(** ** C6: incremental initialisation *)







(** ** The store: what a call leaves of the lists it was given *)

Section store_frame.
Import Store.

Lemma preserves_refl (h : heap) : preserves h h.
Proof. by intros l _. Qed.

Lemma preserves_dom (h h' : heap) : preserves h h' → dom h ⊆ dom h'.
Proof.
  intros Hp l Hl. specialize (Hp l Hl).
  apply elem_of_dom in Hl as [vs Hvs]. apply elem_of_dom. exists vs. congruence.
Qed.

Lemma preserves_trans (h1 h2 h3 : heap) :
  preserves h1 h2 → preserves h2 h3 → preserves h1 h3.
Proof.
  intros H12 H23 l Hl. rewrite <- (H12 l Hl).
  apply H23. by apply (preserves_dom _ _ H12).
Qed.

(** Writing to a list that [h0] does not hold. *)
Lemma preserves_insert (h0 h : heap) l vs :
  preserves h0 h → l ∉ dom h0 → preserves h0 (<[l := vs]> h).
Proof.
  intros Hp Hl l' Hl'. rewrite lookup_insert_ne; [by apply Hp|]. by intros ->.
Qed.

Lemma preserves_alter (h0 h : heap) l f :
  preserves h0 h → l ∉ dom h0 → preserves h0 (alter f l h).
Proof.
  intros Hp Hl l' Hl'. rewrite lookup_alter_ne; [by apply Hp|]. by intros ->.
Qed.

Lemma fresh_not_in (h0 h : heap) :
  preserves h0 h → fresh (dom h) ∉ dom h0.
Proof.
  intros Hp Hin. apply (is_fresh (dom h)). by apply (preserves_dom _ _ Hp).
Qed.

(** The loop of [deepcopy] writes to the new list only, if the copies of
    the elements write to new lists only. *)
Lemma copy_items_preserves rec l' (h0 : heap) :
  (∀ memo h v v' memo' h',
      rec memo h v = Some (v', memo', h') → preserves h h') →
  l' ∉ dom h0 →
  ∀ xs memo h memo' h',
    preserves h0 h →
    copy_items rec l' xs memo h = Some (memo', h') →
    preserves h0 h'.
Proof.
  intros Hrec Hl'. induction xs as [|x xs IH]; intros memo h memo' h' Hp; simpl.
  - by intros [= <- <-].
  - destruct (rec memo h x) as [[[y memo1] h1]|] eqn:Hx; simpl; [|done].
    apply IH. apply preserves_alter; [|done].
    eapply preserves_trans; [exact Hp|]. by eapply Hrec.
Qed.

Lemma deepcopy_preserves fuel : ∀ memo (h : heap) v v' memo' h',
  deepcopy fuel memo h v = Some (v', memo', h') → preserves h h'.
Proof.
  induction fuel as [|n IH]; intros memo h v v' memo' h'.
  - destruct v as [| | | |l]; simpl; try (intros [= <- <- <-]; apply preserves_refl).
    destruct (memo !! l); [|done]. intros [= <- <- <-]. apply preserves_refl.
  - destruct v as [| | | |l]; simpl; try (intros [= <- <- <-]; apply preserves_refl).
    destruct (memo !! l); [intros [= <- <- <-]; apply preserves_refl|].
    destruct (copy_items _ _ _ _ _) as [[memo1 h1]|] eqn:Hc; simpl; [|done].
    intros [= <- <- <-].
    eapply (copy_items_preserves _ _ h IH (is_fresh (dom h))); [|exact Hc].
    apply preserves_insert; [apply preserves_refl | apply is_fresh].
Qed.

(** The copy of a list, made with an empty [memo], is a new list. *)
Lemma deepcopy_new fuel (h : heap) l v' memo' h' :
  deepcopy fuel ∅ h (VRef l) = Some (v', memo', h') →
  v' = VRef (fresh (dom h)).
Proof.
  destruct fuel as [|n]; simpl; rewrite lookup_empty; [done|].
  destruct (copy_items _ _ _ _ _) as [[memo1 h1]|]; simpl; [|done].
  by intros [= <- <- <-].
Qed.

Lemma _convert_x_preserves (h : heap) x h' r :
  Store._convert_x h x = Some (h', r) →
  preserves h h' ∧ ∀ c, r = Ok c → outside h c.
Proof.
  unfold Store._convert_x.
  destruct (getitem0 h x) as [x0|e] eqn:Hx0;
    [|intros [= <- <-]; split; [apply preserves_refl | done]].
  destruct (is_ref x0);
    [|intros [= <- <-]; split; [apply preserves_refl | done]].
  destruct (getitem0 h x0) as [x00|e];
    [|intros [= <- <-]; split; [apply preserves_refl | done]].
  destruct (Store.is_float x00);
    [|intros [= <- <-]; split; [apply preserves_refl | done]].
  destruct (deepcopy _ _ _ _) as [[[c memo] h1]|] eqn:Hd; simpl; [|done].
  intros [= <- <-]. split; [by eapply deepcopy_preserves|].
  intros c' [= <-]. destruct x as [| | | |l]; try done.
  - destruct s; simpl in Hx0; [done|]. simpl in Hd. by simplify_eq.
  - apply deepcopy_new in Hd as ->. simpl. apply is_fresh.
Qed.

Lemma outside_mono (h0 h : heap) v : dom h0 ⊆ dom h → outside h v → outside h0 v.
Proof. destruct v; simpl; try done. intros Hsub Hl Hin. by apply Hl, Hsub. Qed.

Lemma convert_samples_preserves (h0 : heap) X : ∀ (h : heap) acc h' r,
  preserves h0 h →
  Store.convert_samples h X acc = Some (h', r) →
  preserves h0 h'
  ∧ ∀ segs, r = inr segs → ∃ new, segs = acc ++ new ∧ Forall (outside h0) new.
Proof.
  induction X as [|x X IH]; intros h acc h' r Hp; simpl.
  - intros [= <- <-]. split; [done|]. intros segs [= <-].
    exists []. by rewrite app_nil_r.
  - destruct (Store._convert_x h x) as [[h1 [c|e]]|] eqn:Hx; simpl; [| |done].
    + apply _convert_x_preserves in Hx as [Hp1 Hout].
      intros [Hp' Hsegs]%IH; [|by eapply preserves_trans].
      split; [done|]. intros segs (new & -> & HF)%Hsegs.
      exists (c :: new). rewrite <- app_assoc. split; [done|].
      constructor; [|done].
      apply (outside_mono h0 h); [by apply preserves_dom | by apply Hout].
    + apply _convert_x_preserves in Hx as [Hp1 _].
      intros [= <- <-]. split; [by eapply preserves_trans | done].
Qed.

Lemma pad_loop_preserves cfg (h0 : heap) n : ∀ (h : heap) vs ms,
  preserves h0 h → preserves h0 (Store.pad_loop cfg n h vs ms).1.
Proof.
  induction n as [|n IH]; intros h vs ms Hp; simpl; [done|].
  apply IH. apply preserves_insert; [done | by apply fresh_not_in].
Qed.

Lemma encode_segments_preserves cfg (h0 h : heap) segments :
  preserves h0 h → outside h0 segments →
  preserves h0 (Store.encode_segments cfg h segments).1.
Proof.
  intros Hp Hout. unfold Store.encode_segments.
  set (h1 := Store.truncate_segments _ _ _ h).
  assert (preserves h0 h1) as Hp1.
  { unfold h1. destruct segments; simpl; try done. by apply preserves_alter. }
  destruct (_ ≫= _) as [[vs ms]|e]; simpl; [|done].
  pose proof (pad_loop_preserves cfg h0
                (Z.to_nat (max_seq_length cfg - 1 - Z.of_nat (length vs)))
                h1 vs (ms ++ [1]) Hp1) as Hpad.
  by destruct (Store.pad_loop _ _ _ _ _) as [h2 r].
Qed.

Lemma encode_all_preserves cfg (h0 : heap) segs : ∀ (h : heap) vs ms,
  preserves h0 h → Forall (outside h0) segs →
  preserves h0 (Store.encode_all cfg h segs vs ms).1.
Proof.
  induction segs as [|s segs IH]; intros h vs ms Hp HF; simpl; [done|].
  apply Forall_cons in HF as [Hs HF].
  pose proof (encode_segments_preserves cfg h0 h s Hp Hs) as Hp1.
  destruct (Store.encode_segments cfg h s) as [h1 [[v m]|e]]; simpl in *; [|done].
  by apply IH.
Qed.

Lemma _convert_X_preserves cfg (h : heap) X_target h' r :
  Store._convert_X cfg h X_target = Some (h', r) → preserves h h'.
Proof.
  unfold Store._convert_X.
  destruct (iter h X_target) as [samples|e];
    [|intros [= <- <-]; apply preserves_refl].
  destruct (Store.convert_samples h samples []) as [[h1 [e|segs]]|] eqn:Hc;
    simpl; [| |done].
  - apply (convert_samples_preserves h) in Hc as [Hp _]; [|apply preserves_refl].
    by intros [= <- <-].
  - apply (convert_samples_preserves h) in Hc as [Hp Hsegs]; [|apply preserves_refl].
    destruct (Hsegs segs eq_refl) as (new & -> & HF). simpl in *.
    pose proof (encode_all_preserves cfg h new h1 [] [] Hp HF) as Hp2.
    destruct (Store.encode_all cfg h1 new [] []) as [h2 [res|e]];
      intros [= <- <-]; done.
Qed.

End store_frame.

(** ** The store: [deepcopy] returns *)

Section store_total.
Import Store.
Local Open Scope nat_scope.

Context (h0 : heap) (Hclosed : closed h0).

Lemma elements_preserved (h : heap) l :
  preserves h0 h → l ∈ dom h0 → elements h l = elements h0 l.
Proof. intros Hp Hl. unfold elements. by rewrite (Hp l Hl). Qed.

Lemma elements_in l : Forall (value_in h0) (elements h0 l).
Proof.
  unfold elements. destruct (h0 !! l) as [vs|] eqn:Hl; simpl; [|constructor].
  by eapply Hclosed.
Qed.

Lemma size_pending_mono (m1 m2 : gmap loc loc) :
  dom m1 ⊆ dom m2 → size (dom h0 ∖ dom m2) ≤ size (dom h0 ∖ dom m1).
Proof. intros Hsub. apply subseteq_size. set_solver. Qed.

Lemma size_pending_insert (memo : gmap loc loc) l l' :
  l ∈ dom h0 → memo !! l = None →
  size (dom h0 ∖ dom (<[l := l']> memo)) < size (dom h0 ∖ dom memo).
Proof.
  intros Hl Hmemo. apply subset_size. rewrite dom_insert.
  apply not_elem_of_dom in Hmemo. set_solver.
Qed.

(** The loop of [deepcopy] returns if the copies of the elements do. *)
Lemma copy_items_total n l' :
  (∀ memo (h : heap) v,
      preserves h0 h → dom memo ⊆ dom h0 → value_in h0 v →
      size (dom h0 ∖ dom memo) ≤ n →
      ∃ v' memo' h', deepcopy n memo h v = Some (v', memo', h')
                     ∧ dom memo ⊆ dom memo' ∧ dom memo' ⊆ dom h0) →
  l' ∉ dom h0 →
  ∀ xs memo (h : heap),
    Forall (value_in h0) xs → preserves h0 h → dom memo ⊆ dom h0 →
    size (dom h0 ∖ dom memo) ≤ n →
    ∃ memo' h', copy_items (deepcopy n) l' xs memo h = Some (memo', h')
                ∧ dom memo ⊆ dom memo' ∧ dom memo' ⊆ dom h0.
Proof.
  intros Hrec Hl'. induction xs as [|x xs IH]; intros memo h Hxs Hp Hmemo Hsz; simpl.
  - by exists memo, h.
  - apply Forall_cons in Hxs as [Hx Hxs].
    destruct (Hrec memo h x Hp Hmemo Hx Hsz) as (y & memo1 & h1 & Hd & Hsub & Hin).
    rewrite Hd. simpl.
    destruct (IH memo1 (append l' y h1)) as (memo' & h' & Hc & Hsub' & Hin').
    + done.
    + apply preserves_alter; [|done].
      eapply preserves_trans; [exact Hp|]. by eapply deepcopy_preserves.
    + done.
    + pose proof (size_pending_mono _ _ Hsub). lia.
    + exists memo', h'. split_and!; [done | by etrans | done].
Qed.

(** With as much fuel as there are lists not yet copied, [deepcopy]
    returns. *)
Lemma deepcopy_total n : ∀ memo (h : heap) v,
  preserves h0 h → dom memo ⊆ dom h0 → value_in h0 v →
  size (dom h0 ∖ dom memo) ≤ n →
  ∃ v' memo' h', deepcopy n memo h v = Some (v', memo', h')
                 ∧ dom memo ⊆ dom memo' ∧ dom memo' ⊆ dom h0.
Proof.
  induction n as [|n IH]; intros memo h v Hp Hmemo Hv Hsz.
  - destruct v as [| | | |l]; simpl; try by eauto 10.
    destruct (memo !! l) as [l'|] eqn:Hl; [by eauto 10|].
    exfalso. apply not_elem_of_dom in Hl.
    assert (dom h0 ∖ dom memo ≡ ∅) as Hempty by (apply size_empty_iff; lia).
    simpl in Hv. set_solver.
  - destruct v as [| | | |l]; simpl; try by eauto 10.
    destruct (memo !! l) as [l1|] eqn:Hl; [by eauto 10|].
    simpl in Hv. set (l' := fresh (dom h)).
    assert (l' ∉ dom h0) as Hl' by (by apply fresh_not_in).
    destruct (copy_items_total n l' IH Hl' (elements h l)
                (<[l := l']> memo) (<[l' := []]> h))
      as (memo' & h' & Hc & Hsub & Hin).
    + rewrite elements_preserved by done. apply elements_in.
    + by apply preserves_insert.
    + rewrite dom_insert. set_solver.
    + pose proof (size_pending_insert memo l l' Hv Hl). lia.
    + rewrite Hc. simpl. exists (VRef l'), memo', h'.
      split_and!; [done | | done].
      etrans; [|exact Hsub]. rewrite dom_insert. set_solver.
Qed.

Lemma _convert_x_total (h : heap) x :
  preserves h0 h → value_in h0 x →
  ∃ h' r, Store._convert_x h x = Some (h', r).
Proof.
  intros Hp Hx. unfold Store._convert_x.
  destruct (getitem0 h x) as [x0|e]; [|by eauto].
  destruct (is_ref x0); [|by eauto].
  destruct (getitem0 h x0) as [x00|e]; [|by eauto].
  destruct (Store.is_float x00); [|by eauto].
  destruct (deepcopy_total (S (size h)) ∅ h x) as (c & memo & h' & -> & _);
    [done | set_solver | done | | simpl; by eauto].
  rewrite dom_empty, difference_empty, size_dom.
  pose proof (subseteq_size _ _ (preserves_dom _ _ Hp)) as Hle.
  rewrite !size_dom in Hle. lia.
Qed.

Lemma convert_samples_total X : ∀ (h : heap) acc,
  preserves h0 h → Forall (value_in h0) X →
  ∃ h' r, Store.convert_samples h X acc = Some (h', r).
Proof.
  induction X as [|x X IH]; intros h acc Hp HX; simpl; [by eauto|].
  apply Forall_cons in HX as [Hx HX].
  destruct (_convert_x_total h x Hp Hx) as (h1 & r & Hc). rewrite Hc. simpl.
  destruct r as [c|e]; [|by eauto].
  apply IH; [|done].
  eapply preserves_trans; [exact Hp|]. by apply _convert_x_preserves in Hc as [? _].
Qed.

Lemma iter_in X_target samples :
  value_in h0 X_target → iter h0 X_target = Ok samples →
  Forall (value_in h0) samples.
Proof.
  destruct X_target as [| | |s|l]; simpl; try done.
  - intros _ [= <-]. induction s; simpl; by constructor.
  - intros _ [= <-]. apply elements_in.
Qed.

Lemma _convert_X_total cfg X_target :
  value_in h0 X_target →
  ∃ h' r, Store._convert_X cfg h0 X_target = Some (h', r).
Proof.
  intros HX. unfold Store._convert_X.
  destruct (iter h0 X_target) as [samples|e] eqn:Hi; [|by eauto].
  destruct (convert_samples_total samples h0 [])
    as (h1 & r & ->); [apply preserves_refl | by eapply iter_in |].
  simpl. destruct r as [e|segs]; [by eauto|].
  destruct (Store.encode_all cfg h1 segs [] []) as [h2 [res|e]]; by eauto.
Qed.

End store_total.

(** ** C10: the caller's samples are left as they were *)

(** C10. On a store whose references all lead to lists of the store,
    [_convert_X] returns, with a batch or with an exception, and in both
    cases every list the store held before the call holds the same elements
    after it: truncation and padding work on the copies made by
    [_convert_x]. *)
Theorem convert_X_keeps_caller_lists
    (cfg : config) (h : Store.heap) (X_target : Store.value) :
  Store.closed h → Store.value_in h X_target →
  ∃ h' r, Store._convert_X cfg h X_target = Some (h', r)
          ∧ Store.preserves h h'.
Proof.
  intros Hclosed HX.
  destruct (_convert_X_total h Hclosed cfg X_target HX) as (h' & r & Hc).
  exists h', r. split; [done|]. by eapply _convert_X_preserves.
Qed.

Lemma convert_X_keeps_caller_lists_witness :
  ∃ h' r,
    Store._convert_X (Config 3 2 LIFO) Store.example_heap (Store.VRef 0%nat)
    = Some (h', r)
    ∧ Store.preserves Store.example_heap h'.
Proof.
  apply convert_X_keeps_caller_lists.
  - apply (bool_decide_unpack _). vm_compute. exact I.
  - apply (bool_decide_unpack _). vm_compute. exact I.
Defined.

(** The sample at location [1] has three units; under [max_seq_length = 3]
    one of them is removed. With the copy the removal happens on the new list
    at location [5] and the caller's list keeps its three units; had
    [_convert_x] returned its argument, the caller's list would have lost
    one. *)
Example copy_protects_caller_sample :
  (∃ h' r,
      Store._convert_X (Config 3 2 LIFO) Store.example_heap (Store.VRef 0%nat)
      = Some (h', r)
      ∧ h' !! 1%nat = Some [Store.VRef 2%nat; Store.VRef 3%nat; Store.VRef 4%nat]
      ∧ h' !! 5%nat = Some [Store.VRef 7%nat; Store.VRef 8%nat]
      ∧ r = inr ([[Store.VRef 7%nat; Store.VRef 8%nat]], [[1; 1; 1]]))
  ∧ (Store._convert_X_without_copy (Config 3 2 LIFO) Store.example_heap
       (Store.VRef 0%nat)).1 !! 1%nat
    = Some [Store.VRef 3%nat; Store.VRef 4%nat].
Proof.
  split; [|reflexivity]. eexists _, _. split; [reflexivity|].
  split_and!; reflexivity.
Qed.

(** On the example the store model and the value model return the same
    batch: the rows of the store result, read in the final store, are the
    rows of the value result on the batch read in the initial store. *)
Example store_agrees_with_values :
  ∃ h' V M V',
    Store._convert_X (Config 5 2 FIFO) Store.example_heap (Store.VRef 0%nat)
    = Some (h', inr (V, M))
    ∧ mapM (mapM (Store.reify 1 h')) V = Some V'
    ∧ Store.reify 3 Store.example_heap (Store.VRef 0%nat)
      = Some (PyList [scenario_sample])
    ∧ _convert_X (Config 5 2 FIFO) [scenario_sample] = Ok (V', M).
Proof. eexists _, _, _, _. split_and!; reflexivity. Qed.

(** ** The store model returns what the value model returns *)

Section store_reify.
Import Store.
Local Open Scope nat_scope.

Lemma mapM_ext_Forall {A B} (f g : A → option B) (l : list A) :
  Forall (λ x, f x = g x) l → mapM f l = mapM g l.
Proof. induction 1 as [|x l Hx _ IH]; simpl; [done|]. by rewrite Hx, IH. Qed.

Lemma reify_atom k (h : heap) v t :
  is_ref v = false → reify k h v = Some t → ∀ k' h', reify k' h' v = Some t.
Proof. intros Hv Hr k' h'. destruct v, k, k'; simpl in *; congruence. Qed.

Lemma reify_ref k (h : heap) l t :
  reify k h (VRef l) = Some t ↔
  ∃ k0 vs ts, k = S k0 ∧ h !! l = Some vs ∧ t = PyList ts
              ∧ Forall2 (λ v t, reify k0 h v = Some t) vs ts.
Proof.
  destruct k as [|k0]; simpl.
  - split; [done|]. by intros (? & ? & ? & ? & _).
  - destruct (h !! l) as [vs|]; simpl.
    + split.
      * destruct (mapM (reify k0 h) vs) as [ts|] eqn:Hm; simpl; [|done].
        intros [= <-]. apply mapM_Some in Hm. by exists k0, vs, ts.
      * intros (k1 & vs1 & ts & [= <-] & [= <-] & -> & HF).
        apply mapM_Some in HF. by rewrite HF.
    + split; [done|]. by intros (? & ? & ? & _ & ? & _).
Qed.

Lemma reify_preserves (h h2 : heap) k : ∀ v t,
  preserves h h2 → reify k h v = Some t → reify k h2 v = Some t.
Proof.
  induction k as [|k IH]; intros v t Hp.
  - by destruct v.
  - destruct v as [| | | |l]; try done.
    intros (k0 & vs & ts & [= <-] & Hl & -> & HF)%reify_ref.
    apply reify_ref. exists k, vs, ts. split_and!; [done | | done |].
    + rewrite Hp; [done|]. apply elem_of_dom. eauto.
    + eapply Forall2_impl; [exact HF|]. intros v t Hv. by apply IH.
Qed.

Lemma reify_agree (F : gset loc) (h h2 : heap) k :
  closedF F h → (∀ l, l ∈ F → h2 !! l = h !! l) →
  ∀ v, inF F v → reify k h2 v = reify k h v.
Proof.
  intros Hcl Hag. induction k as [|k IH]; intros v Hv.
  - by destruct v.
  - destruct v as [| | | |l]; try done. simpl in *. rewrite (Hag l Hv).
    destruct (h !! l) as [vs|] eqn:Hl; simpl; [|done].
    f_equal. apply mapM_ext_Forall.
    eapply Forall_impl; [by eapply Hcl|]. intros v Hv'. by apply IH.
Qed.

Lemma reify_det (h : heap) k : ∀ k' v t t',
  reify k h v = Some t → reify k' h v = Some t' → t = t'.
Proof.
  induction k as [|k IH]; intros k' v t t'.
  - destruct v, k'; simpl; congruence.
  - destruct v as [| | | |l]; try (destruct k'; simpl; congruence).
    intros (k0 & vs & ts & [= <-] & Hl & -> & HF)%reify_ref
           (k1 & vs' & ts' & -> & Hl' & -> & HF')%reify_ref.
    assert (vs' = vs) as -> by congruence. clear Hl Hl'. f_equal.
    revert ts' HF'. induction HF as [|v t vs ts Hv _ IHF]; intros ts' HF'.
    + apply Forall2_nil_inv_l in HF'. by subst.
    + apply Forall2_cons_inv_l in HF' as (t' & ts'' & Hv' & HF' & ->).
      f_equal; [by eapply IH | by apply IHF].
Qed.

Lemma psize_elem ts t : t ∈ ts → psize t < psize (PyList ts).
Proof.
  simpl. induction 1 as [t ts|t t0 ts _ IH]; simpl; lia.
Qed.

(** Writing to the list at [lc] does not change what a strictly smaller
    value stands for. *)
Lemma reify_alter (h : heap) f lc kc tc k : ∀ v t,
  reify kc h (VRef lc) = Some tc → reify k h v = Some t →
  psize t < psize tc →
  reify k (alter f lc h) v = Some t.
Proof.
  induction k as [|k IH]; intros v t Hc.
  - by destruct v.
  - destruct v as [| | | |l]; try done.
    intros (k0 & vs & ts & [= <-] & Hl & -> & HF)%reify_ref Hsz.
    destruct (decide (l = lc)) as [->|Hne].
    { assert (PyList ts = tc) as <-; [|lia].
      eapply reify_det; [|exact Hc]. apply reify_ref. by exists k, vs, ts. }
    apply reify_ref. exists k, vs, ts. split_and!; [done | | done |].
    + by rewrite lookup_alter_ne.
    + apply Forall2_same_length_lookup_2; [by eapply Forall2_length|].
      intros i v t Hv Ht.
      apply IH; [done | exact (Forall2_lookup_lr _ _ _ _ _ _ HF Hv Ht) |].
      pose proof (psize_elem ts t (list_elem_of_lookup_2 _ _ _ Ht)). lia.
Qed.

End store_reify.

Section deepcopy_correct.
Import Store.
Local Open Scope nat_scope.

Context (h0 : heap).

Lemma inF_mono (F F' : gset loc) v : F ⊆ F' → inF F v → inF F' v.
Proof. destruct v; simpl; try done. intros Hsub Hl. by apply Hsub. Qed.

Lemma copy_ok_agree (F : gset loc) (h h2 : heap) v c :
  closedF F h → (∀ l, l ∈ F → h2 !! l = h !! l) → inF F c →
  copy_ok h0 h v c → copy_ok h0 h2 v c.
Proof.
  intros Hcl Hag Hc Hok k t Hv. rewrite (reify_agree F h h2 k Hcl Hag c Hc).
  by apply Hok.
Qed.

(** A store that differs from [h] outside the finished copies only. *)
Lemma copying_agree (h h2 : heap) memo P F :
  copying h0 h memo P F →
  (∀ l, l ∈ F → h2 !! l = h !! l) → preserves h0 h2 → dom h ⊆ dom h2 →
  copying h0 h2 memo P F.
Proof.
  intros [Hp Hd Hcl Hpend Hdone] Hag Hp2 Hdom. split.
  - done.
  - by etrans.
  - intros l vs Hl Hvs. rewrite (Hag l Hl) in Hvs. by eapply Hcl.
  - intros p (p' & ? & ? & ? & ?)%Hpend. exists p'. split_and!; [done | done | | done].
    by apply Hdom.
  - intros l l' Hl HP. destruct (Hdone l l' Hl HP) as [HF Hok]. split; [done|].
    by eapply (copy_ok_agree F h h2).
Qed.

Lemma copy_items_frame n l' xs : ∀ memo (h : heap) memo' h',
  copy_items (deepcopy n) l' xs memo h = Some (memo', h') →
  ∀ l2, l2 ∈ dom h → l2 ≠ l' → h' !! l2 = h !! l2.
Proof.
  intros memo h memo' h' Hc l2 Hl2 Hne.
  assert (preserves (delete l' h) h') as Hp.
  { eapply (copy_items_preserves (deepcopy n) l' (delete l' h)); [| | |exact Hc].
    - intros. by eapply deepcopy_preserves.
    - rewrite dom_delete. set_solver.
    - intros l Hl. apply elem_of_dom in Hl as [vs Hvs].
      apply lookup_delete_Some in Hvs as [? Hvs]. by rewrite lookup_delete_ne. }
  rewrite (Hp l2); [by rewrite lookup_delete_ne|].
  rewrite dom_delete. set_solver.
Qed.

Lemma copy_items_correct n l l' (P1 : gset loc) :
  deepcopy_spec h0 n → l ∈ P1 →
  ∀ xs ys0 memo (h : heap) F memo' h',
    copy_items (deepcopy n) l' xs memo h = Some (memo', h') →
    copying h0 h memo P1 F → memo !! l = Some l' → h !! l' = Some ys0 →
    Forall (λ x, reifiable h0 x ∧ ∀ p, p ∈ P1 → above h0 p x) xs →
    ∃ F' ys, F ⊆ F' ∧ (∀ l2, l2 ∈ F' → l2 ∈ F ∨ l2 ∉ dom h)
             ∧ copying h0 h' memo' P1 F' ∧ memo ⊆ memo'
             ∧ h' !! l' = Some (ys0 ++ ys)
             ∧ Forall2 (λ x y, inF F' y ∧ copy_ok h0 h' x y) xs ys.
Proof.
  intros Hspec HlP. induction xs as [|x xs IH];
    intros ys0 memo h F memo' h' Hc Hcop Hmemo Hl' Hxs.
  - simpl in Hc. injection Hc as <- <-. exists F, [].
    rewrite app_nil_r. split_and!; [done | by left | done | done | done | constructor].
  - simpl in Hc.
    destruct (deepcopy n memo h x) as [[[y memo1] h1]|] eqn:Hd; simpl in Hc; [|done].
    apply Forall_cons in Hxs as [[Hrx Habove] Hxs].
    destruct (Hspec _ _ _ _ _ _ _ _ Hd Hcop Habove Hrx)
      as (F1 & HF1 & Hnew1 & Hcop1 & Hmemo1 & Hy & Hoky).
    pose proof (deepcopy_preserves _ _ _ _ _ _ _ Hd) as Hp1.
    assert (l' ∈ dom h) as Hl'dom by (apply elem_of_dom; eauto).
    assert (memo1 !! l = Some l') as Hmemo1l by (by eapply lookup_weaken).
    destruct (copying_pending _ _ _ _ _ Hcop1 l HlP) as (p' & Hp' & Hl'F1 & _ & Hl'h0).
    assert (p' = l') as -> by congruence.
    assert (∀ l2, l2 ∈ F1 → append l' y h1 !! l2 = h1 !! l2) as Hag.
    { intros l2 Hl2. unfold append. rewrite lookup_alter_ne; [done|]. by intros <-. }
    assert (dom h1 ⊆ dom (append l' y h1)) as Hdom1
      by (unfold append; by rewrite dom_alter).
    assert (copying h0 (append l' y h1) memo1 P1 F1) as Hcop1'.
    { apply (copying_agree h1); [done | done | | done].
      apply preserves_alter; [|done]. by destruct Hcop1. }
    assert (append l' y h1 !! l' = Some (ys0 ++ [y])) as Hl'1.
    { unfold append. rewrite lookup_alter. rewrite decide_True by done.
      rewrite (Hp1 l' Hl'dom), Hl'. done. }
    destruct (IH _ _ _ _ _ _ Hc Hcop1' Hmemo1l Hl'1 Hxs)
      as (F' & ys & HF' & Hnew' & Hcop' & Hmemo' & Hl'' & HF2).
    pose proof (copy_items_frame _ _ _ _ _ _ _ Hc) as Hfr.
    exists F', (y :: ys). split_and!.
    + by etrans.
    + intros l2 [Hl2|Hl2]%Hnew'.
      * by apply Hnew1.
      * right. intros Hin. apply Hl2, Hdom1. by apply (preserves_dom _ _ Hp1).
    + done.
    + by etrans.
    + by rewrite <- app_assoc in Hl''.
    + constructor; [|done]. split; [by eapply inF_mono|].
      apply (copy_ok_agree F1 h1); [by destruct Hcop1 | | done | done].
      intros l2 Hl2. rewrite Hfr; [by apply Hag | | by intros ->].
      apply Hdom1. by apply (copying_dom _ _ _ _ _ Hcop1).
Qed.

Lemma above_child (l : loc) x xs :
  h0 !! l = Some xs → x ∈ xs → reifiable h0 (VRef l) → above h0 l x.
Proof.
  intros Hl Hx (k & t & Hr) k1 t1 k2 t2 Hr1 Hr2.
  apply reify_ref in Hr1 as (k0 & vs & ts & -> & Hvs & -> & HF).
  assert (vs = xs) as -> by congruence.
  apply list_elem_of_lookup_1 in Hx as (i & Hi).
  destruct (Forall2_lookup_l _ _ _ _ _ HF Hi) as (t' & Ht' & Hrx).
  assert (t2 = t') as -> by (by eapply reify_det).
  apply psize_elem. by eapply list_elem_of_lookup_2.
Qed.

Lemma above_trans (p l : loc) x xs :
  h0 !! l = Some xs → x ∈ xs → reifiable h0 (VRef l) →
  above h0 p (VRef l) → above h0 p x.
Proof.
  intros Hl Hx Hrl Hab k t k' t' Hp Hrx.
  destruct Hrl as (kl & tl & Hrl).
  pose proof (Hab _ _ _ _ Hp Hrl).
  pose proof (above_child l x xs Hl Hx (ex_intro _ kl (ex_intro _ tl Hrl))
                _ _ _ _ Hrl Hrx). lia.
Qed.

Lemma reifiable_child (l : loc) x xs :
  h0 !! l = Some xs → x ∈ xs → reifiable h0 (VRef l) → reifiable h0 x.
Proof.
  intros Hl Hx (k & t & Hr).
  apply reify_ref in Hr as (k0 & vs & ts & -> & Hvs & -> & HF).
  assert (vs = xs) as -> by congruence.
  apply list_elem_of_lookup_1 in Hx as (i & Hi).
  destruct (Forall2_lookup_l _ _ _ _ _ HF Hi) as (t' & Ht' & Hrx).
  by exists k0, t'.
Qed.

Lemma deepcopy_correct n : deepcopy_spec h0 n.
Proof.
  induction n as [|n IH];
    intros memo h v P F c memo' h' Hd Hcop Habove Hreif.
  - destruct v as [| | | |l];
      try (injection Hd as <- <- <-; exists F;
           split_and!; [done | by left | done | done | done |];
           intros k t Hr; by eapply reify_atom).
    simpl in Hd. destruct (memo !! l) as [l1|] eqn:Hl; [|done].
    injection Hd as <- <- <-. exists F.
    destruct (decide (l ∈ P)) as [HP|HP].
    { exfalso. destruct Hreif as (k & t & Hr).
      pose proof (Habove l HP _ _ _ _ Hr Hr). lia. }
    destruct (copying_done _ _ _ _ _ Hcop l l1 Hl HP) as [HF Hok].
    split_and!; [done | by left | done | done | done | done].
  - destruct v as [| | | |l];
      try (injection Hd as <- <- <-; exists F;
           split_and!; [done | by left | done | done | done |];
           intros k t Hr; by eapply reify_atom).
    simpl in Hd. destruct (memo !! l) as [l1|] eqn:Hl.
    { injection Hd as <- <- <-. exists F.
      destruct (decide (l ∈ P)) as [HP|HP].
      { exfalso. destruct Hreif as (k & t & Hr).
        pose proof (Habove l HP _ _ _ _ Hr Hr). lia. }
      destruct (copying_done _ _ _ _ _ Hcop l l1 Hl HP) as [HF Hok].
      split_and!; [done | by left | done | done | done | done]. }
    set (l' := fresh (dom h)) in *.
    destruct (copy_items _ _ _ _ _) as [[memo2 h2]|] eqn:Hc; simpl in Hd; [|done].
    injection Hd as <- <- <-.
    pose proof Hcop as [Hp HFdom Hcl Hpend Hdone].
    pose proof Hreif as (k & t & Hr).
    apply reify_ref in Hr as (k0 & xs & ts & -> & Hl0 & -> & HFr).
    assert (l ∈ dom h0) as Hldom by (apply elem_of_dom; eauto).
    assert (elements h l = xs) as Hel by (unfold elements; by rewrite (Hp l Hldom), Hl0).
    rewrite Hel in Hc.
    assert (l' ∉ dom h) as Hl'h by apply is_fresh.
    assert (l' ∉ dom h0) as Hl'h0 by (by apply fresh_not_in).
    assert (l ∉ P) as HlP.
    { intros (p' & Hp' & _)%Hpend. congruence. }
    assert (copying h0 (<[l' := []]> h) (<[l := l']> memo) (P ∪ {[l]}) F) as Hcop1.
    { split.
      - by apply preserves_insert.
      - rewrite dom_insert. set_solver.
      - intros l2 vs Hl2 Hvs. rewrite lookup_insert_ne in Hvs; [by eapply Hcl|].
        intros <-. by apply Hl'h, HFdom.
      - intros p [Hp1|Hp1%elem_of_singleton]%elem_of_union.
        + destruct (Hpend p Hp1) as (p' & Hp' & ? & ? & ?). exists p'.
          rewrite lookup_insert_ne by congruence. rewrite dom_insert.
          split_and!; [done | done | set_solver | done].
        + subst p. exists l'. rewrite lookup_insert_eq, dom_insert.
          split_and!; [done | | set_solver | done].
          intros Hin. by apply Hl'h, HFdom.
      - intros l2 l2' Hl2 Hl2P.
        assert (l2 ≠ l) as Hne by set_solver.
        rewrite lookup_insert_ne in Hl2 by done.
        destruct (Hdone l2 l2' Hl2) as [HF2 Hok2]; [set_solver|].
        split; [done|]. apply (copy_ok_agree F h); [done | | done | done].
        intros l3 Hl3. rewrite lookup_insert_ne; [done|].
        intros <-. by apply Hl'h, HFdom. }
    destruct (copy_items_correct n l l' (P ∪ {[l]}) IH ltac:(set_solver)
                xs [] _ _ F _ _ Hc Hcop1)
      as (F2 & ys & HF2 & Hnew2 & Hcop2 & Hmemo2 & Hl'2 & Hpairs).
    { by rewrite lookup_insert_eq. }
    { by rewrite lookup_insert_eq. }
    { apply Forall_forall. intros x Hx. split.
      - by eapply reifiable_child.
      - intros p [Hp1|Hp1%elem_of_singleton]%elem_of_union.
        + eapply above_trans; [done | done | done | by apply Habove].
        + subst p. by eapply above_child. }
    simpl in Hl'2.
    assert (memo ⊆ memo2) as Hsub.
    { etrans; [|exact Hmemo2]. by apply insert_subseteq. }
    assert (memo2 !! l = Some l') as Hl2l'.
    { eapply lookup_weaken; [|exact Hmemo2]. by rewrite lookup_insert_eq. }
    pose proof Hcop2 as [Hp2 HFdom2 Hcl2 Hpend2 Hdone2].
    exists (F2 ∪ {[l']}). split_and!.
    + set_solver.
    + intros l2 [Hl2|Hl2%elem_of_singleton]%elem_of_union; [|subst l2; by right].
      destruct (Hnew2 l2 Hl2) as [?|Hnot]; [by left|]. right.
      intros Hin. apply Hnot. rewrite dom_insert. set_solver.
    + split.
      * done.
      * apply union_subseteq. split; [done|].
        apply singleton_subseteq_l, elem_of_dom. eauto.
      * intros l2 vs [Hl2|Hl2%elem_of_singleton]%elem_of_union Hvs.
        -- eapply Forall_impl; [by eapply Hcl2|].
           intros v. apply inF_mono. set_solver.
        -- subst l2. assert (vs = ys) as -> by congruence.
           apply Forall_forall. intros y Hy.
           apply list_elem_of_lookup_1 in Hy as (i & Hi).
           destruct (Forall2_lookup_r _ _ _ _ _ Hpairs Hi) as (x & _ & Hy & _).
           eapply inF_mono; [|exact Hy]. set_solver.
      * intros p Hp1. destruct (Hpend p Hp1) as (p' & Hp' & _ & Hp'dom & Hp'0).
        exists p'. split_and!; [by eapply lookup_weaken | | | done].
        -- destruct (Hpend2 p) as (p2 & Hp2' & Hp2F & _); [set_solver|].
           assert (p2 = p') as -> by (pose proof (lookup_weaken _ _ _ _ Hp' Hsub); congruence).
           intros [?|Heq%elem_of_singleton]%elem_of_union; [done|].
           rewrite Heq in Hp'dom. done.
        -- apply (preserves_dom h). 2: done.
           intros l2 Hl2. destruct (decide (l2 = l')) as [->|Hne]; [done|].
           rewrite (copy_items_frame _ _ _ _ _ _ _ Hc); [by rewrite lookup_insert_ne| |done].
           rewrite dom_insert. set_solver.
      * intros l2 l2' Hl2 Hl2P. destruct (decide (l2 = l)) as [->|Hne].
        -- assert (l2' = l') as -> by congruence. split; [set_solver|].
           intros k1 t1 (k2 & xs' & ts' & -> & Hxs' & -> & HFr')%reify_ref.
           assert (xs' = xs) as -> by congruence.
           apply reify_ref. exists k2, ys, ts'. split_and!; [done | done | done |].
           apply Forall2_same_length_lookup_2.
           { rewrite <- (Forall2_length _ _ _ Hpairs). by eapply Forall2_length. }
           intros i y t1 Hy Ht1.
           destruct (Forall2_lookup_r _ _ _ _ _ Hpairs Hy) as (x & Hx & _ & Hok).
           apply Hok. exact (Forall2_lookup_lr _ _ _ _ _ _ HFr' Hx Ht1).
        -- destruct (Hdone2 l2 l2' Hl2) as [HF2' Hok2]; [set_solver|].
           split; [set_solver | done].
    + done.
    + simpl. set_solver.
    + intros k1 t1 (k2 & xs' & ts' & -> & Hxs' & -> & HFr')%reify_ref.
      assert (xs' = xs) as -> by congruence.
      apply reify_ref. exists k2, ys, ts'. split_and!; [done | done | done |].
      apply Forall2_same_length_lookup_2.
      { rewrite <- (Forall2_length _ _ _ Hpairs). by eapply Forall2_length. }
      intros i y t1 Hy Ht1.
      destruct (Forall2_lookup_r _ _ _ _ _ Hpairs Hy) as (x & Hx & _ & Hok).
      apply Hok. exact (Forall2_lookup_lr _ _ _ _ _ _ HFr' Hx Ht1).
Qed.

End deepcopy_correct.

Section store_refines.
Local Open Scope nat_scope.

Lemma reify_kind k (h : Store.heap) v t :
  Store.reify k h v = Some t →
  Store.is_ref v = is_list t ∧ Store.is_float v = is_float t.
Proof.
  destruct v as [| | | |l].
  1-4: destruct k; simpl; intros [= <-]; done.
  intros (? & ? & ? & _ & _ & -> & _)%reify_ref. done.
Qed.

Lemma getitem0_reify k (h : Store.heap) v t :
  Store.reify k h v = Some t →
  match Store.getitem0 h v, py_getitem0 t with
  | Ok v0, Ok t0 => ∃ k0, Store.reify k0 h v0 = Some t0
  | Raise e, Raise e' => e = e'
  | _, _ => False
  end.
Proof.
  destruct v as [| | |s|l].
  1-3: destruct k; simpl; intros [= <-]; done.
  - destruct k; simpl; intros [= <-]; destruct s; simpl; try done; by exists 0.
  - intros (k0 & vs & ts & -> & Hl & -> & HF)%reify_ref.
    simpl. unfold Store.elements. rewrite Hl. simpl.
    destruct HF as [|v t vs ts Hv _]; [done|]. by exists k0.
Qed.

Lemma len_reify k (h : Store.heap) v t :
  Store.reify k h v = Some t → Store.len h v = py_len t.
Proof.
  destruct v as [| | |s|l].
  1-4: destruct k; simpl; intros [= <-]; done.
  intros (k0 & vs & ts & -> & Hl & -> & HF)%reify_ref.
  simpl. unfold Store.elements. rewrite Hl. simpl.
  by rewrite (Forall2_length _ _ _ HF).
Qed.

Lemma copying_start (h : Store.heap) : Store.copying h h ∅ ∅ ∅.
Proof.
  split.
  - apply preserves_refl.
  - set_solver.
  - intros l vs Hl. set_solver.
  - intros p Hp. set_solver.
  - intros l l' Hl. by rewrite lookup_empty in Hl.
Qed.

(** [_convert_x] on the store does what it does on values, and the copy it
    returns is made of new lists that stand for the same value. *)
Lemma _convert_x_refines (h : Store.heap) x k t h' r :
  Store.reify k h x = Some t → Store._convert_x h x = Some (h', r) →
  match r with
  | Ok c =>
      _convert_x t = Ok t
      ∧ ∃ F : gset Store.loc,
          F ⊆ dom h' ∧ (∀ l, l ∈ F → l ∉ dom h)
          ∧ Store.closedF F h' ∧ Store.inF F c ∧ Store.reify k h' c = Some t
  | Raise e => _convert_x t = Raise e
  end.
Proof.
  intros Hr. unfold Store._convert_x, _convert_x.
  pose proof (getitem0_reify k h x t Hr) as H0.
  destruct (Store.getitem0 h x) as [x0|e], (py_getitem0 t) as [t0|e'];
    try done; cbn -[Store.deepcopy]; [|by intros [= <- <-]; subst].
  destruct H0 as (k0 & Hr0).
  destruct (reify_kind _ _ _ _ Hr0) as [<- _].
  destruct (Store.is_ref x0); [|by intros [= <- <-]].
  pose proof (getitem0_reify k0 h x0 t0 Hr0) as H00.
  destruct (Store.getitem0 h x0) as [x00|e], (py_getitem0 t0) as [t00|e'];
    try done; cbn -[Store.deepcopy]; [|by intros [= <- <-]; subst].
  destruct H00 as (k00 & Hr00).
  destruct (reify_kind _ _ _ _ Hr00) as [_ <-].
  destruct (Store.is_float x00); [|by intros [= <- <-]].
  destruct (Store.deepcopy (S (size h)) ∅ h x) as [[[c memo] h1]|] eqn:Hd;
    cbn -[Store.deepcopy]; [|done].
  intros [= <- <-]. split; [done|].
  destruct (deepcopy_correct h (S (size h)) ∅ h x ∅ ∅ c memo h1 Hd (copying_start h))
    as (F & _ & Hnew & Hcop & _ & Hc & Hok).
  { set_solver. }
  { by exists k, t. }
  exists F. destruct Hcop as [_ Hdom Hcl _ _].
  split_and!; [done | | done | done | by apply Hok].
  intros l Hl. destruct (Hnew l Hl); [set_solver | done].
Qed.

Lemma closedF_agree (F : gset Store.loc) (h h2 : Store.heap) :
  Store.closedF F h → (∀ l, l ∈ F → h2 !! l = h !! l) → Store.closedF F h2.
Proof. intros Hcl Hag l vs Hl Hvs. rewrite (Hag l Hl) in Hvs. by eapply Hcl. Qed.

(** Copies stay what they are when the store changes outside their lists. *)
Lemma copies_agree (h h2 : Store.heap) cs : ∀ ts Fs,
  Store.copies h cs ts Fs → dom h ⊆ dom h2 →
  (∀ F l, F ∈ Fs → l ∈ F → h2 !! l = h !! l) →
  Store.copies h2 cs ts Fs.
Proof.
  induction cs as [|c cs IH]; intros [|t ts] [|F Fs]; simpl; try done.
  intros ((Hdom & Hcl & Hc & k & Hr) & Hdisj & Hrest) Hsub Hag.
  assert (∀ l, l ∈ F → h2 !! l = h !! l) as HagF by (intros l; apply Hag; by left).
  split_and!.
  - by etrans.
  - by eapply closedF_agree.
  - done.
  - exists k. by rewrite (reify_agree F h h2 k Hcl HagF c Hc).
  - done.
  - apply IH; [done | done |]. intros G l HG. apply Hag. by right.
Qed.

Lemma convert_samples_refines X : ∀ ts (h : Store.heap) acc tacc h' r,
  Forall2 (λ x t, ∃ k, Store.reify k h x = Some t) X ts →
  Store.convert_samples h X acc = Some (h', r) →
  match r with
  | inr segs =>
      ∃ new Fs, segs = acc ++ new
                ∧ convert_samples ts tacc = Ok (tacc ++ ts)
                ∧ Store.copies h' new ts Fs
                ∧ Forall (λ F : gset Store.loc, ∀ l, l ∈ F → l ∉ dom h) Fs
  | inl (Store.RaisedValueError s cause) =>
      ∃ i t, X !! i = Some s ∧ ts !! i = Some t
             ∧ convert_samples ts tacc = Raise (ValueError t cause)
  | inl (Store.Raised _) => False
  end.
Proof.
  induction X as [|x X IH]; intros ts h acc tacc h' r HF.
  - apply Forall2_nil_inv_l in HF as ->. simpl. intros [= <- <-].
    exists [], []. by rewrite !app_nil_r.
  - apply Forall2_cons_inv_l in HF as (t & ts' & (k & Hr) & HF & ->).
    cbn [Store.convert_samples convert_samples].
    destruct (Store._convert_x h x) as [[h1 r1]|] eqn:Hx; [|done].
    pose proof (_convert_x_refines h x k t h1 r1 Hr Hx) as Href.
    pose proof (_convert_x_preserves h x h1 r1 Hx) as [Hp1 _].
    cbn [mbind option_bind]. destruct r1 as [c|e].
    + destruct Href as (-> & F & Hdom & Hnew & Hcl & Hc & Hrc).
      intros Hrest.
      pose proof (convert_samples_preserves h1 X h1 _ _ _ (preserves_refl h1) Hrest)
        as [Hp' _].
      specialize (IH ts' h1 (acc ++ [c]) (tacc ++ [t]) h' r).
      destruct r as [[e|s cause]|segs].
      * apply IH; [|done]. eapply Forall2_impl; [exact HF|].
        intros x' t' (k' & Hr'). exists k'. by eapply reify_preserves.
      * destruct IH as (i & t' & Hi & Ht' & Hraise); [|done|].
        { eapply Forall2_impl; [exact HF|].
          intros x' t' (k' & Hr'). exists k'. by eapply reify_preserves. }
        by exists (S i), t'.
      * destruct IH as (new & Fs & -> & Hok & Hcopies & Hnews); [|done|].
        { eapply Forall2_impl; [exact HF|].
          intros x' t' (k' & Hr'). exists k'. by eapply reify_preserves. }
        exists (c :: new), (F :: Fs). rewrite <- !app_assoc in *.
        split_and!; [done | done | | ].
        -- simpl. split_and!.
           ++ etrans; [exact Hdom|]. by apply preserves_dom.
           ++ eapply closedF_agree; [exact Hcl|]. intros l Hl. by apply Hp', Hdom.
           ++ done.
           ++ exists k. by eapply reify_preserves.
           ++ eapply Forall_impl; [exact Hnews|]. intros G HG.
              apply elem_of_disjoint. intros l Hl1 Hl2. by apply (HG l Hl2), Hdom.
           ++ done.
        -- constructor; [done|]. eapply Forall_impl; [exact Hnews|].
           intros G HG l Hl Hin. apply (HG l Hl). by apply (preserves_dom _ _ Hp1).
    + intros [= <- <-]. exists 0, t. by rewrite Href.
Qed.

Lemma truncate_units_Forall2 {A B} (R : A → B → Prop) m limit ys us :
  Forall2 R ys us →
  Forall2 R (truncate_units m limit ys) (truncate_units m limit us).
Proof.
  intros HF. unfold truncate_units. rewrite <- (Forall2_length _ _ _ HF).
  destruct (_ <=? _)%Z; [done|].
  destruct m; [by apply Forall2_drop | by apply Forall2_take].
Qed.

Lemma collect_units_refines cfg (h : Store.heap) ys : ∀ us vacc macc tacc,
  Forall2 (λ y u, Store.len h y = py_len u) ys us →
  match Store.collect_units cfg h ys vacc macc, collect_units cfg us tacc macc with
  | Ok (vs, m), Ok (tvs, m') => m = m' ∧ vs = vacc ++ ys ∧ tvs = tacc ++ us
  | Raise e, Raise e' => e = e'
  | _, _ => False
  end.
Proof.
  induction ys as [|y ys IH]; intros us vacc macc tacc HF.
  - apply Forall2_nil_inv_l in HF as ->. simpl. by rewrite !app_nil_r.
  - apply Forall2_cons_inv_l in HF as (u & us' & Hlen & HF & ->). simpl.
    rewrite Hlen. destruct (py_len u) as [n|e]; simpl; [|done].
    destruct (n =? max_unit_length cfg)%Z; [|done].
    specialize (IH us' (vacc ++ [y]) (macc ++ [1%Z]) (tacc ++ [u]) HF).
    destruct (Store.collect_units _ _ _ _ _) as [[vs m]|],
             (collect_units _ _ _ _) as [[tvs m']|]; try done.
    destruct IH as (-> & -> & ->). by rewrite <- !app_assoc.
Qed.

Lemma reify_zeros (h : Store.heap) m :
  Forall2 (λ v t, Store.reify 0 h v = Some t)
    (replicate m (Store.VInt 0)) (replicate m (PyInt 0)).
Proof. induction m; simpl; by constructor. Qed.

(** The padding loop creates [n] new lists, each the zero unit. *)
Lemma pad_loop_refines cfg n : ∀ (h : Store.heap) vs ms,
  ∃ zs (Z : gset Store.loc),
    (Store.pad_loop cfg n h vs ms).2 = (vs ++ zs, ms ++ replicate n 0%Z)
    ∧ length zs = n
    ∧ Z ⊆ dom (Store.pad_loop cfg n h vs ms).1
    ∧ (∀ l, l ∈ Z → l ∉ dom h)
    ∧ Store.closedF Z (Store.pad_loop cfg n h vs ms).1
    ∧ Forall (λ z, Store.inF Z z
                   ∧ Store.reify 1 (Store.pad_loop cfg n h vs ms).1 z
                     = Some (zero_unit cfg)) zs.
Proof.
  induction n as [|n IH]; intros h vs ms.
  - exists [], ∅. simpl. rewrite !app_nil_r.
    split_and!; [done | done | set_solver | set_solver | | constructor].
    intros l ws Hl. set_solver.
  - simpl. set (l := fresh (dom h)).
    set (row := replicate (Z.to_nat (max_unit_length cfg)) (Store.VInt 0)).
    destruct (IH (<[l := row]> h) (vs ++ [Store.VRef l]) (ms ++ [0%Z]))
      as (zs & Z & Hres & Hlen & Hdom & Hnew & Hcl & Hzs).
    pose proof (pad_loop_preserves cfg (<[l := row]> h) n (<[l := row]> h)
                  (vs ++ [Store.VRef l]) (ms ++ [0%Z]) (preserves_refl _)) as Hp.
    set (h' := (Store.pad_loop cfg n (<[l := row]> h)
                  (vs ++ [Store.VRef l]) (ms ++ [0%Z])).1) in *.
    assert (h' !! l = Some row) as Hl.
    { rewrite Hp; [by rewrite lookup_insert_eq|]. rewrite dom_insert. set_solver. }
    exists (Store.VRef l :: zs), (Z ∪ {[l]}). split_and!.
    + rewrite Hres. by rewrite <- !app_assoc.
    + simpl. by rewrite Hlen.
    + apply union_subseteq. split; [done|].
      apply singleton_subseteq_l, elem_of_dom. eauto.
    + intros l2 [Hl2|Hl2%elem_of_singleton]%elem_of_union.
      * intros Hin. apply (Hnew l2 Hl2). rewrite dom_insert. set_solver.
      * subst l2. apply is_fresh.
    + intros l2 ws [Hl2|Hl2%elem_of_singleton]%elem_of_union Hws.
      * eapply Forall_impl; [by eapply Hcl|]. intros v. apply inF_mono. set_solver.
      * subst l2. rewrite Hl in Hws. injection Hws as <-.
        unfold row. apply Forall_forall. by intros v [-> _]%elem_of_replicate.
    + constructor.
      * split; [simpl; set_solver|].
        apply (proj2 (reify_ref 1 h' l (zero_unit cfg))).
        exists 0, row, (replicate (Z.to_nat (max_unit_length cfg)) (PyInt 0)).
        split_and!; [done | done | done | apply reify_zeros].
      * eapply Forall_impl; [exact Hzs|]. intros z [Hz Hr].
        split; [|done]. eapply inF_mono; [|exact Hz]. set_solver.
Qed.

(** The body of the second loop on a copy: it writes to the copy and to new
    lists only, and returns what the value model returns. *)
Lemma encode_segments_refines cfg (h : Store.heap) lc us k (F : gset Store.loc) :
  F ⊆ dom h → Store.closedF F h → lc ∈ F →
  Store.reify k h (Store.VRef lc) = Some (PyList us) →
  ∀ h' r, Store.encode_segments cfg h (Store.VRef lc) = (h', r) →
  dom h ⊆ dom h'
  ∧ (∀ l, l ∈ dom h → l ∉ F → h' !! l = h !! l)
  ∧ match r with
    | Ok (vs, m) =>
        ∃ tvs (G : gset Store.loc),
          encode_segments cfg (PyList us) = Ok (tvs, m)
          ∧ G ⊆ dom h' ∧ Store.closedF G h'
          ∧ (∀ l, l ∈ G → l ∈ F ∨ l ∉ dom h)
          ∧ Forall2 (λ v tv, Store.inF G v ∧ ∃ j, Store.reify j h' v = Some tv)
              vs tvs
    | Raise e => encode_segments cfg (PyList us) = Raise e
    end.
Proof.
  intros HFdom Hcl HlcF Hr h' r.
  pose proof Hr as (k0 & ys & us0 & -> & Hlc & [= <-] & HFr)%reify_ref.
  unfold Store.encode_segments, encode_segments.
  cbn [Store.truncate_segments truncate_segments Store.iter py_iter].
  set (m := truncate_method cfg). set (lim := (max_seq_length cfg - 1)%Z).
  set (h1 := alter (truncate_units m lim) lc h).
  assert (h1 !! lc = Some (truncate_units m lim ys)) as Hlc1.
  { unfold h1. rewrite lookup_alter, decide_True by done. by rewrite Hlc. }
  assert (dom h1 = dom h) as Hdom1 by (unfold h1; by rewrite dom_alter_L).
  assert (∀ l, l ≠ lc → h1 !! l = h !! l) as Hne1.
  { intros l Hne. unfold h1. by rewrite lookup_alter_ne. }
  assert (Store.elements h1 lc = truncate_units m lim ys) as ->
    by (unfold Store.elements; by rewrite Hlc1).
  pose proof (truncate_units_Forall2 _ m lim _ _ HFr) as HFt.
  set (ys' := truncate_units m lim ys) in *.
  set (us' := truncate_units m lim us) in *.
  assert (Forall2 (λ y u, Store.reify k0 h1 y = Some u) ys' us') as HF1.
  { apply Forall2_same_length_lookup_2; [by eapply Forall2_length|].
    intros i y u Hy Hu. apply (reify_alter h _ lc _ _ k0 y u Hr).
    - exact (Forall2_lookup_lr _ _ _ _ _ _ HFt Hy Hu).
    - apply psize_elem. eapply truncate_units_sub.
      by eapply list_elem_of_lookup_2. }
  assert (Store.closedF F h1) as Hcl1.
  { intros l vs Hl Hvs. destruct (decide (l = lc)) as [->|Hne].
    - rewrite Hlc1 in Hvs. injection Hvs as <-.
      apply Forall_forall. intros y Hy%truncate_units_sub.
      pose proof (Hcl lc ys HlcF Hlc) as Hys. rewrite Forall_forall in Hys. by apply Hys.
    - rewrite Hne1 in Hvs by done. by eapply Hcl. }
  cbn [mbind result_bind].
  pose proof (collect_units_refines cfg h1 ys' us' [] [] []) as Hcoll.
  destruct (Store.collect_units cfg h1 ys' [] []) as [[vs ms]|e],
           (collect_units cfg us' [] []) as [[tvs ms']|e'].
  2-3: exfalso; apply Hcoll; eapply Forall2_impl; [exact HF1|];
       intros y u Hy; exact (len_reify _ _ _ _ Hy).
  - destruct Hcoll as (<- & -> & ->).
    { eapply Forall2_impl; [exact HF1|]. intros y u Hy. exact (len_reify _ _ _ _ Hy). }
    simpl app. cbn [mbind result_bind].
    rewrite pad_loop_replicate.
    rewrite <- (Forall2_length _ _ _ HF1).
    set (n := Z.to_nat (lim - Z.of_nat (length ys'))).
    destruct (pad_loop_refines cfg n h1 ys' (ms ++ [1%Z]))
      as (zs & Z & Hres & Hlen & HZdom & HZnew & HZcl & Hzs).
    pose proof (pad_loop_preserves cfg h1 n h1 ys' (ms ++ [1%Z]) (preserves_refl _))
      as Hp.
    destruct (Store.pad_loop cfg n h1 ys' (ms ++ [1%Z])) as [h2 r2].
    simpl in Hres, HZdom, HZcl, Hzs, Hp. subst r2.
    cbv beta iota zeta. intros [= <- <-]. split_and!.
    + rewrite <- Hdom1. by apply preserves_dom.
    + intros l Hl HlF. rewrite Hp by (by rewrite Hdom1).
      apply Hne1. by intros ->.
    + exists (us' ++ replicate n (zero_unit cfg)), (F ∪ Z). split_and!.
      * done.
      * apply union_subseteq. split; [|done].
        etrans; [exact HFdom|]. rewrite <- Hdom1. by apply preserves_dom.
      * intros l vs [Hl|Hl]%elem_of_union Hvs.
        -- rewrite Hp in Hvs by (rewrite Hdom1; by apply HFdom).
           eapply Forall_impl; [by eapply Hcl1|]. intros v. apply inF_mono. set_solver.
        -- eapply Forall_impl; [by eapply HZcl|]. intros v. apply inF_mono. set_solver.
      * intros l [Hl|Hl]%elem_of_union; [by left|]. right.
        rewrite <- Hdom1. by apply HZnew.
      * apply Forall2_app.
        -- apply Forall2_same_length_lookup_2; [by eapply Forall2_length|].
           intros i y u Hy Hu. split.
           ++ eapply inF_mono; [apply union_subseteq_l|].
              pose proof (Hcl1 lc ys' HlcF Hlc1) as Hys. rewrite Forall_forall in Hys.
              apply Hys. by eapply list_elem_of_lookup_2.
           ++ exists k0. eapply reify_preserves; [exact Hp|].
              exact (Forall2_lookup_lr _ _ _ _ _ _ HF1 Hy Hu).
        -- apply Forall2_same_length_lookup_2; [by rewrite length_replicate|].
           intros i z u Hz Hu. apply lookup_replicate in Hu as [-> _].
           rewrite Forall_forall in Hzs.
           destruct (Hzs z (list_elem_of_lookup_2 _ _ _ Hz)) as [HzZ Hrz].
           split; [eapply inF_mono; [apply union_subseteq_r | done] | by exists 1].
  - intros [= <- <-]. split_and!.
    + by rewrite Hdom1.
    + intros l Hl HlF. apply Hne1. by intros ->.
    + cbn [mbind result_bind]. f_equal. symmetry. apply Hcoll.
      eapply Forall2_impl; [exact HF1|]. intros y u Hy. exact (len_reify _ _ _ _ Hy).
Qed.

Lemma copies_dom (h : Store.heap) cs : ∀ ts Fs,
  Store.copies h cs ts Fs → Forall (λ G, G ⊆ dom h) Fs.
Proof.
  induction cs as [|c cs IH]; intros [|t ts] [|F Fs]; simpl; try done.
  intros ((Hdom & _) & _ & Hrest). constructor; [done | by eapply IH].
Qed.

(** The second loop on the copies returns what the value model returns on
    the samples, and touches no list outside the copies. *)
Lemma encode_all_refines cfg cs : ∀ ts Fs (h : Store.heap) vacc macc tvacc h' r,
  Store.copies h cs ts Fs → Forall (λ t, ∃ us, t = PyList us) ts →
  Store.encode_all cfg h cs vacc macc = (h', r) →
  dom h ⊆ dom h'
  ∧ (∀ l, l ∈ dom h → (∀ F, F ∈ Fs → l ∉ F) → h' !! l = h !! l)
  ∧ match r with
    | Ok (V, M) =>
        ∃ Vnew V', V = vacc ++ Vnew
                   ∧ encode_all cfg ts tvacc macc = Ok (tvacc ++ V', M)
                   ∧ Forall2 (Forall2 (λ v tv, ∃ j, Store.reify j h' v = Some tv))
                       Vnew V'
    | Raise e => encode_all cfg ts tvacc macc = Raise e
    end.
Proof.
  induction cs as [|c cs IH];
    intros [|t ts] [|F Fs] h vacc macc tvacc h' r; simpl; try done.
  - intros _ _ [= <- <-]. split_and!; [done | done |].
    exists [], []. by rewrite !app_nil_r.
  - intros ((HFdom & Hcl & Hc & k & Hr) & Hdisj & Hrest) Hlists.
    apply Forall_cons in Hlists as [(us & ->) Hlists].
    destruct c as [| | | |lc]; try (by destruct k). simpl in Hc.
    destruct (Store.encode_segments cfg h (Store.VRef lc)) as [h1 r1] eqn:He.
    destruct (encode_segments_refines cfg h lc us k F HFdom Hcl Hc Hr h1 r1 He)
      as (Hdom1 & Hfr1 & Hres1).
    destruct r1 as [[vs m]|e].
    + destruct Hres1 as (tvs & G & Hval & HGdom & HGcl & HGnew & Hrows).
      rewrite Hval. cbn [mbind result_bind].
      pose proof (copies_dom _ _ _ _ Hrest) as HFsdom. rewrite Forall_forall in HFsdom.
      rewrite Forall_forall in Hdisj.
      intros Hall.
      destruct (IH ts Fs h1 (vacc ++ [vs]) (macc ++ [m]) (tvacc ++ [tvs]) h' r)
        as (Hdom' & Hfr' & Hres'); [| done | done |].
      { apply (copies_agree h); [done | done |].
        intros G' l HG' Hl. apply Hfr1; [by apply (HFsdom G' HG')|].
        intros HlF. by apply (Hdisj G' HG' l). }
      split_and!.
      * by etrans.
      * intros l Hl Hout. rewrite Hfr'.
        -- apply Hfr1; [done|]. apply Hout. by left.
        -- by apply Hdom1.
        -- intros G' HG'. apply Hout. by right.
      * destruct r as [[V M]|e]; [|done].
        destruct Hres' as (Vnew & V' & -> & Hval' & Hrows').
        exists (vs :: Vnew), (tvs :: V'). rewrite <- !app_assoc in *.
        split_and!; [done | done |]. constructor; [|done].
        eapply Forall2_impl; [exact Hrows|]. intros v tv (Hv & j & Hj).
        exists j. rewrite (reify_agree G h1 h' j HGcl); [done | | done].
        intros l Hl. apply Hfr'; [by apply HGdom|].
        intros G' HG' HlG'. destruct (HGnew l Hl) as [HlF|Hnew].
        -- by apply (Hdisj G' HG' l).
        -- by apply Hnew, (HFsdom G' HG').
    + intros [= <- <-]. rewrite Hres1. split_and!; [done | | done].
      intros l Hl Hout. apply Hfr1; [done|]. apply Hout. by left.
Qed.

(** X17. The store model and the value model agree: on a batch that stands
    for the list [xs], [_convert_X] on the store raises what [_convert_X] on
    values raises, or returns rows that stand, in the final store, for the
    rows [_convert_X] on values returns, with the same masks. The outcome
    depends on the values of the samples only, not on the lists they share:
    every sample is copied before it is truncated. *)
Theorem store_refines_values cfg (h : Store.heap) X_target xs k h' r :
  Store.reify k h X_target = Some (PyList xs) →
  Store._convert_X cfg h X_target = Some (h', r) →
  match r with
  | inr (V, M) =>
      ∃ V', _convert_X cfg xs = Ok (V', M)
            ∧ Forall2 (Forall2 (λ v t, ∃ j, Store.reify j h' v = Some t)) V V'
  | inl (Store.Raised e) => _convert_X cfg xs = Raise e
  | inl (Store.RaisedValueError s cause) =>
      ∃ t j, Store.reify j h s = Some t
             ∧ _convert_X cfg xs = Raise (ValueError t cause)
  end.
Proof.
  intros Hr. destruct X_target as [| | | |lx]; try (by destruct k).
  apply reify_ref in Hr as (k0 & samples & xs0 & -> & Hlx & [= <-] & HF).
  unfold Store._convert_X, _convert_X. cbn [Store.iter].
  assert (Store.elements h lx = samples) as ->
    by (unfold Store.elements; by rewrite Hlx).
  destruct (Store.convert_samples h samples []) as [[h1 r1]|] eqn:Hc;
    cbn [mbind option_bind]; [|done].
  pose proof (convert_samples_refines samples xs h [] [] h1 r1) as Href.
  destruct r1 as [[e|s cause]|segs].
  - exfalso. apply Href; [|done]. eapply Forall2_impl; [exact HF|]. intros x t Hx. by exists k0.
  - intros [= <- <-].
    destruct Href as (i & t & Hi & Ht & Hraise); [|done|].
    { eapply Forall2_impl; [exact HF|]. intros x t Hx. by exists k0. }
    exists t, k0. split; [exact (Forall2_lookup_lr _ _ _ _ _ _ HF Hi Ht)|].
    by rewrite Hraise.
  - destruct Href as (new & Fs & -> & Hok & Hcopies & _); [|done|].
    { eapply Forall2_impl; [exact HF|]. intros x t Hx. by exists k0. }
    rewrite Hok. cbn [mbind result_bind app].
    assert (Forall (λ t, ∃ us, t = PyList us) xs) as Hlists.
    { apply convert_samples_inv in Hok as [_ Hall].
      eapply Forall_impl; [exact Hall|]. intros t Ht.
      destruct (_convert_x_is_list t t Ht) as (u & us & ->). eauto. }
    destruct (Store.encode_all cfg h1 new [] []) as [h2 r2] eqn:He.
    destruct (encode_all_refines cfg new xs Fs h1 [] [] [] h2 r2 Hcopies Hlists He)
      as (_ & _ & Hres).
    destruct r2 as [[V M]|e]; intros [= <- <-]; [|done].
    destruct Hres as (Vnew & V' & -> & Hval & Hrows). by exists V'.
Qed.

End store_refines.

(** ** More on [_convert_x] and [_convert_X] *)

(** X1. [_convert_x] accepts exactly the lists whose first element is a list
    whose first element is a float, and returns a value equal to its
    argument: of a sample only the first entry of the first unit is
    inspected. *)
Theorem convert_x_checks_first_entry_only (x c : pyval) :
  _convert_x x = Ok c
  ↔ c = x ∧ ∃ f fs us, x = PyList (PyList (PyFloat f :: fs) :: us).
Proof.
  split.
  - intros Hx. pose proof (_convert_x_id _ _ Hx) as ->. split; [done|].
    unfold _convert_x in Hx.
    destruct x as [| | |s|[|x0 us]]; simpl in Hx; try done.
    { by destruct s. }
    destruct x0 as [| | |s|[|x00 fs]]; simpl in Hx; try done.
    destruct x00; simpl in Hx; try done. eauto.
  - intros (-> & f & fs & us & ->). done.
Qed.

Lemma convert_x_checks_first_entry_only_witness :
  _convert_x (PyList [PyList [PyFloat 1%float; PyStr "a"]; PyNone; PyList []])
  = Ok (PyList [PyList [PyFloat 1%float; PyStr "a"]; PyNone; PyList []]).
Proof.
  apply (proj2 (convert_x_checks_first_entry_only _ _)).
  split; [reflexivity|]. by eexists _, _, _.
Defined.

Lemma accepted_spec cfg s :
  accepted cfg s = true
  ↔ _convert_x s = Ok s
    ∧ Forall (λ u, py_len u = Ok (max_unit_length cfg)) (kept_units cfg s).
Proof.
  unfold accepted. rewrite andb_true_iff, forallb_forall, Forall_forall.
  split.
  - intros [Hx Hu]. split.
    + destruct (_convert_x s) as [c|] eqn:Hc; [|done].
      by rewrite (_convert_x_id _ _ Hc).
    + intros u Hu'. apply list_elem_of_In, Hu in Hu'. unfold has_unit_length in Hu'.
      destruct (py_len u); [|done]. by apply Z.eqb_eq in Hu' as ->.
  - intros [Hx Hu]. split; [by rewrite Hx|].
    intros u Hu'%list_elem_of_In%Hu. unfold has_unit_length. rewrite Hu'.
    apply Z.eqb_refl.
Qed.

Lemma accepted_encode cfg s :
  accepted cfg s = true →
  encode_segments cfg s = Ok (kept_values cfg s, kept_mask cfg s).
Proof.
  intros [Hx Hu]%accepted_spec.
  destruct (_convert_x_is_list _ _ Hx) as (u & us & ->).
  rewrite (encode_segments_list _ _ Hu).
  unfold kept_values, kept_mask, kept_padding.
  by rewrite replicate_S_end, <- app_assoc.
Qed.

Lemma convert_X_accepted cfg X :
  forallb (accepted cfg) X = true →
  _convert_X cfg X = Ok (kept_values cfg <$> X, kept_mask cfg <$> X).
Proof.
  intros HX. rewrite forallb_forall in HX.
  assert (Forall (λ s, accepted cfg s = true) X) as HF.
  { apply Forall_forall. intros s Hs. by apply HX, list_elem_of_In. }
  unfold _convert_X. rewrite (convert_samples_ok X []); simpl.
  2:{ eapply Forall_impl; [exact HF|]. by intros s [? _]%accepted_spec. }
  rewrite (encode_all_ok cfg X ((λ s, (kept_values cfg s, kept_mask cfg s)) <$> X)).
  { simpl. f_equal. f_equal; rewrite <- list_fmap_compose; by apply list_fmap_ext. }
  apply Forall2_fmap_r, Forall_Forall2_diag.
  eapply Forall_impl; [exact HF|]. intros s Hs. by apply accepted_encode.
Qed.

Lemma convert_X_ok_accepted cfg X V M :
  _convert_X cfg X = Ok (V, M) → forallb (accepted cfg) X = true.
Proof.
  intros HX. apply _convert_X_inv in HX as (HF & rs & H2 & _).
  apply forallb_forall. intros s Hs%list_elem_of_In.
  apply accepted_spec. rewrite Forall_forall in HF. split; [by apply HF|].
  destruct (_convert_x_is_list s s (HF _ Hs)) as (u & us & ->).
  apply list_elem_of_lookup_1 in Hs as (i & Hi).
  destruct (Forall2_lookup_l _ _ _ _ _ H2 Hi) as ([v m] & _ & He).
  by eapply encode_segments_inv.
Qed.

(** X2. [_convert_X] succeeds exactly when every sample of the batch passes
    [_convert_x] and every unit it keeps after truncation has the unit
    length; units removed by the truncation are not measured. The batch it
    returns is then, sample by sample, the kept units followed by zero rows,
    and as many ones as kept units plus one followed by zeros. *)
Theorem convert_X_closed_form (cfg : config) (X : list pyval) :
  is_ok (_convert_X cfg X) = forallb (accepted cfg) X
  ∧ (forallb (accepted cfg) X = true →
     _convert_X cfg X = Ok (kept_values cfg <$> X, kept_mask cfg <$> X)).
Proof.
  split; [|apply convert_X_accepted].
  destruct (forallb (accepted cfg) X) eqn:Hacc.
  - by rewrite convert_X_accepted.
  - destruct (_convert_X cfg X) as [[V M]|e] eqn:HX; [|done].
    apply convert_X_ok_accepted in HX. congruence.
Qed.

Lemma convert_X_closed_form_witness :
  _convert_X (Config 3 2 LIFO)
    [PyList [unit_of [1%float]; unit_of [2%float; 2%float]; unit_of [3%float; 3%float]];
     PyList [unit_of [4%float; 4%float]]]
  = Ok ([[unit_of [2%float; 2%float]; unit_of [3%float; 3%float]];
         [unit_of [4%float; 4%float]; PyList [PyInt 0; PyInt 0]]],
        [[1; 1; 1]; [1; 1; 0]]).
Proof.
  exact (proj2 (convert_X_closed_form (Config 3 2 LIFO)
                  [PyList [unit_of [1%float]; unit_of [2%float; 2%float];
                           unit_of [3%float; 3%float]];
                   PyList [unit_of [4%float; 4%float]]]) eq_refl).
Defined.

Lemma convert_samples_stops pre s post acc cause :
  Forall (λ x, is_ok (_convert_x x) = true) pre →
  _convert_x s = Raise cause →
  convert_samples (pre ++ s :: post) acc = Raise (ValueError s cause).
Proof.
  intros Hpre Hs. revert acc.
  induction Hpre as [|x pre Hx _ IH]; intros acc; simpl.
  - by rewrite Hs.
  - destruct (_convert_x x); [apply IH | done].
Qed.

(** X3. The format of every sample is checked before any unit is measured:
    when a sample is rejected by [_convert_x] and the samples before it are
    not, [_convert_X] raises the [ValueError] of lines 88-92 for that sample,
    whatever the unit lengths of the batch and the configuration are. *)
Theorem format_errors_come_first
    (cfg : config) (pre : list pyval) (s : pyval) (post : list pyval) (cause : exn) :
  Forall (λ x, is_ok (_convert_x x) = true) pre →
  _convert_x s = Raise cause →
  _convert_X cfg (pre ++ s :: post) = Raise (ValueError s cause).
Proof.
  intros Hpre Hs. unfold _convert_X.
  by rewrite (convert_samples_stops pre s post [] cause Hpre Hs).
Qed.

Lemma format_errors_come_first_witness :
  _convert_X scenario_cfg
    ([PyList [unit_of [1%float; 1%float; 1%float]]] ++ PyList [] :: [PyNone])
  = Raise (ValueError (PyList []) IndexError).
Proof.
  apply format_errors_come_first; [|reflexivity].
  repeat constructor.
Defined.

Lemma forallb_app' {A} (f : A → bool) l1 l2 :
  forallb f (l1 ++ l2) = forallb f l1 && forallb f l2.
Proof. induction l1 as [|x l1 IH]; simpl; [done|]. by rewrite IH, andb_assoc. Qed.

(** X4. Encoding a batch is encoding its parts: [_convert_X] succeeds on
    [X1 ++ X2] exactly when it succeeds on [X1] and on [X2], and the rows and
    masks it returns are those of [X1] followed by those of [X2]. The
    encoding of a sample does not depend on the rest of the batch. *)
Theorem convert_X_app (cfg : config) (X1 X2 : list pyval)
    (V : list (list pyval)) (M : list (list Z)) :
  _convert_X cfg (X1 ++ X2) = Ok (V, M)
  ↔ ∃ V1 M1 V2 M2,
      _convert_X cfg X1 = Ok (V1, M1) ∧ _convert_X cfg X2 = Ok (V2, M2)
      ∧ V = V1 ++ V2 ∧ M = M1 ++ M2.
Proof.
  split.
  - intros HX. pose proof (convert_X_ok_accepted _ _ _ _ HX) as Hacc.
    rewrite (convert_X_accepted _ _ Hacc) in HX. simplify_eq.
    rewrite forallb_app' in Hacc. apply andb_true_iff in Hacc as [H1 H2].
    eexists _, _, _, _.
    split_and!; [by apply convert_X_accepted | by apply convert_X_accepted | |];
      by rewrite fmap_app.
  - intros (V1 & M1 & V2 & M2 & H1 & H2 & -> & ->).
    pose proof (convert_X_ok_accepted _ _ _ _ H1) as Ha1.
    pose proof (convert_X_ok_accepted _ _ _ _ H2) as Ha2.
    rewrite (convert_X_accepted _ _ Ha1) in H1.
    rewrite (convert_X_accepted _ _ Ha2) in H2. simplify_eq.
    rewrite convert_X_accepted by (by rewrite forallb_app', Ha1, Ha2).
    by rewrite !fmap_app.
Qed.

Lemma convert_X_app_witness :
  _convert_X scenario_cfg ([scenario_sample] ++ [PyList [unit_of [4%float; 4%float]]])
  = Ok ([sample_units scenario_sample]
        ++ [[unit_of [4%float; 4%float];
             PyList [PyInt 0; PyInt 0]; PyList [PyInt 0; PyInt 0]]],
        [[1; 1; 1; 1]] ++ [[1; 1; 0; 0]]).
Proof.
  apply (proj2 (convert_X_app scenario_cfg _ _ _ _)).
  eexists _, _, _, _. split_and!; reflexivity.
Defined.

(** ** The encoded batch and the placeholders *)

Lemma kept_units_length cfg s :
  1 ≤ max_seq_length cfg →
  Z.of_nat (length (kept_units cfg s)) ≤ max_seq_length cfg - 1.
Proof.
  intros H. unfold kept_units. rewrite truncate_units_length by lia. lia.
Qed.

(** The rows of an accepted sample all have the unit length: the kept units
    were measured, and a zero row is only added when a unit was kept, whose
    length is then not negative. *)
Lemma kept_values_rows cfg s :
  1 ≤ max_seq_length cfg → accepted cfg s = true →
  Forall (λ u, py_len u = Ok (max_unit_length cfg)) (kept_values cfg s).
Proof.
  intros Hm [Hx Hu]%accepted_spec. unfold kept_values.
  apply Forall_app. split; [done|].
  apply Forall_forall. intros z [-> Hpad]%elem_of_replicate.
  unfold kept_padding in Hpad.
  destruct (kept_units cfg s) as [|u us'] eqn:Hk.
  - exfalso. destruct (_convert_x_is_list _ _ Hx) as (u & us & ->).
    assert (length (kept_units cfg (PyList (u :: us))) = 0%nat) as Hlen
      by (by rewrite Hk).
    unfold kept_units in Hlen. rewrite truncate_units_length in Hlen by lia.
    cbn [length sample_units] in Hlen, Hpad. lia.
  - apply Forall_cons in Hu as [Hu _]. unfold zero_unit. simpl.
    rewrite length_replicate. f_equal.
    destruct u; simpl in Hu; try done; injection Hu as Hu; lia.
Qed.

Lemma has_dims_row k u :
  py_len u = Ok k → has_dims [Some k] u = true.
Proof. intros H. simpl. rewrite H. by rewrite Z.eqb_refl. Qed.

Lemma forallb_Forall_true {A} (f : A → bool) (l : list A) :
  Forall (λ x, f x = true) l → forallb f l = true.
Proof. induction 1 as [|x l Hx _ IH]; simpl; [done|]. by rewrite Hx, IH. Qed.

(** X5. The batch [_convert_X] returns has the shapes [_set_placeholders]
    declares, provided [max_seq_length] is at least 1: every sample has
    [max_seq_length - 1] rows of [max_unit_length] entries for
    ["input_values"], and a mask of [max_seq_length] entries for
    ["input_mask"]. *)
Theorem convert_X_fits_placeholders
    (cfg : config) (X : list pyval) (V : list (list pyval)) (M : list (list Z)) :
  1 ≤ max_seq_length cfg →
  _convert_X cfg X = Ok (V, M) →
  ∃ sv sm,
    _set_placeholders cfg !! "input_values"%string = Some (Float32, sv)
    ∧ _set_placeholders cfg !! "input_mask"%string = Some (Int32, sm)
    ∧ has_dims sv (PyList (PyList <$> V)) = true
    ∧ has_dims sm (PyList (py_ints <$> M)) = true.
Proof.
  intros Hm HX. pose proof (convert_X_ok_accepted _ _ _ _ HX) as Hacc.
  rewrite (convert_X_accepted _ _ Hacc) in HX. simplify_eq.
  eexists _, _. split_and!; [reflexivity | reflexivity | |].
  - cbn [has_dims py_len andb]. apply forallb_Forall_true.
    rewrite <- list_fmap_compose. apply Forall_fmap, Forall_forall.
    intros s Hs. cbn [compose has_dims py_len].
    assert (accepted cfg s = true) as Hs'.
    { rewrite forallb_forall in Hacc. by apply Hacc, list_elem_of_In. }
    apply andb_true_iff. split.
    + apply Z.eqb_eq. unfold kept_values, kept_padding.
      rewrite length_app, length_replicate.
      pose proof (kept_units_length cfg s Hm). lia.
    + apply forallb_Forall_true.
      eapply Forall_impl; [by apply kept_values_rows|].
      intros u Hu. by apply has_dims_row.
  - cbn [has_dims py_len andb]. apply forallb_Forall_true.
    rewrite <- list_fmap_compose. apply Forall_fmap, Forall_forall.
    intros s Hs. cbn [compose has_dims py_len py_ints].
    rewrite andb_true_r. apply Z.eqb_eq. unfold kept_mask, kept_padding.
    rewrite length_fmap, length_app, !length_replicate.
    pose proof (kept_units_length cfg s Hm). lia.
Qed.

Lemma convert_X_fits_placeholders_witness :
  ∃ sv sm,
    _set_placeholders scenario_cfg !! "input_values"%string = Some (Float32, sv)
    ∧ _set_placeholders scenario_cfg !! "input_mask"%string = Some (Int32, sm)
    ∧ has_dims sv (PyList (PyList <$>
        [[unit_of [1%float; 1%float]; unit_of [2%float; 2%float];
          unit_of [3%float; 3%float]]])) = true
    ∧ has_dims sm (PyList (py_ints <$> [[1; 1; 1; 1]])) = true.
Proof.
  apply (convert_X_fits_placeholders scenario_cfg [scenario_sample]).
  - simpl. lia.
  - reflexivity.
Defined.

(** ** More on [convert] *)

(** X6. [convert] raises, and leaves the module as it was, whenever [X] is
    given, or [is_training] is set and [y] is not given, or [is_parallel] is
    set while [label_size] is [None] or [0], or [X_tokenized] is the empty
    list (the empty list is handed to [_convert_X] as [None]). This holds
    for any [_assert_legal]. *)
Theorem convert_rejected_arguments `{PySet} `{ClassifierBase}
    (m : classifier) (X : option pyval) (y : option (list label))
    (sample_weight : option pyval) (X_tokenized : option (list pyval))
    (is_training is_parallel : bool) :
  X ≠ None
  ∨ (is_training = true ∧ y = None)
  ∨ (is_parallel = true ∧ truthy (label_size (vocab m)) = false)
  ∨ X_tokenized = Some [] →
  ∃ e, convert m X y sample_weight X_tokenized is_training is_parallel
       = (m, Raise e).
Proof.
  intros Hbad. unfold convert.
  destruct (check_arguments m X y sample_weight X_tokenized is_training is_parallel)
    as [[]|e] eqn:Hck; [|by eauto].
  unfold check_arguments in Hck.
  destruct (_assert_legal X y sample_weight X_tokenized); simpl in Hck; [|done].
  destruct Hbad as [HX | [[-> ->] | [[-> Hl] | ->]]].
  - by rewrite bool_decide_true in Hck.
  - destruct (bool_decide (X ≠ None)); [done|]. simpl in Hck. done.
  - destruct (bool_decide (X ≠ None)); [done|].
    destruct (is_training && _); [done|]. rewrite Hl in Hck. done.
  - simpl. by eauto.
Qed.

Lemma convert_rejected_arguments_witness :
  ∃ e, @convert sets_in_list_order example_base
         (Classifier scenario_cfg (new_vocabulary (Some 0)) 32 [0])
         None (Some [LInt 1]) None (Some [scenario_sample]) true true
       = (Classifier scenario_cfg (new_vocabulary (Some 0)) 32 [0], Raise e).
Proof.
  apply convert_rejected_arguments. right. right. left. split; reflexivity.
Defined.

(** X7. When [convert] returns a dictionary, [X] was [None] and the keys are
    exactly: ["input_values"] and ["input_mask"] if [X_tokenized] was given,
    ["label_ids"] if [y] was given, ["sample_weight"] if [is_training] was
    set or [y] was given. Each of them is the name of a placeholder. *)
Theorem convert_returns_placeholder_keys `{PySet} `{ClassifierBase}
    (m : classifier) (X : option pyval) (y : option (list label))
    (sample_weight : option pyval) (X_tokenized : option (list pyval))
    (is_training is_parallel : bool) (m' : classifier) (data : gmap string ndarray) :
  convert m X y sample_weight X_tokenized is_training is_parallel = (m', Ok data) →
  X = None
  ∧ dom data = returned_keys y X_tokenized is_training
  ∧ dom data ⊆ dom (_set_placeholders (cfg m)).
Proof.
  intros Hc.
  assert (X = None ∧ dom data = returned_keys y X_tokenized is_training) as [-> Hdom].
  { unfold convert in Hc.
    destruct (check_arguments _ _ _ _ _ _ _) as [[]|e] eqn:Hck; [|done].
    split; [by eapply check_arguments_X_None|].
    unfold returned_keys.
    destruct X_tokenized as [xs|]; simpl in Hc.
    - destruct (encode_inputs (cfg m) xs) as [[[a b] n]|] eqn:Henc; simpl in Hc; [|done].
      destruct y as [ys|]; simpl in Hc.
      + destruct (_convert_y _ ys) as [v [ids|]]; simpl in Hc; [|done].
        destruct (np_array Int32 (py_ints ids)); simpl in Hc; [|done].
        rewrite orb_true_r in *.
        destruct (_convert_sample_weight _ _); simpl in Hc; [|done].
        destruct (np_array Float32 _); simpl in Hc; [|done].
        simplify_eq. rewrite !dom_insert_L, dom_empty_L. set_solver.
      + rewrite orb_false_r in *. destruct is_training.
        * destruct (_convert_sample_weight _ _); simpl in Hc; [|done].
          destruct (np_array Float32 _); simpl in Hc; [|done].
          simplify_eq. rewrite !dom_insert_L, dom_empty_L. set_solver.
        * simplify_eq. rewrite !dom_insert_L, dom_empty_L. set_solver.
    - destruct y as [ys|]; simpl in Hc.
      + destruct (_convert_y _ ys) as [v [ids|]]; simpl in Hc; [|done].
        destruct (np_array Int32 (py_ints ids)); simpl in Hc; [|done].
        rewrite orb_true_r in *.
        destruct (_convert_sample_weight _ _); simpl in Hc; [|done].
        destruct (np_array Float32 _); simpl in Hc; [|done].
        simplify_eq. rewrite !dom_insert_L, dom_empty_L. set_solver.
      + rewrite orb_false_r in *. destruct is_training.
        * destruct (_convert_sample_weight _ _); simpl in Hc; [|done].
          destruct (np_array Float32 _); simpl in Hc; [|done].
          simplify_eq. rewrite !dom_insert_L, dom_empty_L. set_solver.
        * simplify_eq. rewrite dom_empty_L. set_solver. }
  split_and!; [done | done |]. rewrite Hdom.
  unfold _set_placeholders, returned_keys. rewrite !dom_insert_L, dom_empty_L.
  destruct X_tokenized, y, is_training; simpl; set_solver.
Qed.

Lemma convert_returns_placeholder_keys_witness :
  let data : gmap string pyval :=
    <["input_mask"%string := PyList [py_ints [1; 1; 1; 1]]]>
      (<["input_values"%string := PyList [PyList (sample_units scenario_sample)]]> ∅) in
  dom data = returned_keys None (Some [scenario_sample]) false
  ∧ dom data ⊆ dom (_set_placeholders scenario_cfg).
Proof.
  intros data.
  refine (proj2 (@convert_returns_placeholder_keys sets_in_list_order example_base
                   (Classifier scenario_cfg (new_vocabulary None) 32 [0])
                   None None None (Some [scenario_sample]) false false
                   (Classifier scenario_cfg (new_vocabulary None) 1 [0]) data _)).
  vm_compute. reflexivity.
Defined.

(** The steps of [convert] after the inputs, on the module [m1] the first
    step left: they assign nothing but the vocabulary. *)
Ltac convert_tail y Hvoc :=
  destruct y; simpl;
  [ try rewrite Hvoc;
    match goal with |- context [_convert_y ?v ?ys] =>
      destruct (_convert_y v ys) as [? [?|?]] eqn:?
    end; simpl;
    [ match goal with |- context [np_array Int32 ?p] =>
        destruct (np_array Int32 p)
      end; simpl; [rewrite orb_true_r; simpl|]
    | ];
    (split_and!; [done | done | | by auto]);
    right; eexists; (split; [done|]);
    match goal with Heq : _convert_y _ _ = _ |- _ => by rewrite Heq end
  | destruct (_ || _); simpl; split_and!; auto ].

(** X8. What [convert] assigns, whatever its outcome: never the
    configuration nor [_gpu_ids]; the vocabulary only through [_convert_y],
    so not at all when [y] is not given; [batch_size] only when
    [X_tokenized] is given and holds fewer samples than [batch_size], and
    then the new value is the larger of the number of samples and the number
    of workers. *)
Theorem convert_assigns_only `{PySet} `{ClassifierBase}
    (m : classifier) (X : option pyval) (y : option (list label))
    (sample_weight : option pyval) (X_tokenized : option (list pyval))
    (is_training is_parallel : bool) :
  let m' := (convert m X y sample_weight X_tokenized is_training is_parallel).1 in
  cfg m' = cfg m ∧ _gpu_ids m' = _gpu_ids m
  ∧ (vocab m' = vocab m
     ∨ ∃ ys, y = Some ys ∧ vocab m' = (_convert_y (vocab m) ys).1)
  ∧ (batch_size m' = batch_size m
     ∨ ∃ xs, X_tokenized = Some xs
             ∧ Z.of_nat (length xs) < batch_size m
             ∧ batch_size m'
               = Z.max (Z.of_nat (length xs)) (Z.of_nat (length (_gpu_ids m)))).
Proof.
  unfold convert.
  destruct (check_arguments _ _ _ _ _ _ _) as [[]|e] eqn:Hck; simpl; [|by auto].
  destruct X_tokenized as [xs|]; simpl.
  - destruct (encode_inputs (cfg m) xs) as [[[a b] n]|e] eqn:Henc; simpl; [|by auto].
    pose proof (encode_inputs_n _ _ _ _ _ Henc) as [-> _].
    assert (cfg (adjust_batch_size (Z.of_nat (length xs)) m) = cfg m
            ∧ _gpu_ids (adjust_batch_size (Z.of_nat (length xs)) m) = _gpu_ids m
            ∧ vocab (adjust_batch_size (Z.of_nat (length xs)) m) = vocab m
            ∧ (batch_size (adjust_batch_size (Z.of_nat (length xs)) m) = batch_size m
               ∨ ∃ xs', Some xs = Some xs'
                   ∧ Z.of_nat (length xs') < batch_size m
                   ∧ batch_size (adjust_batch_size (Z.of_nat (length xs)) m)
                     = Z.max (Z.of_nat (length xs')) (Z.of_nat (length (_gpu_ids m)))))
      as (Hcfg & Hgpu & Hvoc & Hbs).
    { unfold adjust_batch_size.
      destruct (Z.ltb_spec (Z.of_nat (length xs)) (batch_size m)); simpl;
        split_and!; eauto. }
    revert Hcfg Hgpu Hvoc Hbs.
    generalize (adjust_batch_size (Z.of_nat (length xs)) m).
    intros m1 Hcfg Hgpu Hvoc Hbs. convert_tail y Hvoc.
  - convert_tail y Hck.
Qed.

(** ** More on [_convert_y] *)

Lemma init_label_size `{PySet} v y :
  label_size (init_label_to_id (init_id_to_label v y)) = label_size v.
Proof.
  unfold init_label_to_id, init_id_to_label.
  destruct (is_nil (_id_to_label v)); [destruct (py_sorted _)|];
    simpl; by destruct (decide _).
Qed.

Lemma convert_y_label_size `{PySet} v y :
  label_size (_convert_y v y).1
  = if truthy (label_size v) then label_size v
    else Some (Z.of_nat (length (remove_dups y))).
Proof.
  unfold _convert_y, check_label_size.
  destruct (truthy (label_size v)) eqn:Ht.
  - destruct (label_size v) as [cap|] eqn:Hcap; [|done].
    destruct (_ <=? _); [|done].
    destruct (encode_labels _ y []) as [v' r] eqn:He.
    apply encode_labels_mono in He as (Hsz & _). simpl.
    by rewrite Hsz, init_label_size.
  - destruct (encode_labels _ y []) as [v' r] eqn:He.
    apply encode_labels_mono in He as (Hsz & _). simpl.
    by rewrite Hsz, init_label_size.
Qed.

(** X9. [label_size] is assigned at most once by [_convert_y]: a capacity
    that is set (neither [None] nor [0]) is never changed, by any sequence of
    calls and whatever their outcomes; without one, a call sets it to the
    number of distinct labels of its batch. *)
Theorem capacity_is_set_once `{PySet}
    (v : vocabulary) (y : list label) (ys : list (list label)) :
  label_size (_convert_y v y).1
  = (if truthy (label_size v) then label_size v
     else Some (Z.of_nat (length (remove_dups y))))
  ∧ (truthy (label_size v) = true →
     label_size (convert_y_calls v ys) = label_size v).
Proof.
  split; [apply convert_y_label_size|].
  revert v. induction ys as [|y' ys IH]; intros v Ht; [done|].
  unfold convert_y_calls in *. simpl.
  assert (label_size (_convert_y v y').1 = label_size v) as Hsame
    by (by rewrite convert_y_label_size, Ht).
  rewrite IH; [done | by rewrite Hsame].
Qed.

Lemma capacity_is_set_once_witness :
  label_size (@convert_y_calls sets_in_list_order (new_vocabulary (Some 2))
                [[LInt 4]; [LInt 5; LInt 6; LInt 7]; []; [LInt 9]])
  = Some 2.
Proof.
  apply (proj2 (@capacity_is_set_once sets_in_list_order (new_vocabulary (Some 2)) []
                  [[LInt 4]; [LInt 5; LInt 6; LInt 7]; []; [LInt 9]])).
  reflexivity.
Defined.

(** On a full vocabulary the loop assigns nothing, and fails on a label
    that has no id. *)
Lemma encode_labels_full y : ∀ v acc cap,
  label_size v = Some cap → cap ≤ Z.of_nat (size (_label_to_id v)) →
  (∃ r, encode_labels v y acc = (v, r))
  ∧ (Exists (λ l, _label_to_id v !! l = None) y →
     encode_labels v y acc = (v, Raise (AssertionError unique_labels_msg))).
Proof.
  induction y as [|l y IH]; intros v acc cap Hcap Hfull; simpl.
  - split; [by eauto|]. by intros ?%Exists_nil.
  - destruct (_label_to_id v !! l) as [i|] eqn:Hl.
    + destruct (IH v (acc ++ [i]) cap Hcap Hfull) as [Hr Hex]. split; [done|].
      intros [?|?]%Exists_cons; [congruence | by apply Hex].
    + rewrite Hcap. rewrite (proj2 (Z.ltb_ge _ _) Hfull). split; [by eauto | done].
Qed.

(** X10. A capacity that the first call computed leaves no room: after a
    first call on a non-empty batch [y], on a module created without
    [label_size], every later call whose batch holds a label that is not in
    [y] fails with an [AssertionError] and leaves the vocabulary as it
    was. *)
Theorem automatic_capacity_admits_no_new_label `{PySet}
    (y y2 : list label) (l : label) :
  y ≠ [] → l ∈ y2 → l ∉ y →
  let v1 := (_convert_y (new_vocabulary None) y).1 in
  ∃ msg, _convert_y v1 y2 = (v1, Raise (AssertionError msg)).
Proof.
  intros Hne Hl Hnew v1. unfold v1. clear v1.
  destruct (first_call y) as (ids & -> & _). simpl.
  set (n := Z.of_nat (length (remove_dups y))).
  set (d := dict_of_enumerate 0 (built_labels y) ∅).
  pose proof (dict_of_enumerate_fresh (Some n) _ (built_labels_NoDup y)) as Hc.
  fold d in Hc.
  assert (0 < n) as Hn.
  { unfold n. destruct y as [|a y]; [done|].
    assert (a ∈ remove_dups (a :: y)) as Ha by (apply elem_of_remove_dups; left).
    destruct (remove_dups (a :: y)); [by apply not_elem_of_nil in Ha | simpl; lia]. }
  assert (built_labels y ≠ []) as Hbne.
  { intros Hnil. pose proof (built_labels_perm y) as Hp. rewrite Hnil in Hp.
    apply Permutation_nil_l in Hp. unfold n in Hn. rewrite <- Hp in Hn. simpl in Hn. lia. }
  unfold _convert_y, check_label_size. cbn [label_size truthy].
  assert ((n =? 0) = false) as -> by (apply Z.eqb_neq; lia). cbn [negb].
  destruct (_ <=? n); [|by eauto].
  rewrite (init_vocabulary _ y2 Hc). cbn [_id_to_label].
  destruct (built_labels y) as [|b bs] eqn:Hb; [done|]. cbn [is_nil].
  rewrite <- Hb in *.
  destruct (encode_labels_full y2 (Vocabulary (Some n) (built_labels y) d) [] n)
    as [_ Hfail]; [done | |].
  - destruct Hc as (_ & Hsz & _). cbn [_label_to_id _id_to_label] in *.
    rewrite Hsz, built_labels_perm. unfold n. lia.
  - rewrite Hfail; [by eauto|].
    apply Exists_exists. exists l. split; [done|]. simpl.
    destruct (d !! l) as [i|] eqn:Hd; [|done]. exfalso.
    destruct Hc as (_ & _ & Hiff). simpl in Hiff.
    apply Hiff in Hd as (k & _ & Hk). apply list_elem_of_lookup_2 in Hk.
    rewrite built_labels_perm, elem_of_remove_dups in Hk. done.
Qed.

Lemma automatic_capacity_admits_no_new_label_witness :
  let v1 := (@_convert_y sets_in_list_order (new_vocabulary None)
               [LStr "up"; LStr "down"; LStr "up"]).1 in
  ∃ msg, @_convert_y sets_in_list_order v1 [LStr "down"; LStr "flat"]
         = (v1, Raise (AssertionError msg)).
Proof.
  apply (@automatic_capacity_admits_no_new_label sets_in_list_order
           [LStr "up"; LStr "down"; LStr "up"] [LStr "down"; LStr "flat"] (LStr "flat")).
  - discriminate.
  - apply (bool_decide_unpack _). vm_compute. exact I.
  - apply (bool_decide_unpack _). vm_compute. exact I.
Defined.

(** ** How [_convert_y] fails *)

(** On a state with a capacity the loop fails only at line 147, and then the
    vocabulary is full. *)
Lemma encode_labels_raise y : ∀ v acc v' e,
  capped v → encode_labels v y acc = (v', Raise e) →
  e = AssertionError unique_labels_msg
  ∧ ∃ cap, label_size v' = Some cap ∧ Z.of_nat (length (_id_to_label v')) = cap.
Proof.
  induction y as [|l y IH]; intros v acc v' e Hv; simpl; [done|].
  destruct (_label_to_id v !! l) as [i|] eqn:Hl; [by apply IH|].
  destruct Hv as (Hc & cap & Hcap & Hle). rewrite Hcap.
  destruct (Z.ltb_spec (Z.of_nat (size (_label_to_id v))) cap) as [Hlt|Hge].
  - apply IH. split; [destruct v; by eapply consistent_admit|].
    exists cap. simpl. split; [done|].
    destruct Hc as (_ & Hsz & _). rewrite length_app. simpl. lia.
  - intros [= <- <-]. split; [done|]. exists cap. split; [done|].
    destruct Hc as (_ & Hsz & _). lia.
Qed.

(** X11. The two ways [_convert_y] fails on a well-formed state. At line 126
    (more distinct labels in the batch than [label_size]) nothing has been
    assigned. At line 147 (a label does not fit any more) the call is not
    undone: the labels admitted before the failure stay, the vocabulary is
    left full, and the ids given before the call are kept. No other
    exception is raised. *)
Theorem convert_y_failures `{PySet}
    (v : vocabulary) (y : list label) (v' : vocabulary) (e : exn) :
  vocab_ok v → _convert_y v y = (v', Raise e) →
  (e = AssertionError unique_y_msg ∧ v' = v)
  ∨ (e = AssertionError unique_labels_msg
     ∧ (∃ cap, label_size v' = Some cap
               ∧ Z.of_nat (length (_id_to_label v')) = cap)
     ∧ _label_to_id v ⊆ _label_to_id v').
Proof.
  intros Hv Hcall. unfold _convert_y in Hcall.
  destruct (check_label_size v y) as [v1|e1] eqn:Hck.
  - right.
    pose proof (prepared_capped v y v1 Hv Hck) as Hcap.
    destruct (encode_labels_raise y _ _ _ _ Hcap Hcall) as [-> Hfull].
    split_and!; [done | done |].
    apply encode_labels_mono in Hcall as (_ & Hsub & _).
    etrans; [|exact Hsub].
    destruct (check_label_size_ok v y v1 Hv Hck) as (Hids & Hmap & _).
    pose proof Hv as [Hc _].
    assert (consistent v1) as Hc1.
    { destruct v, v1. simpl in *. subst. by eapply consistent_label_size. }
    rewrite (init_vocabulary v1 y Hc1).
    destruct (_id_to_label v1) as [|l ls] eqn:Hl; simpl; [|by rewrite Hmap].
    rewrite (consistent_nil_empty v Hc (eq_sym Hids)).
    apply map_empty_subseteq.
  - left. injection Hcall as <- <-. split; [|done].
    unfold check_label_size in Hck.
    destruct (truthy (label_size v)); [|done].
    destruct (label_size v); [|done]. destruct (_ <=? _); [done|]. congruence.
Qed.

Lemma convert_y_failures_witness :
  let v := (@_convert_y sets_in_list_order (new_vocabulary (Some 3))
              [LStr "up"; LStr "down"]).1 in
  let r := @_convert_y sets_in_list_order v
             [LStr "flat"; LStr "up"; LStr "limit"] in
  (r.2 = Raise (AssertionError unique_y_msg) ∧ r.1 = v)
  ∨ (r.2 = Raise (AssertionError unique_labels_msg)
     ∧ (∃ cap, label_size r.1 = Some cap
               ∧ Z.of_nat (length (_id_to_label r.1)) = cap)
     ∧ _label_to_id v ⊆ _label_to_id r.1).
Proof.
  intros v r.
  destruct (@convert_y_failures sets_in_list_order v
              [LStr "flat"; LStr "up"; LStr "limit"]
              r.1 (AssertionError unique_labels_msg)) as [[He Hv] | (He & Hfull & Hsub)].
  - apply convert_y_vocab_ok, new_vocabulary_ok.
  - vm_compute. reflexivity.
  - discriminate He.
  - right. split_and!; [reflexivity | exact Hfull | exact Hsub].
Defined.

(** ** The order in which later labels are admitted *)

Lemma consistent_lookup_None v l :
  consistent v → _label_to_id v !! l = None ↔ l ∉ _id_to_label v.
Proof.
  intros (_ & _ & Hiff). split.
  - intros Hn (k & Hk)%list_elem_of_lookup_1.
    assert (_label_to_id v !! l = Some (Z.of_nat k)) as Hs by (apply Hiff; eauto).
    congruence.
  - intros Hn. destruct (_label_to_id v !! l) as [i|] eqn:Hl; [|done].
    apply Hiff in Hl as (k & _ & Hk). by apply list_elem_of_lookup_2 in Hk.
Qed.

(** The loop admits the unknown labels in the order they come. *)
Lemma encode_labels_order y : ∀ v acc v' ids,
  consistent v → encode_labels v y acc = (v', Ok ids) →
  _id_to_label v'
  = foldl (λ acc l, if decide (l ∈ acc) then acc else acc ++ [l]) (_id_to_label v) y.
Proof.
  induction y as [|l y IH]; intros v acc v' ids Hc; simpl.
  - by intros [= <- _].
  - destruct (_label_to_id v !! l) as [i|] eqn:Hl.
    + assert (l ∈ _id_to_label v) as Hin.
      { destruct (decide (l ∈ _id_to_label v)) as [|Hn]; [done|].
        apply (consistent_lookup_None v l Hc) in Hn. congruence. }
      rewrite decide_True by done. by apply IH.
    + assert (l ∉ _id_to_label v) as Hn by (by apply (consistent_lookup_None v l Hc)).
      rewrite decide_False by done.
      destruct (label_size v) as [cap|] eqn:Hcap; [|done].
      destruct (_ <? _); [|done].
      intros He. apply IH in He; [done|]. destruct v. by eapply consistent_admit.
Qed.

Lemma first_seen_from (S : list label) y : ∀ T,
  foldl (λ acc l, if decide (l ∈ acc) then acc else acc ++ [l])
    (S ++ filter (λ l, l ∉ S) T) y
  = S ++ filter (λ l, l ∉ S)
           (foldl (λ acc l, if decide (l ∈ acc) then acc else acc ++ [l]) T y).
Proof.
  induction y as [|l y IH]; intros T; simpl; [done|].
  destruct (decide (l ∈ T)) as [HT|HT].
  - rewrite decide_True; [by apply IH|].
    apply elem_of_app. destruct (decide (l ∈ S)); [by left|].
    right. by apply list_elem_of_filter.
  - rewrite <- IH. f_equal. rewrite filter_app.
    destruct (decide (l ∈ S)) as [HS|HS].
    + rewrite decide_True by (apply elem_of_app; by left).
      rewrite filter_cons_False by (intros ?; done). simpl. by rewrite app_nil_r.
    + rewrite decide_False.
      * rewrite filter_cons_True by done. simpl. by rewrite app_assoc.
      * intros [?|[_ ?]%list_elem_of_filter]%elem_of_app; done.
Qed.

(** X12. On a module that holds a vocabulary, a successful call appends to
    [_id_to_label] the labels of the batch that were not in it, each once,
    in the order of their first occurrence in the batch; the labels already
    known stay where they were. *)
Theorem later_calls_append_in_order_of_appearance `{PySet}
    (v : vocabulary) (y : list label) (v' : vocabulary) (ids : list Z) :
  vocab_ok v → _id_to_label v ≠ [] → _convert_y v y = (v', Ok ids) →
  _id_to_label v'
  = _id_to_label v ++ filter (λ l, l ∉ _id_to_label v) (first_seen y).
Proof.
  intros Hv Hne Hcall. unfold _convert_y in Hcall.
  destruct (check_label_size v y) as [v1|e] eqn:Hck; [|done].
  destruct (check_label_size_ok v y v1 Hv Hck) as (Hids & Hmap & _).
  pose proof Hv as [Hc _].
  assert (consistent v1) as Hc1.
  { destruct v, v1. simpl in *. subst. by eapply consistent_label_size. }
  rewrite (init_vocabulary v1 y Hc1) in Hcall. rewrite Hids in Hcall.
  destruct (_id_to_label v) as [|l0 ls] eqn:Hls; [done|]. cbn [is_nil] in Hcall.
  apply (encode_labels_order y v1 [] v' ids Hc1) in Hcall.
  rewrite Hcall, Hids. unfold first_seen.
  rewrite <- (first_seen_from (l0 :: ls) y []). by rewrite filter_nil, app_nil_r.
Qed.

Lemma later_calls_append_in_order_of_appearance_witness :
  let v := (@_convert_y sets_in_reverse_order (new_vocabulary (Some 5))
              [LStr "b"; LStr "a"]).1 in
  _id_to_label
    (@_convert_y sets_in_reverse_order v [LStr "z"; LStr "a"; LStr "c"; LStr "z"]).1
  = [LStr "a"; LStr "b"; LStr "z"; LStr "c"].
Proof.
  intros v.
  refine (@later_calls_append_in_order_of_appearance sets_in_reverse_order v
            [LStr "z"; LStr "a"; LStr "c"; LStr "z"] _ [2; 0; 3; 2] _ _ _).
  - apply convert_y_vocab_ok, new_vocabulary_ok.
  - vm_compute. discriminate.
  - vm_compute. reflexivity.
Defined.

(** ** Edge cases of [_convert_y] *)

Lemma vocab_ok_falsy_empty v :
  vocab_ok v → truthy (label_size v) = false →
  _id_to_label v = [] ∧ _label_to_id v = ∅.
Proof.
  intros [Hc Hcap] Ht.
  assert (_id_to_label v = []) as Hnil.
  { destruct Hcap as [-> | (cap & Hcap & Hlen)]; [done|].
    rewrite Hcap in Ht. simpl in Ht. apply negb_false_iff, Z.eqb_eq in Ht as ->.
    destruct (_id_to_label v); [done | simpl in Hlen; lia]. }
  split; [done | by apply consistent_nil_empty].
Qed.

Lemma convert_y_nil `{PySet} v :
  vocab_ok v →
  _convert_y v []
  = if truthy (label_size v) then
      (v, if bool_decide (default 0 (label_size v) < 0)
          then Raise (AssertionError unique_y_msg) else Ok [])
    else (set_label_size (Some 0) v, Ok []).
Proof.
  intros Hv. pose proof Hv as [Hc Hcap].
  unfold _convert_y, check_label_size.
  change (Z.of_nat (length (remove_dups []))) with 0.
  destruct (truthy (label_size v)) eqn:Ht.
  - destruct (label_size v) as [cap|] eqn:Hls; [|done].
    change (default 0 (Some cap)) with cap.
    destruct (Z.leb_spec 0 cap).
    + rewrite bool_decide_false by lia.
      rewrite (init_vocabulary v [] Hc).
      destruct (_id_to_label v) as [|l ls] eqn:Hl; cbn [is_nil encode_labels]; [|done].
      rewrite built_labels_nil.
      pose proof (consistent_nil_empty v Hc Hl) as Hd.
      destruct v; simpl in *. by subst.
    + by rewrite bool_decide_true by lia.
  - destruct (vocab_ok_falsy_empty v Hv Ht) as [Hl Hd].
    assert (consistent (set_label_size (Some 0) v)) as Hc'.
    { destruct v. by eapply consistent_label_size. }
    rewrite (init_vocabulary _ [] Hc'). cbn [set_label_size _id_to_label label_size].
    rewrite Hl. cbn [is_nil encode_labels].
    rewrite built_labels_nil. cbn [dict_of_enumerate].
    unfold set_label_size. by rewrite Hl, Hd.
Qed.

(** X13. A call with no label assigns no id: on a well-formed state it
    returns the empty list (or fails at line 126 when the preset capacity is
    negative), leaves the vocabulary as it was, and a call made after it
    behaves as if it had not been made. *)
Theorem empty_batch_of_labels `{PySet} (v : vocabulary) (y : list label) :
  vocab_ok v →
  (_convert_y v []).2
  = (if truthy (label_size v) && bool_decide (default 0 (label_size v) < 0)
     then Raise (AssertionError unique_y_msg) else Ok [])
  ∧ _id_to_label (_convert_y v []).1 = _id_to_label v
  ∧ _label_to_id (_convert_y v []).1 = _label_to_id v
  ∧ _convert_y (_convert_y v []).1 y = _convert_y v y.
Proof.
  intros Hv. rewrite (convert_y_nil v Hv).
  destruct (truthy (label_size v)) eqn:Ht; simpl; [done|].
  split_and!; [done | done | done |].
  unfold _convert_y, check_label_size. simpl. rewrite Ht. done.
Qed.

Lemma empty_batch_of_labels_witness :
  @_convert_y sets_in_list_order
    (@_convert_y sets_in_list_order (new_vocabulary None) []).1 [LInt 3; LInt 1]
  = @_convert_y sets_in_list_order (new_vocabulary None) [LInt 3; LInt 1].
Proof.
  apply (@empty_batch_of_labels sets_in_list_order (new_vocabulary None)
           [LInt 3; LInt 1]).
  apply new_vocabulary_ok.
Defined.

(** X14. The ids of a successful call tell the labels apart and are class
    indices: two positions of the batch get the same id exactly when they
    hold the same label, and every id is at least [0] and less than
    [label_size]. *)
Theorem label_ids_distinguish_labels `{PySet}
    (v : vocabulary) (y : list label) (v' : vocabulary) (ids : list Z)
    (a b : nat) (la lb : label) (ia ib : Z) :
  vocab_ok v → _convert_y v y = (v', Ok ids) →
  y !! a = Some la → y !! b = Some lb → ids !! a = Some ia → ids !! b = Some ib →
  (ia = ib ↔ la = lb)
  ∧ ∃ cap, label_size v' = Some cap ∧ 0 ≤ ia < cap.
Proof.
  intros Hv Hcall Hla Hlb Hia Hib.
  destruct (convert_y_ok_inv v y v' ids Hv Hcall) as [(Hc & cap & Hcap & Hle) HF].
  pose proof (Forall2_lookup_lr _ _ _ _ _ _ HF Hla Hia) as Ha.
  pose proof (Forall2_lookup_lr _ _ _ _ _ _ HF Hlb Hib) as Hb.
  simpl in Ha, Hb. split.
  - split; [intros -> | intros ->; congruence].
    by eapply consistent_inj.
  - exists cap. split; [done|].
    destruct (consistent_decode _ _ _ Hc Ha) as [H0 Hk].
    apply lookup_lt_Some in Hk. lia.
Qed.

Lemma label_ids_distinguish_labels_witness :
  (1 = 2 ↔ LStr "b" = LStr "c")
  ∧ ∃ cap, label_size (@_convert_y sets_in_reverse_order (new_vocabulary (Some 4))
                         [LStr "b"; LStr "a"; LStr "c"; LStr "a"]).1 = Some cap
           ∧ 0 ≤ 1 < cap.
Proof.
  refine (@label_ids_distinguish_labels sets_in_reverse_order (new_vocabulary (Some 4))
            [LStr "b"; LStr "a"; LStr "c"; LStr "a"] _ [1; 0; 2; 0]
            0 2 (LStr "b") (LStr "c") 1 2 _ _ _ _ _ _).
  - apply new_vocabulary_ok.
  - vm_compute. reflexivity.
  - reflexivity.
  - reflexivity.
  - reflexivity.
  - reflexivity.
Defined.

(** ** Integer labels *)

#[local] Instance LInt_inj : Inj (=) (=) LInt.
Proof. by intros a b [= ->]. Qed.

Lemma seqZ_sorted (n : nat) : ∀ m, StronglySorted label_lt (LInt <$> seqZ m (Z.of_nat n)).
Proof.
  induction n as [|n IH]; intros m.
  - rewrite seqZ_nil by done. constructor.
  - rewrite seqZ_cons by lia. rewrite fmap_cons. constructor.
    + replace (Z.pred (Z.of_nat (S n))) with (Z.of_nat n) by lia. apply IH.
    + apply Forall_fmap, Forall_forall. intros i Hi.
      apply elem_of_seqZ in Hi. unfold label_lt. simpl. f_equal. apply Z.ltb_lt. lia.
Qed.

(** X15. Labels that are the integers [0 .. n-1], in any order and with any
    repetitions, are their own ids: the first call, on a module created
    without [label_size], sorts them, so that the vocabulary is
    [[0, 1, ..., n-1]] and the ids returned are the labels themselves. *)
Theorem contiguous_integers_encode_to_themselves `{PySet} (y : list Z) (n : nat) :
  (∀ i, i ∈ y ↔ 0 ≤ i < Z.of_nat n) →
  _convert_y (new_vocabulary None) (LInt <$> y)
  = (Vocabulary (Some (Z.of_nat n)) (LInt <$> seqZ 0 (Z.of_nat n))
       (dict_of_enumerate 0 (LInt <$> seqZ 0 (Z.of_nat n)) ∅),
     Ok y).
Proof.
  intros Hy. destruct (first_call (LInt <$> y)) as (ids & -> & Hids).
  assert (LInt <$> seqZ 0 (Z.of_nat n) ≡ₚ remove_dups (LInt <$> y)) as Hperm.
  { apply NoDup_Permutation.
    - apply (NoDup_fmap_2 _). apply NoDup_seqZ.
    - apply NoDup_remove_dups.
    - intros l. rewrite elem_of_remove_dups, !list_elem_of_fmap.
      split; intros (i & -> & Hi); exists i; (split; [done|]).
      + apply Hy. apply elem_of_seqZ in Hi. lia.
      + apply elem_of_seqZ. apply Hy in Hi. lia. }
  assert (built_labels (LInt <$> y) = LInt <$> seqZ 0 (Z.of_nat n)) as Hb.
  { apply (StronglySorted_unique label_lt).
    - apply built_labels_orderable. unfold orderable.
      apply orb_true_iff. left. apply forallb_forall.
      intros l (i & -> & _)%list_elem_of_In%list_elem_of_fmap. done.
    - apply seqZ_sorted.
    - by rewrite built_labels_perm, Hperm. }
  rewrite Hb in *.
  assert (length (remove_dups (LInt <$> y)) = n) as ->.
  { rewrite <- Hperm, length_fmap, length_seqZ. lia. }
  f_equal. f_equal.
  unfold ids_index in Hids. apply Forall2_fmap_l in Hids.
  clear -Hids. induction Hids as [|i j y ids [Hj Hl] _ IH]; [done|].
  f_equal; [|done].
  rewrite list_lookup_fmap in Hl.
  destruct (seqZ 0 (Z.of_nat n) !! Z.to_nat j) as [k|] eqn:Hk; [|done].
  apply lookup_seqZ in Hk as [Hk _]. simpl in Hl. simplify_eq. lia.
Qed.

Lemma contiguous_integers_encode_to_themselves_witness :
  @_convert_y sets_in_reverse_order (new_vocabulary None) (LInt <$> [2; 0; 1; 2])
  = (Vocabulary (Some 3) (LInt <$> seqZ 0 3)
       (dict_of_enumerate 0 (LInt <$> seqZ 0 3) ∅),
     Ok [2; 0; 1; 2]).
Proof.
  apply (@contiguous_integers_encode_to_themselves sets_in_reverse_order
           [2; 0; 1; 2] 3).
  intros i. split.
  - intros Hi. repeat (apply elem_of_cons in Hi as [Hi|Hi]; [subst; simpl; lia|]).
    by apply not_elem_of_nil in Hi.
  - intros Hi. assert (i = 0 ∨ i = 1 ∨ i = 2) as [Hi'|[Hi'|Hi']] by (simpl in Hi; lia);
      subst.
    + right. left.
    + right. right. left.
    + left.
Defined.

(** ** More on [Initialization.run] *)

(** X16. [run] declares the graph in every outcome, and sets the session
    mode to ["infer"] only when the initialisation succeeds: after a failure
    the module holds the declared variables and the mode it had. *)
Theorem run_sets_infer_mode_on_success_only `{Graph}
    (reinit_all ignore_checkpoint : bool) (s : session) :
  let s' := (run reinit_all ignore_checkpoint s).1 in
  global_variables s' = forward_variables (global_variables s)
  ∧ _session_mode s'
    = (if is_ok (run reinit_all ignore_checkpoint s).2 then Some Infer
       else _session_mode s).
Proof.
  unfold run. cbn zeta.
  destruct (reinit_all || negb (_session_built (declared s))).
  - unfold _init_session, _init_variables.
    destruct (ignore_checkpoint || restore_ok _); simpl; done.
  - destruct (is_nil (uninitialized (declared s))); [done|].
    unfold _init_variables.
    destruct (ignore_checkpoint || restore_ok _); simpl; done.
Qed.

(** ** The store model on a batch that shares lists *)

Lemma store_refines_values_witness :
  let s := PyList [unit_of [1%float; 1%float]; unit_of [2%float; 2%float];
                   unit_of [1%float; 1%float]] in
  ∃ h' V M,
    Store._convert_X (Config 3 2 LIFO) aliased_heap (Store.VRef 0%nat)
    = Some (h', inr (V, M))
    ∧ ∃ V', _convert_X (Config 3 2 LIFO) [s; s] = Ok (V', M)
            ∧ Forall2 (Forall2 (λ v t, ∃ j, Store.reify j h' v = Some t)) V V'.
Proof.
  intros s. eexists _, _, _. split; [vm_compute; reflexivity|].
  refine (store_refines_values (Config 3 2 LIFO) aliased_heap (Store.VRef 0%nat)
            [s; s] 3 _ (inr (_, _)) _ _).
  - vm_compute. reflexivity.
  - vm_compute. reflexivity.
Defined.
